(** * rag-pdf-website-qa: the ingestion-and-retrieval pipeline of [server.js]

    A shallow embedding of the chunker, the cosine similarity, the ingestion
    orchestrator ([processText]), the upload handlers, the crawler
    ([crawlWebsite]) and the ranking of [/ask], followed by the properties
    the specification states about them.

    Conventions of the embedding.
    - A JavaScript string is its sequence of UTF-16 code units, [list N].
    - A JavaScript number that holds a length, an index or a size is an
      integer of [Z]; the arithmetic on them in the source stays far below
      2^53, where doubles are exact.
    - A number that holds a score or a vector component is an IEEE-754
      binary64, the kernel's [float]; its operations are the ones Node
      evaluates ([+], [*], [/], [Math.sqrt] are correctly rounded).
    - An [async] function that awaits an external service takes the
      service's answer from an oracle; an exception is a value [Throw e].
    - A loop whose exit depends on its arguments runs on fuel; [None] is
      "no result within the fuel". *)

From Stdlib Require Import ZArith NArith List Bool Lia String Ascii DecimalString.
From Stdlib Require Import Sorted Permutation.
From Stdlib Require Import Floats.
From Stdlib Require DecimalZ DecimalPos.
From stdpp Require Import gmap.
Import ListNotations.

Local Open Scope Z_scope.

(** ** JavaScript strings *)

Definition code_unit := N.
Definition jsstring := list code_unit.

Definition of_string (s : string) : jsstring :=
  map N_of_ascii (list_ascii_of_string s).

(** [Array.prototype.slice] and [String.prototype.slice]: a negative bound
    counts from the end, both bounds are clamped to the length, and an empty
    range gives the empty sequence. *)
Definition slice {A : Type} (l : list A) (start end_ : Z) : list A :=
  let len := Z.of_nat (length l) in
  let from := if start <? 0 then Z.max (len + start) 0 else Z.min start len in
  let to := if end_ <? 0 then Z.max (len + end_) 0 else Z.min end_ len in
  firstn (Z.to_nat (to - from)) (skipn (Z.to_nat from) l).

(** ** Chunker: [chunkText] *)

Section Chunker.
Context {U : Type}.

(** The loop [for (let i = 0; i < text.length; i += chunkSize - overlap)]
    entered at index [i] with the chunks pushed so far. *)
Fixpoint chunkText_loop (fuel : nat) (text : list U) (chunkSize overlap : Z)
    (i : Z) (chunks : list (list U)) : option (list (list U)) :=
  match fuel with
  | O => None
  | S fuel' =>
      if i <? Z.of_nat (length text)
      then chunkText_loop fuel' text chunkSize overlap
             (i + (chunkSize - overlap))
             (chunks ++ [slice text i (i + chunkSize)])
      else Some chunks
  end.

Definition chunkText_run (fuel : nat) (text : list U) (chunkSize overlap : Z)
    : option (list (list U)) :=
  chunkText_loop fuel text chunkSize overlap 0 [].

(** The number of windows: the offsets [k * stride] below the length. *)
Definition window_count (len stride : Z) : nat :=
  Z.to_nat ((len + stride - 1) / stride).

(** The window the source takes at the [k]-th offset. *)
Definition window (text : list U) (chunkSize overlap : Z) (k : nat) : list U :=
  slice text (Z.of_nat k * (chunkSize - overlap))
             (Z.of_nat k * (chunkSize - overlap) + chunkSize).

Definition windows (text : list U) (chunkSize overlap : Z) : list (list U) :=
  map (window text chunkSize overlap)
      (seq 0 (window_count (Z.of_nat (length text)) (chunkSize - overlap))).
End Chunker.

(** [chunkText(text)] as the two files call it: the defaults are
    [chunkSize = 1500, overlap = 300] in server.js and [500, 100] in the
    earlier revision.  The fuel [length text + 1] is enough for any positive
    stride (lemma [chunkText_run_enough]). *)
Definition chunkText {U : Type} (text : list U) (chunkSize overlap : Z)
    : option (list (list U)) :=
  chunkText_run (S (length text)) text chunkSize overlap.

(** ** Numbers: the arithmetic [cosineSimilarity] is written against

    The source uses [+], [*], [/], [Math.sqrt] and reads [b[i]].  The
    function is embedded over this interface and read at [float_arith],
    the binary64 arithmetic Node runs. *)

Class Arith (num : Type) := {
  num_zero : num;
  num_add : num -> num -> num;
  num_mul : num -> num -> num;
  num_div : num -> num -> num;
  num_sqrt : num -> num;
  (** [ToNumber(undefined)], the operand an index past the end supplies. *)
  num_undefined : num
}.

#[export] Instance float_arith : Arith float := {
  num_zero := 0%float;
  num_add := PrimFloat.add;
  num_mul := PrimFloat.mul;
  num_div := PrimFloat.div;
  num_sqrt := PrimFloat.sqrt;
  num_undefined := PrimFloat.nan
}.

(** [Array.prototype.reduce(callback, initialValue)]: the callback receives
    the accumulator, the element and its index. *)
Fixpoint reduce_from {A B : Type} (f : B -> A -> nat -> B) (l : list A)
    (i : nat) (acc : B) : B :=
  match l with
  | [] => acc
  | x :: l' => reduce_from f l' (S i) (f acc x i)
  end.

Definition reduce {A B : Type} (f : B -> A -> nat -> B) (l : list A) (init : B) : B :=
  reduce_from f l 0%nat init.

Section Cosine.
Context {num : Type} `{Arith num}.

(** [b[i]] used as a number. *)
Definition element (b : list num) (i : nat) : num :=
  nth i b num_undefined.

Definition sum_squares (a : list num) : num :=
  reduce (fun sum val _ => num_add sum (num_mul val val)) a num_zero.

Definition dot_product (a b : list num) : num :=
  reduce (fun sum val i => num_add sum (num_mul val (element b i))) a num_zero.

Definition cosineSimilarity (a b : list num) : num :=
  let dot := dot_product a b in
  let magA := num_sqrt (sum_squares a) in
  let magB := num_sqrt (sum_squares b) in
  num_div dot (num_mul magA magB).
End Cosine.

(** ** Chunk store *)

Record Chunk := {
  id : jsstring;
  text : jsstring;
  embedding : list float
}.

(** An element of [CHUNKS.map((c) => ({ ...c, score: ... }))]. *)
Record Scored := {
  chunk : Chunk;
  score : float
}.

(** ** Retriever: the ranking of [/ask] *)

Definition is_nan (x : float) : bool := negb (PrimFloat.eqb x x).

(** The comparator [(a, b) => b.score - a.score]. *)
Definition comparefn (a b : Scored) : float :=
  (score b - score a)%float.

(** ECMAScript's SortCompare: a NaN from the comparator counts as [+0]. *)
Definition SortCompare (x y : Scored) : float :=
  let v := comparefn x y in
  if is_nan v then 0%float else v.

(** [Array.prototype.sort] is a stable sort (ECMAScript 2019); it is
    embedded as an insertion sort.  [insert x l] puts [x], which preceded
    every element of [l] in the array, behind the elements it compares
    greater than; elements that compare equal keep their order.  Where no
    score is NaN the choice of the algorithm does not show: every stable
    sort returns the same array (lemma [sort_unique]).  With a NaN score
    the comparator is not consistent and ECMAScript leaves the order to the
    engine; on an array with the scores 0, NaN, 1 every comparison of
    neighbours answers NaN, read as [+0], so V8 finds the array to be one
    run already in order and returns it as it is, and so does [sort]. *)
Fixpoint insert (x : Scored) (l : list Scored) : list Scored :=
  match l with
  | [] => [x]
  | y :: l' =>
      if (0 <? SortCompare x y)%float then y :: insert x l' else x :: l
  end.

Definition sort (l : list Scored) : list Scored :=
  fold_right insert [] l.

Definition scored (qEmbed : list float) (c : Chunk) : Scored :=
  {| chunk := c; score := cosineSimilarity qEmbed (embedding c) |}.

(** [CHUNKS.map(...).sort(...).slice(0, K)]; the source writes the literal
    [K = 5]. *)
Definition rankTop (K : Z) (qEmbed : list float) (store : list Chunk) : list Scored :=
  slice (sort (map (scored qEmbed) store)) 0 K.

Definition ranked (qEmbed : list float) (store : list Chunk) : list Scored :=
  rankTop 5 qEmbed store.

(** ** Strings the handlers compute with *)

(** [\s] of a regular expression and the characters [trim] removes:
    WhiteSpace and LineTerminator of ECMAScript. *)
Definition is_whitespace (c : code_unit) : bool :=
  ((9 <=? c) && (c <=? 13) || (c =? 32) || (c =? 160) || (c =? 5760)
   || (8192 <=? c) && (c <=? 8202) || (c =? 8232) || (c =? 8233)
   || (c =? 8239) || (c =? 8287) || (c =? 12288) || (c =? 65279))%N.

Fixpoint trimStart (s : jsstring) : jsstring :=
  match s with
  | [] => []
  | c :: s' => if is_whitespace c then trimStart s' else s
  end.

Definition trim (s : jsstring) : jsstring :=
  rev (trimStart (rev (trimStart s))).

(** [s.replace(/\s+/g, " ")]; [in_run] says that the previous code unit was
    white space, already replaced. *)
Fixpoint collapse_whitespace (in_run : bool) (s : jsstring) : jsstring :=
  match s with
  | [] => []
  | c :: s' =>
      if is_whitespace c
      then (if in_run then collapse_whitespace true s'
            else 32%N :: collapse_whitespace true s')
      else c :: collapse_whitespace false s'
  end.

(** Truthiness of a string: [!s] holds of the empty string only. *)
Definition truthy (s : jsstring) : bool :=
  match s with [] => false | _ => true end.

(** [parts.join(sep)]. *)
Fixpoint join (sep : jsstring) (parts : list jsstring) : jsstring :=
  match parts with
  | [] => []
  | [p] => p
  | p :: rest => p ++ sep ++ join sep rest
  end.

(** [s.startsWith(p)]. *)
Fixpoint startsWith (s p : jsstring) : bool :=
  match p, s with
  | [], _ => true
  | _ :: _, [] => false
  | a :: p', b :: s' => (a =? b)%N && startsWith s' p'
  end.

(** [link.split("#")[0]]. *)
Fixpoint before_hash (s : jsstring) : jsstring :=
  match s with
  | [] => []
  | c :: s' => if (c =? 35)%N then [] else c :: before_hash s'
  end.

(** [String(n)] of an integer, as a template literal prints it. *)
Definition Number_toString (n : Z) : jsstring :=
  of_string (NilZero.string_of_int (Z.to_int n)).

(** [s.toUpperCase()] on the lower-case ASCII letters, which is what the
    supported file extensions are made of. *)
Definition toUpperCase (s : jsstring) : jsstring :=
  map (fun c => if ((97 <=? c) && (c <=? 122))%N then (c - 32)%N else c) s.

(** [array.map((x, i) => f(x, i))]. *)
Fixpoint map_index_from {A B : Type} (f : A -> nat -> B) (l : list A) (i : nat) : list B :=
  match l with
  | [] => []
  | x :: l' => f x i :: map_index_from f l' (S i)
  end.

Definition map_index {A B : Type} (f : A -> nat -> B) (l : list A) : list B :=
  map_index_from f l 0%nat.

(** ** The server: shared state, exceptions, awaits *)

(** An exception, by its [message]. *)
Definition error := jsstring.

(** How a call or an awaited promise completes. *)
Inductive completion (A : Type) : Type :=
  | Return (a : A)
  | Throw (e : error).
Arguments Return {A} a.
Arguments Throw {A} e.

(** The process-wide store [CHUNKS] and the snapshot in [chunks.json]
    ([None]: the file does not exist). *)
Record Server := {
  CHUNKS : list Chunk;
  DATA_FILE : option (list Chunk)
}.

(** A handler or helper: it runs on the server state and completes, or does
    not come back ([None]).  A [Throw] keeps the state reached so far:
    JavaScript undoes nothing. *)
Definition M (A : Type) : Type := Server -> option (completion A * Server).

Definition ret {A : Type} (a : A) : M A :=
  fun s => Some (Return a, s).

Definition bind {A B : Type} (m : M A) (k : A -> M B) : M B :=
  fun s =>
    match m s with
    | None => None
    | Some (Throw e, s') => Some (Throw e, s')
    | Some (Return a, s') => k a s'
    end.

(** [await p], or the call of a helper that may not come back. *)
Definition await {A : Type} (p : option (completion A)) : M A :=
  fun s =>
    match p with
    | None => None
    | Some c => Some (c, s)
    end.

(** [try { m } catch (err) { handler(err) }]. *)
Definition try_catch {A : Type} (m : M A) (handler : error -> M A) : M A :=
  fun s =>
    match m s with
    | Some (Throw e, s') => handler e s'
    | r => r
    end.

Declare Scope js_scope.
Delimit Scope js_scope with js.
Notation "'let!' x ':=' m 'in' k" := (bind m (fun x => k))
  (at level 10, x name, m at level 100, k at level 200) : js_scope.
Notation "m ';;' k" := (bind m (fun _ => k))
  (at level 100, k at level 200, right associativity) : js_scope.

(** [CHUNKS.push(...processed)]. *)
Definition push_chunks (processed : list Chunk) : M unit :=
  fun s => Some (Return tt, {| CHUNKS := CHUNKS s ++ processed; DATA_FILE := DATA_FILE s |}).

(** [saveChunks()]: the file is rewritten with the whole store. *)
Definition saveChunks : M unit :=
  fun s => Some (Return tt, {| CHUNKS := CHUNKS s; DATA_FILE := Some (CHUNKS s) |}).

(** [Promise.all(requests)], and equally a loop that awaits the requests one
    by one: the results of all, or a rejection.  The rejection taken is the
    first in the order of the list; which of several rejections of one batch
    Node reports depends on their timing, and nothing below depends on
    which it is. *)
Fixpoint Promise_all {A : Type} (requests : list (completion A)) : completion (list A) :=
  match requests with
  | [] => Return []
  | Throw e :: _ => Throw e
  | Return a :: rest =>
      match Promise_all rest with
      | Throw e => Throw e
      | Return l => Return (a :: l)
      end
  end.

(** The body of a response and the response of a handler. *)
Inductive Body : Type :=
  | ErrorBody (message : jsstring)
  | FileIndexed (chunks : Z) (type : jsstring)
  | WebsiteIndexed (chunks : Z) (url : jsstring)
  | Answered (answer : jsstring) (sources : list jsstring).

Record Response := {
  status : Z;
  body : Body
}.

(** [err.message || fallback]. *)
Definition message_or (e : error) (fallback : jsstring) : jsstring :=
  if truthy e then e else fallback.

(** ** Embedding client, ingestion and the handlers *)

Section Services.
(** [openai.embeddings.create({ input })] followed by
    [.data[0].embedding]: the outcome of the request made for the text at
    position [i] of the call. *)
Variable embeddings_create : nat -> jsstring -> completion (list float).
(** [Date.now()] when the identifier of the [i]-th chunk is built. *)
Variable Date_now : nat -> Z.
(** [openai.chat.completions.create] followed by
    [.choices[0].message.content], on the user message. *)
Variable chat_create : jsstring -> completion jsstring.

(** The loop of [embedTextsBatch] entered at index [i]. *)
Fixpoint embedTextsBatch_loop (fuel : nat) (texts : list jsstring) (batchSize : Z)
    (i : Z) (embeddings : list (list float)) : option (completion (list (list float))) :=
  match fuel with
  | O => None
  | S fuel' =>
      if i <? Z.of_nat (length texts)
      then
        let batch := slice texts i (i + batchSize) in
        match Promise_all
                (map_index (fun t j => embeddings_create (Z.to_nat i + j) t) batch) with
        | Throw e => Some (Throw e)
        | Return res =>
            embedTextsBatch_loop fuel' texts batchSize (i + batchSize) (embeddings ++ res)
        end
      else Some (Return embeddings)
  end.

Definition embedTextsBatch (texts : list jsstring) (batchSize : Z)
    : option (completion (list (list float))) :=
  embedTextsBatch_loop (S (length texts)) texts batchSize 0 [].

(** [embedTexts] of the earlier revision: one request after the other. *)
Definition embedTexts (texts : list jsstring) : option (completion (list (list float))) :=
  Some (Promise_all (map_index (fun t i => embeddings_create i t) texts)).

(** The template literal [`${source}_${Date.now()}_${i}`]. *)
Definition chunk_id (source : jsstring) (i : nat) : jsstring :=
  source ++ of_string "_" ++ Number_toString (Date_now i)
         ++ of_string "_" ++ Number_toString (Z.of_nat i).

(** The body the two revisions of [processText] share; they differ in the
    chunker's defaults and in the embedding helper. *)
Definition processText_with
    (chunker : jsstring -> option (list jsstring))
    (embedder : list jsstring -> option (completion (list (list float))))
    (text source : jsstring) : M Z :=
  (let! chunks := await (option_map Return (chunker text)) in
   let! embeddings := await (embedder chunks) in
   let processed :=
     map_index (fun chunk i =>
                  {| id := chunk_id source i;
                     text := chunk;
                     embedding := nth i embeddings [] |}) chunks in
   push_chunks processed ;;
   saveChunks ;;
   ret (Z.of_nat (length processed)))%js.

(** [processText] of server.js. *)
Definition processText : jsstring -> jsstring -> M Z :=
  processText_with (fun t => chunkText t 1500 300)
                   (fun ts => embedTextsBatch ts 50).

(** [processText] of the earlier revision. *)
Definition processText_earlier : jsstring -> jsstring -> M Z :=
  processText_with (fun t => chunkText t 500 100) embedTexts.

(** What [/upload-file] receives: the lower-cased extension of the file
    name, and the text the extractor for that extension delivers (or its
    exception). *)
Record Upload := {
  upload_ext : jsstring;
  upload_extracted : completion jsstring
}.

Definition supported_extensions : list jsstring :=
  map of_string ["pdf"; "xlsx"; "xls"; "csv"; "docx"; "txt"; "log"; "report"]%string.

Definition supported (ext : jsstring) : bool :=
  existsb (fun e => bool_decide (e = ext)) supported_extensions.

(** [app.post("/upload-file", ...)]; [file = None] is a request without a
    file.  The uploaded file on disk and its removal after indexing are not
    part of the state. *)
Definition upload_file (file : option Upload) : M Response :=
  try_catch
    (match file with
     | None => ret {| status := 400; body := ErrorBody (of_string "No file uploaded") |}
     | Some f =>
         if supported (upload_ext f)
         then
           (let! text := await (Some (upload_extracted f)) in
            if negb (truthy (trim text))
            then ret {| status := 400; body := ErrorBody (of_string "No text extracted") |}
            else
              let! chunksCount := processText text (toUpperCase (upload_ext f)) in
              ret {| status := 200; body := FileIndexed chunksCount (upload_ext f) |})%js
         else ret {| status := 400; body := ErrorBody (of_string "Unsupported file type") |}
     end)
    (fun err =>
       ret {| status := 500;
              body := ErrorBody (message_or err (of_string "File processing error")) |}).

(** [app.post("/upload-website", ...)]; [fetched] is what [axios.get(url)]
    and [$("body").text()] deliver. *)
Definition upload_website (url : jsstring) (fetched : completion jsstring) : M Response :=
  try_catch
    (if negb (truthy url)
     then ret {| status := 400; body := ErrorBody (of_string "No URL provided") |}
     else
       (let! data := await (Some fetched) in
        let text := trim (collapse_whitespace false data) in
        if negb (truthy text)
        then ret {| status := 400; body := ErrorBody (of_string "No content found on website") |}
        else
          let! chunksCount := processText text (of_string "website") in
          ret {| status := 200; body := WebsiteIndexed chunksCount url |})%js)
    (fun err =>
       ret {| status := 500;
              body := ErrorBody (message_or err (of_string "Website processing error")) |}).

(** The user message of the completion request. *)
Definition prompt (context question : jsstring) : jsstring :=
  of_string "Answer the question using this context:" ++ [10; 10]%N ++ context
    ++ [10; 10]%N ++ of_string "Q: " ++ question.

(** [app.post("/ask", ...)]. *)
Definition ask (question : jsstring) : M Response :=
  try_catch
    (if negb (truthy question)
     then ret {| status := 400; body := ErrorBody (of_string "No question provided") |}
     else
       fun s =>
         (if (Z.of_nat (length (CHUNKS s)) =? 0)
          then ret {| status := 400; body := ErrorBody (of_string "No data indexed") |}
          else
            (let! qEmbed := await (Some (embeddings_create 0 question)) in
             let ranked := ranked qEmbed (CHUNKS s) in
             let context := join [10; 10]%N (map (fun c => text (chunk c)) ranked) in
             let! answer := await (Some (chat_create (prompt context question))) in
             ret {| status := 200;
                    body := Answered answer (map (fun r => id (chunk r)) ranked) |})%js) s)
    (fun err =>
       ret {| status := 500; body := ErrorBody (message_or err (of_string "QA error")) |}).
End Services.

(** ** Crawler: [crawlWebsite] *)

(** What cheerio reads off a fetched document: [$("title").text()], the
    texts of the [h1, h2, h3] elements, [$("body").text()], and the [href]
    attribute of every [a[href]] element, in document order. *)
Record Document := {
  doc_title : jsstring;
  doc_headings : list jsstring;
  doc_body : jsstring;
  doc_hrefs : list jsstring
}.

(** An element of [pages]. *)
Record PageRecord := {
  page_url : jsstring;
  page_text : jsstring
}.

(** The text of a page: title, headings and body, the empty ones dropped. *)
Definition extract_text (d : Document) : jsstring :=
  let title := doc_title d in
  let headings := join [10%N] (doc_headings d) in
  let bodyText := trim (collapse_whitespace false (doc_body d)) in
  join [10; 10]%N (List.filter truthy [title; headings; bodyText]).

(** The state one call of [crawlWebsite] owns.  [crawl(resolved)] is called
    without [await]: each call runs up to its [await axios.get(url)] and
    leaves a request in flight; the rest of its body runs when the answer
    arrives.  [requested] records every [axios.get] issued, in order. *)
Record Crawl := {
  visited : gset jsstring;
  pages : list PageRecord;
  inflight : list jsstring;
  requested : list jsstring
}.

Section Crawler.
(** [url.resolve(from, to)] of Node. *)
Variable resolve : jsstring -> jsstring -> jsstring.
(** The answer to [axios.get(url)], parsed; [Throw]: the request or the
    parsing failed. *)
Variable site : jsstring -> completion Document.
Variable baseUrl : jsstring.
Variable maxPages : Z.

(** [crawl(url)] up to its first [await]. *)
Definition crawl_enter (url : jsstring) (c : Crawl) : Crawl :=
  if bool_decide (url ∈ visited c) || (maxPages <=? Z.of_nat (length (pages c)))
  then c
  else {| visited := visited c ∪ {[ url ]};
          pages := pages c;
          inflight := inflight c ++ [url];
          requested := requested c ++ [url] |}.

(** The URL the callback of [$("a[href]").each] passes to [crawl], if any. *)
Definition link_target (link : jsstring) : option jsstring :=
  if negb (truthy link) then None
  else
    let resolved := resolve baseUrl (before_hash link) in
    if startsWith resolved baseUrl then Some resolved else None.

Definition follow_link (c : Crawl) (link : jsstring) : Crawl :=
  match link_target link with
  | Some resolved => crawl_enter resolved c
  | None => c
  end.

(** [crawl(url)] from the answer of [axios.get(url)] to its end; a failed
    request is logged and nothing else happens. *)
Definition crawl_resume (url : jsstring) (c : Crawl) : Crawl :=
  match site url with
  | Throw _ => c
  | Return d =>
      let text := extract_text d in
      let c1 :=
        if truthy text
        then {| visited := visited c;
                pages := pages c ++ [{| page_url := url; page_text := text |}];
                inflight := inflight c;
                requested := requested c |}
        else c in
      fold_left follow_link (doc_hrefs d) c1
  end.

(** The list without its [k]-th element. *)
Definition remove_at {A : Type} (k : nat) (l : list A) : list A :=
  firstn k l ++ skipn (S k) l.

(** One turn of the event loop: the [k]-th request in flight is answered. *)
Definition answer (k : nat) (c : Crawl) : option Crawl :=
  match nth_error (inflight c) k with
  | None => None
  | Some url =>
      Some (crawl_resume url
              {| visited := visited c;
                 pages := pages c;
                 inflight := remove_at k (inflight c);
                 requested := requested c |})
  end.

(** The answers arrive in the order [schedule] gives. *)
Fixpoint run (schedule : list nat) (c : Crawl) : option Crawl :=
  match schedule with
  | [] => Some c
  | k :: rest =>
      match answer k c with
      | None => None
      | Some c' => run rest c'
      end
  end.

(** [crawlWebsite(baseUrl, visited, maxPages)] up to the call
    [crawl(baseUrl)]. *)
Definition crawl_start (visited0 : gset jsstring) : Crawl :=
  crawl_enter baseUrl
    {| visited := visited0; pages := []; inflight := []; requested := [] |}.

(** [crawlWebsite(baseUrl, visited, maxPages)] at its return: the state in
    which [await crawl(baseUrl)] resumes and [pages] is returned.  The call
    for the base URL has ended, the calls it made for the links of the base
    page have not been awaited. *)
Definition crawlWebsite (visited0 : gset jsstring) : Crawl :=
  match answer 0 (crawl_start visited0) with
  | Some c => c
  | None => crawl_start visited0
  end.

(** The array [crawlWebsite] returned is the array the calls still in
    flight push to: its contents after the answers of [schedule]. *)
Definition crawl_later (visited0 : gset jsstring) (schedule : list nat) : option Crawl :=
  run schedule (crawlWebsite visited0).

(** The reading of the scope rule in the specification: the link is
    resolved against the URL of the page it stands on. *)
Definition link_target_on_page (page link : jsstring) : option jsstring :=
  let resolved := resolve page (before_hash link) in
  if startsWith resolved baseUrl then Some resolved else None.
End Crawler.

(** ** The crawl when [url.resolve] throws *)

(** [url.resolve] throws on a URL it cannot parse.  The exception leaves
    the callback of [each] and with it the loop over the links, and is
    caught by the [catch] of [crawl]: the links that follow on the page
    are not looked at.  The record of the page has been pushed before.
    The definitions of the section above are the case of a [resolve] that
    returns on every link. *)
Section CrawlerThrowing.
(** [url.resolve(from, to)] of Node, with the exception it may throw. *)
Variable resolve : jsstring -> jsstring -> completion jsstring.
Variable site : jsstring -> completion Document.
Variable baseUrl : jsstring.
Variable maxPages : Z.

(** The loop [$("a[href]").each(...)] over the links of a page, up to its
    end or to the first link [url.resolve] throws on. *)
Fixpoint follow_links_each (links : list jsstring) (c : Crawl) : Crawl :=
  match links with
  | [] => c
  | link :: rest =>
      if negb (truthy link) then follow_links_each rest c
      else
        match resolve baseUrl (before_hash link) with
        | Throw _ => c
        | Return resolved =>
            follow_links_each rest
              (if startsWith resolved baseUrl then crawl_enter maxPages resolved c else c)
        end
  end.

(** [crawl(url)] from the answer of [axios.get(url)] to its end. *)
Definition crawl_resume_each (url : jsstring) (c : Crawl) : Crawl :=
  match site url with
  | Throw _ => c
  | Return d =>
      let text := extract_text d in
      let c1 :=
        if truthy text
        then {| visited := visited c;
                pages := pages c ++ [{| page_url := url; page_text := text |}];
                inflight := inflight c;
                requested := requested c |}
        else c in
      follow_links_each (doc_hrefs d) c1
  end.

(** One turn of the event loop: the [k]-th request in flight is answered. *)
Definition answer_each (k : nat) (c : Crawl) : option Crawl :=
  match nth_error (inflight c) k with
  | None => None
  | Some url =>
      Some (crawl_resume_each url
              {| visited := visited c;
                 pages := pages c;
                 inflight := remove_at k (inflight c);
                 requested := requested c |})
  end.

Fixpoint run_each (schedule : list nat) (c : Crawl) : option Crawl :=
  match schedule with
  | [] => Some c
  | k :: rest =>
      match answer_each k c with
      | None => None
      | Some c' => run_each rest c'
      end
  end.

(** [crawlWebsite(baseUrl, visited, maxPages)] at its return. *)
Definition crawlWebsite_each (visited0 : gset jsstring) : Crawl :=
  match answer_each 0 (crawl_start baseUrl maxPages visited0) with
  | Some c => c
  | None => crawl_start baseUrl maxPages visited0
  end.

(** The array [crawlWebsite] returned after the answers of [schedule]. *)
Definition crawl_later_each (visited0 : gset jsstring) (schedule : list nat) : option Crawl :=
  run_each schedule (crawlWebsite_each visited0).
End CrawlerThrowing.

(** ** The handler of [/upload-full-website] *)

(** The body of its response. *)
Inductive SiteBody : Type :=
  | SiteError (message : jsstring)
  | FullWebsiteIndexed (pagesIndexed totalChunks : Z).

Record SiteResponse := {
  site_status : Z;
  site_body : SiteBody
}.

Section FullWebsite.
Variable resolve : jsstring -> jsstring -> jsstring.
Variable site : jsstring -> completion Document.
(** The embedding provider and the clock during the call of [processText]
    for the page at position [k] of [pages]. *)
Variable embeddings_for : nat -> nat -> jsstring -> completion (list float).
Variable Date_now_for : nat -> nat -> Z.
(** The answers to requests of the crawl that arrive while the handler
    awaits [processText] for the page at position [k], as [run] reads them. *)
Variable arrivals : nat -> list nat.

(** The answers of a schedule arrive; an entry that names no request in
    flight is no event. *)
Definition deliver (baseUrl : jsstring) (maxPages : Z) (schedule : list nat) (c : Crawl)
    : Crawl :=
  fold_left
    (fun c k =>
       match answer resolve site baseUrl maxPages k c with
       | Some c' => c'
       | None => c
       end)
    schedule c.

(** The loop [for (const page of pages)] from position [k] on.  The
    iterator reads the live array: the records pushed by answers that
    arrive during an [await] are visited too.  The crawl and the ingestion
    share no state, so the answers of one [await] are taken together after
    it. *)
Fixpoint index_pages (fuel : nat) (baseUrl : jsstring) (k : nat) (totalChunks : Z)
    (c : Crawl) : M (Z * Crawl) :=
  match fuel with
  | O => fun _ => None
  | S fuel' =>
      match nth_error (pages c) k with
      | None => ret (totalChunks, c)
      | Some page =>
          (let! chunksCount :=
             processText (embeddings_for k) (Date_now_for k) (page_text page) (page_url page) in
           index_pages fuel' baseUrl (S k) (totalChunks + chunksCount)
             (deliver baseUrl 100 (arrivals k) c))%js
      end
  end.

(** [app.post("/upload-full-website", ...)].  The crawl is made with a fresh
    set and [maxPages = 100]; [pagesIndexed] is the length of the array when
    the response is written.  The number of turns of the loop is not known
    when it starts, so it runs on fuel. *)
Definition upload_full_website (fuel : nat) (url : jsstring) : M SiteResponse :=
  try_catch
    (if negb (truthy url)
     then ret {| site_status := 400; site_body := SiteError (of_string "No URL provided") |}
     else
       let c := crawlWebsite resolve site url 100 ∅ in
       if (Z.of_nat (length (pages c)) =? 0)
       then ret {| site_status := 400; site_body := SiteError (of_string "No content found") |}
       else
         (let! done := index_pages fuel url 0 0 c in
          ret {| site_status := 200;
                 site_body := FullWebsiteIndexed (Z.of_nat (length (pages (snd done))))
                                                 (fst done) |})%js)
    (fun err =>
       ret {| site_status := 500;
              site_body := SiteError (message_or err (of_string "Website processing error")) |}).
End FullWebsite.

(** ** Notions the properties are stated with *)

(** A float that is [+0] or [-0]. *)
Definition zero_float (x : float) : Prop :=
  exists s, Prim2SF x = S754_zero s.

(** A float that is a zero or NaN. *)
Definition zero_or_nan (x : float) : Prop :=
  zero_float x \/ Prim2SF x = S754_nan.

(** A vector all of whose components are [0] (of either sign): [x === 0]
    holds of each. *)
Definition all_zero (v : list float) : bool :=
  forallb (fun x => (x =? 0)%float) v.


(** What stays true of the requests of a crawl: none is repeated, each is
    recorded in [visited], each is for a URL that starts with [baseUrl]. *)
Definition requests_ok (baseUrl : jsstring) (c : Crawl) : Prop :=
  NoDup (requested c)
  /\ (forall u, In u (requested c) -> u ∈ visited c)
  /\ Forall (fun u => startsWith u baseUrl = true) (requested c).

(** The two revisions of the server. *)
Inductive revision : Type := Current | Earlier.

Definition chunks_of (rev : revision) (text : jsstring) : list jsstring :=
  match rev with
  | Current => windows text 1500 300
  | Earlier => windows text 500 100
  end.

Definition processText_of (rev : revision)
    (embeddings_create : nat -> jsstring -> completion (list float))
    (Date_now : nat -> Z) : jsstring -> jsstring -> M Z :=
  match rev with
  | Current => processText embeddings_create Date_now
  | Earlier => processText_earlier embeddings_create Date_now
  end.

(** Some request of the embedding step is rejected. *)
Definition embedding_fails (embeddings_create : nat -> jsstring -> completion (list float))
    (chunks : list jsstring) : Prop :=
  exists (i : nat) (chunk : jsstring) (e : error),
    nth_error chunks i = Some chunk /\ embeddings_create i chunk = Throw e.

(** The requests for the texts from position [i] on, in order. *)
Definition requests_from (embeddings_create : nat -> jsstring -> completion (list float))
    (texts : list jsstring) (i : nat) : list (completion (list float)) :=
  map_index_from (fun t j => embeddings_create j t) texts i.

(** The results of the requests so far, followed by the outcome of more
    requests. *)
Definition and_then (embeddings : list (list float)) (more : completion (list (list float)))
    : completion (list (list float)) :=
  match more with
  | Throw e => Throw e
  | Return res => Return (embeddings ++ res)
  end.

(** An integer that orders the numbers as IEEE-754 compares them: a finite
    number is its value in units of the smallest subnormal, an infinity
    lies beyond every finite number.  (NaN, which compares with nothing,
    gets [0].) *)
Definition key (x : spec_float) : Z :=
  match x with
  | S754_zero _ => 0
  | S754_nan => 0
  | S754_infinity s => cond_Zopp s (2 ^ (emax - emin))
  | S754_finite s m e => cond_Zopp s (Zpos m * 2 ^ (e - emin))
  end.

Definition float_key (x : float) : Z := key (Prim2SF x).

(** No score of the list is NaN. *)
Definition no_nan_scores (l : list Scored) : Prop :=
  Forall (fun x => is_nan (score x) = false) l.

(** [a] may stand before [b] in a descending list. *)
Definition score_ge (a b : Scored) : Prop :=
  (score b <=? score a)%float = true.

(** What stays true of the records of a crawl: the URLs recorded and the
    URLs in flight are pairwise distinct and were all requested, and every
    record holds the non-empty text extracted from the document served for
    its URL. *)
Definition pages_ok (site : jsstring -> completion Document) (c : Crawl) : Prop :=
  NoDup (map page_url (pages c) ++ inflight c)
  /\ (forall u, In u (map page_url (pages c) ++ inflight c) -> In u (requested c))
  /\ Forall (fun p => page_text p <> []
                      /\ exists d, site (page_url p) = Return d
                                   /\ page_text p = extract_text d)
            (pages c).

(** A request that was made and has been answered. *)
Definition answered (c : Crawl) (u : jsstring) : Prop :=
  In u (requested c) /\ ~ In u (inflight c).

(** [r] is what a link on a page that was fetched leads to. *)
Definition linked_from (resolve : jsstring -> jsstring -> jsstring)
    (site : jsstring -> completion Document) (baseUrl : jsstring)
    (c : Crawl) (r : jsstring) : Prop :=
  exists (u : jsstring) (d : Document) (l : jsstring),
    answered c u /\ site u = Return d /\ In l (doc_hrefs d)
    /\ link_target resolve baseUrl l = Some r.

(** The URLs a crawl of [baseUrl] can come to: [baseUrl], and what a link
    on a page that is served for such a URL leads to. *)
Inductive reachable (resolve : jsstring -> jsstring -> jsstring)
    (site : jsstring -> completion Document) (baseUrl : jsstring) : jsstring -> Prop :=
  | reachable_base : reachable resolve site baseUrl baseUrl
  | reachable_link (u : jsstring) (d : Document) (l r : jsstring) :
      reachable resolve site baseUrl u ->
      site u = Return d ->
      In l (doc_hrefs d) ->
      link_target resolve baseUrl l = Some r ->
      reachable resolve site baseUrl r.

(** What stays true of the links of a crawl: a URL is marked as visited
    only if the caller passed it in or it was requested; what was requested
    can be come to from the base URL; a fetched page with a text has a
    record; and as long as the array holds fewer than [maxPages] records,
    what a link on a fetched page leads to is marked as visited. *)
Definition links_ok (resolve : jsstring -> jsstring -> jsstring)
    (site : jsstring -> completion Document) (baseUrl : jsstring) (maxPages : Z)
    (visited0 : gset jsstring) (c : Crawl) : Prop :=
  (forall r, r ∈ visited c -> r ∈ visited0 \/ In r (requested c))
  /\ Forall (reachable resolve site baseUrl) (requested c)
  /\ (forall u d, answered c u -> site u = Return d -> extract_text d <> [] ->
                  In u (map page_url (pages c)))
  /\ (Z.of_nat (length (pages c)) < maxPages ->
      forall r, linked_from resolve site baseUrl c r -> r ∈ visited c).

(** A link the callback of [each] is done with without an exception: its
    [href] is empty, or [url.resolve] returns on it. *)
Definition link_passes (resolve : jsstring -> jsstring -> completion jsstring)
    (baseUrl link : jsstring) : Prop :=
  link = [] \/ exists r, resolve baseUrl (before_hash link) = Return r.

(** The URLs a crawl of [baseUrl] can come to when [url.resolve] may
    throw: [baseUrl], and what a link on a page that is served for such a
    URL leads to, if the callback is done without an exception with every
    link before it on that page. *)
Inductive reachable_each (resolve : jsstring -> jsstring -> completion jsstring)
    (site : jsstring -> completion Document) (baseUrl : jsstring) : jsstring -> Prop :=
  | reachable_each_base : reachable_each resolve site baseUrl baseUrl
  | reachable_each_link (u : jsstring) (d : Document) (before after : list jsstring)
      (l r : jsstring) :
      reachable_each resolve site baseUrl u ->
      site u = Return d ->
      doc_hrefs d = before ++ l :: after ->
      Forall (link_passes resolve baseUrl) before ->
      l <> [] ->
      resolve baseUrl (before_hash l) = Return r ->
      startsWith r baseUrl = true ->
      reachable_each resolve site baseUrl r.

(** The links of a page the loop of [each] gets to. *)
Fixpoint links_reached (resolve : jsstring -> jsstring -> completion jsstring)
    (baseUrl : jsstring) (links : list jsstring) : list jsstring :=
  match links with
  | [] => []
  | link :: rest =>
      if negb (truthy link) then link :: links_reached resolve baseUrl rest
      else
        match resolve baseUrl (before_hash link) with
        | Throw _ => []
        | Return _ => link :: links_reached resolve baseUrl rest
        end
  end.

(** What [resolve] returned, for the links it returns on. *)
Definition returned (resolve : jsstring -> jsstring -> completion jsstring)
    (from to : jsstring) : jsstring :=
  match resolve from to with
  | Return r => r
  | Throw _ => []
  end.

(** The site with, on every page, the links the loop of [each] gets to. *)
Definition site_reached (resolve : jsstring -> jsstring -> completion jsstring)
    (baseUrl : jsstring) (site : jsstring -> completion Document) (url : jsstring)
    : completion Document :=
  match site url with
  | Throw e => Throw e
  | Return d =>
      Return {| doc_title := doc_title d;
                doc_headings := doc_headings d;
                doc_body := doc_body d;
                doc_hrefs := links_reached resolve baseUrl (doc_hrefs d) |}
  end.

(** White space comes in single spaces: every white-space code unit of [s]
    is a space, and none follows another ([after_space]: the code unit
    before [s] was white space). *)
Fixpoint single_spaced (after_space : bool) (s : jsstring) : bool :=
  match s with
  | [] => true
  | c :: s' =>
      if is_whitespace c
      then (c =? 32)%N && negb after_space && single_spaced true s'
      else single_spaced false s'
  end.

(** The code units of [s] that are not white space. *)
Definition visible (s : jsstring) : jsstring :=
  List.filter (fun c => negb (is_whitespace c)) s.

(** The chunks of the texts of pages, page after page. *)
Definition page_chunks (ps : list PageRecord) : list jsstring :=
  concat (map (fun p => windows (page_text p) 1500 300) ps).

(** ** Sample inputs *)

(** A site of three pages: the base page links to [/b] and [/c], [/b] links
    back to the base page. *)
Definition site_A : jsstring := of_string "http://s/".
Definition site_B : jsstring := of_string "http://s/b".
Definition site_C : jsstring := of_string "http://s/c".

Definition three_pages (url : jsstring) : completion Document :=
  if bool_decide (url = site_A)
  then Return {| doc_title := of_string "A"; doc_headings := []; doc_body := [];
                 doc_hrefs := [site_B; site_C] |}
  else if bool_decide (url = site_B)
  then Return {| doc_title := of_string "B"; doc_headings := []; doc_body := [];
                 doc_hrefs := [site_A] |}
  else if bool_decide (url = site_C)
  then Return {| doc_title := of_string "C"; doc_headings := []; doc_body := [];
                 doc_hrefs := [] |}
  else Throw (of_string "Request failed with status code 404").

(** A crawl of [http://s/docs/] that has reached a page one directory
    below. *)
Definition docs_base : jsstring := of_string "http://s/docs/".
Definition docs_page : jsstring := of_string "http://s/docs/sub/p.html".

(** [url.resolve] on the arguments the examples pass: an absolute URL
    resolves to itself; [../x.html] leaves the directory of the URL it is
    resolved against, [http://s/docs/] for the one, [http://s/docs/sub/] for
    the other. *)
Definition resolve_sample (from to : jsstring) : jsstring :=
  if startsWith to (of_string "http://") then to
  else if bool_decide (to = of_string "../x.html")
  then (if bool_decide (from = docs_base) then of_string "http://s/x.html"
        else if bool_decide (from = docs_page) then of_string "http://s/docs/x.html"
        else to)
  else to.

(** An [href] that [url.resolve] throws on, and the base page of the site
    of three pages with it between its two links. *)
Definition malformed_link : jsstring := of_string "http://%@h/".

Definition resolve_or_throw (from to : jsstring) : completion jsstring :=
  if bool_decide (to = malformed_link) then Throw (of_string "URI malformed")
  else Return (resolve_sample from to).

Definition three_pages_malformed (url : jsstring) : completion Document :=
  if bool_decide (url = site_A)
  then Return {| doc_title := of_string "A"; doc_headings := []; doc_body := [];
                 doc_hrefs := [site_B; malformed_link; site_C] |}
  else three_pages url.

Definition sample_text : jsstring := repeat 65%N 1200.

Definition chunk_of (name : string) (e : list float) : Chunk :=
  {| id := of_string name; text := of_string name; embedding := e |}.

(** Two chunks with orthogonal embeddings. *)
Definition store_two : list Chunk :=
  [chunk_of "first" [1; 0]%float; chunk_of "second" [0; 1]%float].

(** A store whose second chunk has the zero vector as its embedding. *)
Definition store_with_zero_vector : list Chunk :=
  [chunk_of "a" [0; 1]%float; chunk_of "b" [0; 0]%float; chunk_of "c" [1; 0]%float].

Definition empty_server : Server := {| CHUNKS := []; DATA_FILE := None |}.

(** An embedding provider that rejects every request, and one that answers
    every request with the same vector. *)
Definition provider_down : nat -> jsstring -> completion (list float) :=
  fun _ _ => Throw (of_string "429 Too Many Requests").

Definition provider_up : nat -> jsstring -> completion (list float) :=
  fun _ _ => Return [1; 0]%float.

Definition clock_zero : nat -> Z := fun _ => 0.

Definition model_says (answer : string) : jsstring -> completion jsstring :=
  fun _ => Return (of_string answer).

(** Seven chunks whose scores for the query [(1, 0)] are pairwise
    different and none of them NaN. *)
Definition store_seven : list Chunk :=
  [chunk_of "c0" [0; 1]%float; chunk_of "c1" [1; 3]%float; chunk_of "c2" [1; 0]%float;
   chunk_of "c3" [-1; 0]%float; chunk_of "c4" [1; 1]%float; chunk_of "c5" [3; 1]%float;
   chunk_of "c6" [-1; 1]%float].

(** An embedding provider whose answer tells the position of the request. *)
Definition provider_by_position : nat -> jsstring -> completion (list float) :=
  fun i _ =>
    Return (match i with
            | O => [1; 0]%float
            | S O => [0; 1]%float
            | _ => [1; 1]%float
            end).

(** A text of 2500 code units: three chunks of 1500, 1300 and 100 code
    units in server.js. *)
Definition long_text : jsstring := repeat 65%N 2500.

(** A server that holds two chunks, stored and persisted. *)
Definition server_two : Server := {| CHUNKS := store_two; DATA_FILE := Some store_two |}.

(** A page whose title is one space and which has nothing else. *)
Definition blank_title_page : Document :=
  {| doc_title := [32%N]; doc_headings := []; doc_body := []; doc_hrefs := [] |}.

(** Two chunks whose scores for the query [(1, 0)] are 1 and 0. *)
Definition scored_two : list Scored := map (scored [1; 0]%float) store_two.

(** ** Proof steps for comparisons of keys *)

Ltac decide_compare :=
  f_equal; symmetry;
  first [apply Z.compare_eq_iff | apply Z.compare_lt_iff | apply Z.compare_gt_iff];
  lia.

Ltac decide_ltb :=
  symmetry; first [apply Z.ltb_lt; lia | apply Z.ltb_ge; lia].

(** * Properties *)

(** ** Chunker *)

Section ChunkerFacts.
Context {U : Type}.
Implicit Types (t : list U) (size overlap stride i : Z).

Lemma slice_window t i size :
  0 <= i -> 0 <= size ->
  slice t i (i + size) = firstn (Z.to_nat size) (skipn (Z.to_nat i) t).
Proof.
  intros Hi Hs. unfold slice.
  destruct (Z.ltb_spec i 0) as [?|_]; [lia|].
  destruct (Z.ltb_spec (i + size) 0) as [?|_]; [lia|].
  destruct (Z_le_gt_dec i (Z.of_nat (length t))) as [Hle|Hgt].
  - rewrite (Z.min_l i) by lia.
    destruct (Z_le_gt_dec (i + size) (Z.of_nat (length t))) as [Hle'|Hgt'].
    + rewrite Z.min_l by lia. f_equal. lia.
    + rewrite Z.min_r by lia.
      rewrite !firstn_all2; trivial; rewrite length_skipn; lia.
  - rewrite (Z.min_r i) by lia.
    rewrite !skipn_all2 by lia. now rewrite !firstn_nil.
Qed.

Lemma window_count_step len stride i :
  0 < stride -> i < len ->
  window_count (len - i) stride = S (window_count (len - (i + stride)) stride).
Proof.
  intros Hd Hi. unfold window_count.
  replace (len - i + stride - 1) with ((len - (i + stride) + stride - 1) + 1 * stride) by ring.
  rewrite Z.div_add by lia.
  rewrite Z2Nat.inj_add; try lia.
  apply Z.div_pos; lia.
Qed.

Lemma window_count_done len stride i :
  0 < stride -> len <= i -> window_count (len - i) stride = 0%nat.
Proof.
  intros Hd Hi. unfold window_count.
  assert ((len - i + stride - 1) / stride <= 0); [|lia].
  apply Z.lt_succ_r. apply Z.div_lt_upper_bound; lia.
Qed.

(** The loop entered at [i] with enough fuel pushes the windows at
    [i], [i + stride], ... and exits. *)
Lemma chunkText_loop_windows t size overlap :
  0 < size - overlap ->
  forall fuel i chunks,
    0 <= i ->
    (window_count (Z.of_nat (length t) - i) (size - overlap) < fuel)%nat ->
    chunkText_loop fuel t size overlap i chunks =
    Some (chunks ++
          map (fun j => slice t (i + Z.of_nat j * (size - overlap))
                                (i + Z.of_nat j * (size - overlap) + size))
              (seq 0 (window_count (Z.of_nat (length t) - i) (size - overlap)))).
Proof.
  intros Hd. induction fuel as [|fuel IH]; intros i chunks Hi Hfuel; [lia|].
  simpl. destruct (Z.ltb_spec i (Z.of_nat (length t))) as [Hlt|Hge].
  - rewrite (window_count_step _ _ i) in * by lia.
    rewrite IH by lia. f_equal. rewrite <- app_assoc. f_equal.
    cbn [seq map app]. f_equal.
    + f_equal; lia.
    + rewrite <- seq_shift, map_map. apply map_ext. intros j.
      f_equal; lia.
  - rewrite window_count_done by lia. simpl. now rewrite app_nil_r.
Qed.

Lemma chunkText_run_windows t size overlap fuel :
  0 < size - overlap ->
  (window_count (Z.of_nat (length t)) (size - overlap) < fuel)%nat ->
  chunkText_run fuel t size overlap = Some (windows t size overlap).
Proof.
  intros Hd Hfuel. unfold chunkText_run.
  rewrite chunkText_loop_windows; trivial; try lia.
  - rewrite Z.sub_0_r. simpl. reflexivity.
  - now rewrite Z.sub_0_r.
Qed.

Lemma window_count_le_length len stride :
  0 < stride -> 0 <= len -> (window_count len stride <= Z.to_nat len)%nat.
Proof.
  intros Hd Hl. unfold window_count. apply Z2Nat.inj_le; try lia.
  - apply Z.div_pos; lia.
  - apply Z.lt_succ_r. apply Z.div_lt_upper_bound; nia.
Qed.

(** The fuel [chunkText] gives the loop is enough for a positive stride. *)
Lemma chunkText_run_enough t size overlap :
  0 < size - overlap ->
  chunkText t size overlap = Some (windows t size overlap).
Proof.
  intros Hd. apply chunkText_run_windows; trivial.
  pose proof (window_count_le_length (Z.of_nat (length t)) (size - overlap) Hd).
  lia.
Qed.

Lemma window_count_lt len stride (k : nat) :
  0 < stride -> 0 <= len ->
  (k < window_count len stride)%nat <-> Z.of_nat k * stride < len.
Proof.
  intros Hd Hl. unfold window_count.
  assert (Hq : 0 <= (len + stride - 1) / stride) by (apply Z.div_pos; lia).
  rewrite Nat2Z.inj_lt, Z2Nat.id by lia. split; intros H.
  - assert (Z.of_nat k + 1 <= (len + stride - 1) / stride) as H' by lia.
    pose proof (Z.mul_div_le (len + stride - 1) stride Hd). nia.
  - apply Z.div_le_lower_bound with (a := len + stride - 1) (q := Z.of_nat k + 1) in Hd as H'; lia.
Qed.
End ChunkerFacts.

Section ChunkerClaims.
Context {U : Type}.
Implicit Types (t : list U) (size overlap : Z).

Lemma windows_length t size overlap :
  length (windows t size overlap)
  = window_count (Z.of_nat (length t)) (size - overlap).
Proof. unfold windows. now rewrite length_map, length_seq. Qed.

Lemma windows_nth_error t size overlap (k : nat) :
  (k < window_count (Z.of_nat (length t)) (size - overlap))%nat ->
  nth_error (windows t size overlap) k = Some (window t size overlap k).
Proof.
  intros Hk. unfold windows.
  rewrite nth_error_map, (nth_error_nth' _ 0%nat) by now rewrite length_seq.
  now rewrite seq_nth.
Qed.

Lemma window_substring t size overlap (k : nat) :
  0 <= overlap < size ->
  window t size overlap k
  = firstn (Z.to_nat size) (skipn (Z.to_nat (Z.of_nat k * (size - overlap))) t).
Proof. intros H. unfold window. apply slice_window; nia. Qed.

(** With a stride that is not positive the index never reaches the
    length of a non-empty text: no amount of fuel ends the loop. *)
Lemma chunkText_loop_diverges t size overlap :
  size - overlap <= 0 ->
  forall fuel i chunks,
    i < Z.of_nat (length t) ->
    chunkText_loop fuel t size overlap i chunks = None.
Proof.
  intros Hd. induction fuel as [|fuel IH]; intros i chunks Hi; [reflexivity|].
  simpl. destruct (Z.ltb_spec i (Z.of_nat (length t))); [|lia].
  apply IH. lia.
Qed.

(** C1. For every text, chunk size and overlap with [0 <= overlap < size],
    [chunkText] returns, one chunk for each offset [0, size - overlap,
    2 * (size - overlap), ...] below the length of the text and no other;
    the chunk at an offset is the substring of [size] code units that
    starts there, shorter only where the text ends; the offsets grow by
    [size - overlap > 0]; the last chunk ends at or beyond the end of the
    text; and every code unit of the text is in some chunk, at its place. *)
Theorem chunkText_windows_cover t size overlap :
  0 <= overlap < size ->
  let stride := size - overlap in
  let len := Z.of_nat (length t) in
  exists chunks : list (list U),
    (forall fuel, (length chunks < fuel)%nat ->
                  chunkText_run fuel t size overlap = Some chunks)
    /\ chunkText t size overlap = Some chunks
    /\ 0 < stride
    /\ (forall k : nat, (k < length chunks)%nat <-> Z.of_nat k * stride < len)
    /\ (forall k : nat, (k < length chunks)%nat ->
          exists c,
            nth_error chunks k = Some c
            /\ c = slice t (Z.of_nat k * stride) (Z.of_nat k * stride + size)
            /\ c = firstn (Z.to_nat size) (skipn (Z.to_nat (Z.of_nat k * stride)) t)
            /\ Z.of_nat (length c) = Z.min size (len - Z.of_nat k * stride))
    /\ (forall k : nat, length chunks = S k -> len <= Z.of_nat k * stride + size)
    /\ (forall j : nat, (j < length t)%nat ->
          exists (k : nat) c,
            nth_error chunks k = Some c
            /\ Z.of_nat k * stride <= Z.of_nat j < Z.of_nat k * stride + size
            /\ nth_error c (j - Z.to_nat (Z.of_nat k * stride)) = nth_error t j).
Proof.
  intros H stride len.
  assert (Hd : 0 < stride) by (unfold stride; lia).
  assert (Hlen : 0 <= len) by (unfold len; lia).
  exists (windows t size overlap).
  rewrite windows_length. fold stride len.
  split; [|split; [|split; [|split; [|split; [|split]]]]].
  - intros fuel Hf. now apply chunkText_run_windows.
  - now apply chunkText_run_enough.
  - exact Hd.
  - intros k. now apply window_count_lt.
  - intros k Hk. exists (window t size overlap k).
    pose proof (proj1 (window_count_lt len stride k Hd Hlen) Hk) as Hoff.
    split; [now apply windows_nth_error|].
    split; [reflexivity|].
    rewrite window_substring by trivial. fold stride.
    split; [reflexivity|].
    rewrite length_firstn, length_skipn. fold len. unfold len in *. lia.
  - intros k Hk.
    assert (Hn : ~ (S k < window_count len stride)%nat) by lia.
    rewrite window_count_lt in Hn by trivial. unfold stride in *. lia.
  - intros j Hj.
    set (k := Z.to_nat (Z.of_nat j / stride)).
    assert (Hq : 0 <= Z.of_nat j / stride) by (apply Z.div_pos; lia).
    assert (Hk : Z.of_nat k = Z.of_nat j / stride) by (unfold k; lia).
    pose proof (Z.mul_div_le (Z.of_nat j) stride Hd) as Hlo.
    pose proof (Z.mul_succ_div_gt (Z.of_nat j) stride Hd) as Hhi.
    assert (Hkn : (k < window_count len stride)%nat).
    { apply window_count_lt; trivial. unfold len. nia. }
    exists k, (window t size overlap k).
    split; [now apply windows_nth_error|].
    split; [unfold stride in *; nia|].
    rewrite window_substring by trivial. fold stride.
    rewrite nth_error_firstn, nth_error_skipn.
    destruct (Nat.ltb_spec (j - Z.to_nat (Z.of_nat k * stride)) (Z.to_nat size)) as [_|Hge].
    + f_equal. nia.
    + unfold stride in *. nia.
Qed.

(** C7, as the code has it. [chunkText] comes back exactly when the text
    is empty or the overlap is below the chunk size; for a non-empty text
    and [overlap >= size] the loop never ends, whatever the fuel: the
    function neither rejects nor clamps. *)
Theorem chunkText_returns_iff t size overlap :
  (exists fuel chunks, chunkText_run fuel t size overlap = Some chunks)
  <-> (t = [] \/ overlap < size).
Proof.
  split.
  - intros (fuel & chunks & Hrun).
    destruct t as [|u t]; [now left|right].
    destruct (Z_lt_ge_dec overlap size) as [|Hge]; trivial.
    unfold chunkText_run in Hrun.
    rewrite chunkText_loop_diverges in Hrun; [discriminate|lia|simpl; lia].
  - intros [-> | Hlt].
    + exists 1%nat, []. reflexivity.
    + exists (S (window_count (Z.of_nat (length t)) (size - overlap))), (windows t size overlap).
      apply chunkText_run_windows; lia.
Qed.
End ChunkerClaims.

(** ** Cosine similarity on binary64 *)

Section FloatFacts.
Local Open Scope float_scope.

Lemma SFcompare_refl_not_nan (y : spec_float) :
  y <> S754_nan -> SFcompare y y = Some Eq.
Proof.
  destruct y as [[]|[]| |[] m e]; simpl; try congruence; intros _;
    rewrite Z.compare_refl;
    change (Pos.compare_cont Eq m m) with (Pos.compare m m);
    now rewrite Pos.compare_refl.
Qed.

Lemma is_nan_spec (x : float) : is_nan x = true <-> Prim2SF x = S754_nan.
Proof.
  unfold is_nan. rewrite FloatAxioms.eqb_spec. unfold SFeqb. split.
  - intros Hn. destruct (Prim2SF x) eqn:E; trivial;
      rewrite SFcompare_refl_not_nan in Hn by congruence; discriminate.
  - intros ->. reflexivity.
Qed.

Lemma eqb_zero_spec (x : float) : (x =? 0) = true -> zero_float x.
Proof.
  rewrite FloatAxioms.eqb_spec. unfold zero_float, SFeqb.
  change (Prim2SF 0) with (S754_zero false).
  destruct (Prim2SF x) as [s|[]| |[] m e]; simpl; try discriminate.
  intros _. now exists s.
Qed.

Lemma zero_float_zero : zero_float 0.
Proof. now exists false. Qed.

Lemma nan_zero_or_nan : zero_or_nan nan.
Proof. now right. Qed.

Lemma zero_float_mul x y : zero_float x -> zero_float y -> zero_float (x * y).
Proof.
  intros [s Hx] [s' Hy]. unfold zero_float.
  rewrite mul_spec, Hx, Hy. simpl. eauto.
Qed.

Lemma zero_float_add x y : zero_float x -> zero_float y -> zero_float (x + y).
Proof.
  intros [s Hx] [s' Hy]. unfold zero_float.
  rewrite add_spec, Hx, Hy. destruct s, s'; simpl; eauto.
Qed.

Lemma zero_float_sqrt x : zero_float x -> zero_float (sqrt x).
Proof.
  intros [s Hx]. unfold zero_float. rewrite sqrt_spec, Hx. simpl. eauto.
Qed.

Lemma zero_or_nan_mul_l x y : zero_or_nan x -> zero_or_nan (x * y).
Proof.
  intros [[s Hx]|Hx]; unfold zero_or_nan, zero_float;
    rewrite mul_spec, Hx; destruct (Prim2SF y); simpl; eauto.
Qed.

Lemma zero_or_nan_mul_r x y : zero_or_nan y -> zero_or_nan (x * y).
Proof.
  intros [[s Hy]|Hy]; unfold zero_or_nan, zero_float;
    rewrite mul_spec, Hy; destruct (Prim2SF x); simpl; eauto.
Qed.

Lemma zero_or_nan_add x y : zero_or_nan x -> zero_or_nan y -> zero_or_nan (x + y).
Proof.
  intros [[s Hx]|Hx] [[s' Hy]|Hy]; unfold zero_or_nan, zero_float;
    rewrite add_spec, Hx, Hy; try (destruct s); try (destruct s'); simpl; eauto.
Qed.

Lemma zero_or_nan_div x y : zero_or_nan x -> zero_or_nan y -> is_nan (x / y) = true.
Proof.
  intros Hx Hy. apply is_nan_spec. rewrite div_spec.
  destruct Hx as [[s Hx]|Hx], Hy as [[s' Hy]|Hy]; rewrite Hx, Hy; reflexivity.
Qed.
End FloatFacts.

Section CosineFloat.
Local Open Scope float_scope.

Lemma reduce_from_invariant {A B : Type} (P : B -> Prop) (Q : A -> Prop)
    (f : B -> A -> nat -> B) :
  (forall acc x i, P acc -> Q x -> P (f acc x i)) ->
  forall l i acc, Forall Q l -> P acc -> P (reduce_from f l i acc).
Proof.
  intros Hf. induction l as [|x l IH]; intros i acc Hl Hacc; simpl; trivial.
  inversion Hl; subst. apply IH; auto.
Qed.

Lemma all_zero_Forall v : all_zero v = true -> Forall zero_float v.
Proof.
  unfold all_zero. rewrite forallb_forall, List.Forall_forall.
  intros Hv x Hx. apply eqb_zero_spec. now apply Hv.
Qed.

Lemma sum_squares_zero v : all_zero v = true -> zero_float (sum_squares v).
Proof.
  intros Hv. unfold sum_squares, reduce.
  apply (reduce_from_invariant zero_float zero_float).
  - intros acc x _ Hacc Hx. simpl. apply zero_float_add; trivial.
    now apply zero_float_mul.
  - now apply all_zero_Forall.
  - apply zero_float_zero.
Qed.

Lemma element_zero_or_nan v i : all_zero v = true -> zero_or_nan (element v i).
Proof.
  intros Hv. unfold element.
  destruct (nth_in_or_default i v num_undefined) as [Hin | ->].
  - left. apply all_zero_Forall in Hv. rewrite List.Forall_forall in Hv. now apply Hv.
  - apply nan_zero_or_nan.
Qed.

Lemma dot_product_zero_l a b : all_zero a = true -> zero_or_nan (dot_product a b).
Proof.
  intros Ha. unfold dot_product, reduce.
  apply (reduce_from_invariant zero_or_nan zero_float).
  - intros acc x i Hacc Hx. simpl. apply zero_or_nan_add; trivial.
    apply zero_or_nan_mul_l. now left.
  - now apply all_zero_Forall.
  - left. apply zero_float_zero.
Qed.

Lemma dot_product_zero_r a b : all_zero b = true -> zero_or_nan (dot_product a b).
Proof.
  intros Hb. unfold dot_product, reduce.
  apply (reduce_from_invariant zero_or_nan (fun _ => True)).
  - intros acc x i Hacc _. simpl. apply zero_or_nan_add; trivial.
    apply zero_or_nan_mul_r. now apply element_zero_or_nan.
  - now apply List.Forall_forall.
  - left. apply zero_float_zero.
Qed.

(** C6, as the code has it. When either vector is all-zero the result of
    [cosineSimilarity] is NaN, for every other vector (of any dimension
    and with any components): the function has no branch that returns 0
    or rejects its arguments. *)
Theorem cosineSimilarity_zero_vector_nan (a b : list float) :
  all_zero a = true \/ all_zero b = true ->
  is_nan (cosineSimilarity a b) = true.
Proof.
  intros Hz. unfold cosineSimilarity. simpl.
  apply zero_or_nan_div.
  - destruct Hz; [now apply dot_product_zero_l | now apply dot_product_zero_r].
  - destruct Hz as [Ha|Hb].
    + apply zero_or_nan_mul_l. left. now apply zero_float_sqrt, sum_squares_zero.
    + apply zero_or_nan_mul_r. left. now apply zero_float_sqrt, sum_squares_zero.
Qed.
End CosineFloat.

(** ** Cosine similarity of a vector with itself, on binary64 *)

Section CosineSelf.
Local Open Scope float_scope.












End CosineSelf.

(** ** Crawler *)

Section CrawlerFacts.
Variable resolve : jsstring -> jsstring -> jsstring.
Variable site : jsstring -> completion Document.
Variable baseUrl : jsstring.
Variable maxPages : Z.

Lemma startsWith_refl (s : jsstring) : startsWith s s = true.
Proof. induction s as [|c s IH]; simpl; trivial. now rewrite N.eqb_refl. Qed.

Lemma crawl_enter_ok (url : jsstring) (c : Crawl) :
  startsWith url baseUrl = true ->
  requests_ok baseUrl c -> requests_ok baseUrl (crawl_enter maxPages url c).
Proof.
  intros Hscope (Hnd & Hvis & Hsc). unfold crawl_enter.
  destruct (bool_decide (url ∈ visited c)) eqn:Hin; simpl; [now repeat split|].
  destruct (maxPages <=? Z.of_nat (length (pages c))); [now repeat split|].
  apply bool_decide_eq_false in Hin.
  repeat split; simpl.
  - apply NoDup_app. repeat split; trivial.
    + intros u Hu ->%list_elem_of_singleton.
      apply Hin, Hvis. now apply list_elem_of_In.
    + apply NoDup_singleton.
  - intros u [Hu| [<-|[]]]%in_app_or; [|set_solver].
    apply Hvis in Hu. set_solver.
  - apply Forall_app. split; trivial. now constructor.
Qed.

Lemma follow_link_ok (c : Crawl) (link : jsstring) :
  requests_ok baseUrl c -> requests_ok baseUrl (follow_link resolve baseUrl maxPages c link).
Proof.
  intros Hc. unfold follow_link, link_target.
  destruct (negb (truthy link)); trivial.
  destruct (startsWith _ baseUrl) eqn:Hs; trivial.
  now apply crawl_enter_ok.
Qed.

Lemma follow_links_ok (links : list jsstring) (c : Crawl) :
  requests_ok baseUrl c ->
  requests_ok baseUrl (fold_left (follow_link resolve baseUrl maxPages) links c).
Proof.
  revert c. induction links as [|l links IH]; intros c Hc; simpl; trivial.
  apply IH. now apply follow_link_ok.
Qed.

Lemma crawl_resume_ok (url : jsstring) (c : Crawl) :
  requests_ok baseUrl c -> requests_ok baseUrl (crawl_resume resolve site baseUrl maxPages url c).
Proof.
  intros Hc. unfold crawl_resume. destruct (site url) as [d|e]; trivial.
  apply follow_links_ok. destruct (truthy (extract_text d)); trivial.
Qed.

Lemma answer_ok (k : nat) (c c' : Crawl) :
  answer resolve site baseUrl maxPages k c = Some c' ->
  requests_ok baseUrl c -> requests_ok baseUrl c'.
Proof.
  unfold answer. destruct (nth_error (inflight c) k) as [u|]; [|discriminate].
  intros [= <-] Hc. now apply crawl_resume_ok.
Qed.

Lemma run_ok (schedule : list nat) (c c' : Crawl) :
  run resolve site baseUrl maxPages schedule c = Some c' ->
  requests_ok baseUrl c -> requests_ok baseUrl c'.
Proof.
  revert c. induction schedule as [|k rest IH]; intros c; simpl.
  - now intros [= <-].
  - destruct (answer _ _ _ _ k c) as [c1|] eqn:Ha; [|discriminate].
    intros Hrun Hc. eapply IH; eauto using answer_ok.
Qed.

Lemma crawl_start_ok (visited0 : gset jsstring) :
  requests_ok baseUrl (crawl_start baseUrl maxPages visited0).
Proof.
  apply crawl_enter_ok; [apply startsWith_refl|].
  repeat split; simpl; [constructor|intros ? []|constructor].
Qed.

Lemma crawlWebsite_ok (visited0 : gset jsstring) :
  requests_ok baseUrl (crawlWebsite resolve site baseUrl maxPages visited0).
Proof.
  unfold crawlWebsite.
  destruct (answer _ _ _ _ 0%nat _) as [c|] eqn:Ha.
  - eapply answer_ok; eauto using crawl_start_ok.
  - apply crawl_start_ok.
Qed.

Lemma crawl_later_ok (visited0 : gset jsstring) (schedule : list nat) (c : Crawl) :
  crawl_later resolve site baseUrl maxPages visited0 schedule = Some c ->
  requests_ok baseUrl c.
Proof. intros Hrun. eapply run_ok; eauto using crawlWebsite_ok. Qed.

Lemma crawl_enter_pages (url : jsstring) (c : Crawl) :
  pages (crawl_enter maxPages url c) = pages c.
Proof.
  unfold crawl_enter.
  now destruct (bool_decide (url ∈ visited c) || (maxPages <=? Z.of_nat (length (pages c)))).
Qed.

Lemma follow_links_pages (links : list jsstring) (c : Crawl) :
  pages (fold_left (follow_link resolve baseUrl maxPages) links c) = pages c.
Proof.
  revert c. induction links as [|l links IH]; intros c; simpl; trivial.
  rewrite IH. unfold follow_link.
  destruct (link_target resolve baseUrl l); trivial. apply crawl_enter_pages.
Qed.

(** When [crawlWebsite] returns, its array holds the record of the base
    page or nothing. *)
Lemma crawlWebsite_pages (visited0 : gset jsstring) :
  (length (pages (crawlWebsite resolve site baseUrl maxPages visited0)) <= 1)%nat
  /\ (0 <= maxPages ->
      Z.of_nat (length (pages (crawlWebsite resolve site baseUrl maxPages visited0)))
      <= maxPages).
Proof.
  unfold crawlWebsite, crawl_start, crawl_enter. simpl pages. simpl length.
  destruct (bool_decide (baseUrl ∈ visited0) || (maxPages <=? Z.of_nat 0)) eqn:Hguard.
  - unfold answer. simpl. split; lia.
  - apply orb_false_elim in Hguard as [_ Hlt%Z.leb_gt].
    unfold answer. simpl. unfold crawl_resume.
    destruct (site baseUrl) as [d|e]; [|simpl; split; lia].
    rewrite follow_links_pages.
    destruct (truthy (extract_text d)); simpl; split; lia.
Qed.

Lemma link_target_spec (link r : jsstring) :
  link_target resolve baseUrl link = Some r
  <-> link <> [] /\ r = resolve baseUrl (before_hash link)
      /\ startsWith r baseUrl = true.
Proof.
  unfold link_target. destruct link as [|ch link]; simpl.
  - split; [discriminate|]. now intros [[] _].
  - destruct (startsWith _ baseUrl) eqn:Hs; split.
    + intros [= <-]. now repeat split.
    + now intros (_ & -> & _).
    + discriminate.
    + intros (_ & -> & Hr). congruence.
Qed.
End CrawlerFacts.

(** C4. In every state a crawl can reach, whatever the site, the resolver,
    the bound and the order in which the answers arrive, no URL has been
    requested twice and every requested URL starts with [baseUrl].  The
    bound holds of the array at the moment [crawlWebsite] returns it, when
    it has at most one record, and not of the array afterwards: on the
    three-page site with [maxPages = 2], [crawlWebsite] returns its array
    holding the base page alone while the requests for [/b] and [/c] are in
    flight, each made when the array held one record; their answers push
    two more records to that array, which ends with three. *)
Theorem crawl_requests_and_bound :
  (forall resolve site baseUrl maxPages visited0 schedule c,
      crawl_later resolve site baseUrl maxPages visited0 schedule = Some c ->
      NoDup (requested c)
      /\ Forall (fun u => startsWith u baseUrl = true) (requested c))
  /\ (forall resolve site baseUrl maxPages visited0,
        (length (pages (crawlWebsite resolve site baseUrl maxPages visited0)) <= 1)%nat)
  /\ map page_url (pages (crawlWebsite resolve_sample three_pages site_A 2 ∅)) = [site_A]
  /\ exists c,
       crawl_later resolve_sample three_pages site_A 2 ∅ [0; 0]%nat = Some c
       /\ inflight c = []
       /\ requested c = [site_A; site_B; site_C]
       /\ map page_url (pages c) = [site_A; site_B; site_C].
Proof.
  split; [|split; [|split]].
  - intros resolve site baseUrl maxPages visited0 schedule c Hrun.
    apply crawl_later_ok in Hrun as (Hnd & _ & Hscope). now split.
  - intros. apply crawlWebsite_pages.
  - vm_compute. reflexivity.
  - eexists. split; [vm_compute; reflexivity|]. repeat split.
Qed.

(** C5. A link is passed to [crawl] exactly when its [href] is not empty
    and the URL obtained by stripping the fragment and resolving against
    [baseUrl] starts with [baseUrl]; the page the link stands on plays no
    part.  On the page [/docs/sub/p.html] of a crawl of [http://s/docs/] the
    link [../x.html] is resolved to [http://s/x.html] and dropped, where
    resolving it against the page gives [http://s/docs/x.html], in scope. *)
Theorem link_target_resolves_against_base :
  (forall resolve baseUrl link r,
      link_target resolve baseUrl link = Some r
      <-> link <> [] /\ r = resolve baseUrl (before_hash link)
          /\ startsWith r baseUrl = true)
  /\ link_target resolve_sample docs_base (of_string "../x.html") = None
  /\ link_target_on_page resolve_sample docs_base docs_page (of_string "../x.html")
     = Some (of_string "http://s/docs/x.html").
Proof.
  split; [|split].
  - intros. apply link_target_spec.
  - vm_compute. reflexivity.
  - vm_compute. reflexivity.
Qed.

(** With [maxPages = 10] the three pages are requested once each, whatever
    the cycle of links (scenario 4 of the specification). *)
Example crawl_three_pages_once :
  option_map requested (crawl_later resolve_sample three_pages site_A 10 ∅ [1; 0]%nat)
  = Some [site_A; site_B; site_C].
Proof. vm_compute. reflexivity. Qed.

(** ** Embedding client and ingestion *)

Section IngestionFacts.
Variable embeddings_create : nat -> jsstring -> completion (list float).
Variable Date_now : nat -> Z.

Lemma Promise_all_app {A : Type} (l1 l2 : list (completion A)) :
  Promise_all (l1 ++ l2)
  = match Promise_all l1 with
    | Throw e => Throw e
    | Return r1 =>
        match Promise_all l2 with
        | Throw e => Throw e
        | Return r2 => Return (r1 ++ r2)
        end
    end.
Proof.
  induction l1 as [|[a|e] l1 IH]; simpl.
  - now destruct (Promise_all l2).
  - rewrite IH. destruct (Promise_all l1); trivial. now destruct (Promise_all l2).
  - reflexivity.
Qed.

Lemma map_index_from_app {A B : Type} (f : A -> nat -> B) (l1 l2 : list A) (i : nat) :
  map_index_from f (l1 ++ l2) i
  = map_index_from f l1 i ++ map_index_from f l2 (i + length l1).
Proof.
  revert i. induction l1 as [|x l1 IH]; intros i; simpl.
  - now rewrite Nat.add_0_r.
  - rewrite IH. do 3 f_equal. lia.
Qed.

Lemma map_index_from_shift {A B : Type} (f : A -> nat -> B) (l : list A) (i k : nat) :
  map_index_from (fun x j => f x (i + j)%nat) l k = map_index_from f l (i + k).
Proof.
  revert k. induction l as [|x l IH]; intros k; simpl; trivial.
  rewrite IH. do 2 f_equal. lia.
Qed.

Lemma map_index_from_length {A B : Type} (f : A -> nat -> B) (l : list A) (i : nat) :
  length (map_index_from f l i) = length l.
Proof. revert i. induction l; intros i; simpl; auto. Qed.

Lemma Promise_all_length {A : Type} (l : list (completion A)) (r : list A) :
  Promise_all l = Return r -> length r = length l.
Proof.
  revert r. induction l as [|[a|e] l IH]; simpl; intros r.
  - now intros [= <-].
  - destruct (Promise_all l) as [r'|]; [|discriminate]. intros [= <-]. simpl.
    now rewrite (IH r').
  - discriminate.
Qed.

(** The loop of [embedTextsBatch], entered at an index [i] with enough
    fuel, completes as the requests for the remaining texts do, taken in
    order: a sub-batch only groups them. *)
Lemma embedTextsBatch_loop_sequential (texts : list jsstring) (batchSize : Z) :
  0 < batchSize ->
  forall fuel (i : Z) embeddings,
    0 <= i ->
    (length texts - Z.to_nat i < fuel)%nat ->
    embedTextsBatch_loop embeddings_create fuel texts batchSize i embeddings
    = Some (and_then embeddings
              (Promise_all (requests_from embeddings_create (skipn (Z.to_nat i) texts) (Z.to_nat i)))).
Proof.
  intros Hb. induction fuel as [|fuel IH]; intros i embeddings Hi Hfuel; [lia|].
  simpl. destruct (Z.ltb_spec i (Z.of_nat (length texts))) as [Hlt|Hge].
  - rewrite slice_window by lia.
    set (n := Z.to_nat batchSize). set (k := Z.to_nat i).
    set (rest := skipn k texts).
    assert (Hrest : length rest = (length texts - k)%nat)
      by (unfold rest; now rewrite length_skipn).
    rewrite <- (firstn_skipn n rest) at 2.
    unfold requests_from. rewrite map_index_from_app, Promise_all_app.
    unfold map_index.
    rewrite (map_index_from_shift (fun t j => embeddings_create j t)), Nat.add_0_r.
    destruct (Promise_all (map_index_from _ (firstn n rest) k)) as [res|e] eqn:Hres;
      [|reflexivity].
    rewrite IH by lia.
    replace (skipn (Z.to_nat (i + batchSize)) texts) with (skipn n rest)
      by (unfold rest; rewrite skipn_skipn; f_equal; lia).
    f_equal. unfold requests_from.
    destruct (le_lt_dec n (length rest)) as [Hn|Hn].
    + rewrite length_firstn, Nat.min_l by trivial.
      replace (Z.to_nat (i + batchSize)) with (k + n)%nat by lia.
      destruct (Promise_all (map_index_from _ (skipn n rest) (k + n))); simpl; trivial.
      now rewrite app_assoc.
    + rewrite (skipn_all2 (n := n)) by lia. simpl. now rewrite app_assoc.
  - rewrite skipn_all2 by lia. simpl. now rewrite app_nil_r.
Qed.

(** [embedTextsBatch] with a positive batch size completes as the
    sequential [embedTexts] does. *)
Lemma embedTextsBatch_sequential (texts : list jsstring) (batchSize : Z) :
  0 < batchSize ->
  embedTextsBatch embeddings_create texts batchSize
  = embedTexts embeddings_create texts.
Proof.
  intros Hb. unfold embedTextsBatch, embedTexts.
  rewrite embedTextsBatch_loop_sequential by (simpl; lia).
  simpl. change (skipn 0 texts) with texts. unfold requests_from, map_index.
  now destruct (Promise_all _).
Qed.

Lemma Promise_all_throws {A : Type} (l : list (completion A)) (i : nat) (e : error) :
  nth_error l i = Some (Throw e) -> exists e', Promise_all l = Throw e'.
Proof.
  revert i. induction l as [|[a|e0] l IH]; intros [|i]; simpl; try discriminate; eauto.
  intros Hi. destruct (IH _ Hi) as [e' ->]. eauto.
Qed.

Lemma map_index_from_nth_error {A B : Type} (f : A -> nat -> B) (l : list A) (k i : nat) :
  nth_error (map_index_from f l k) i = option_map (fun x => f x (k + i)%nat) (nth_error l i).
Proof.
  revert k i. induction l as [|x l IH]; intros k [|i]; simpl; trivial.
  - now rewrite Nat.add_0_r.
  - rewrite IH. destruct (nth_error l i); simpl; trivial. f_equal. f_equal. lia.
Qed.

Lemma embedTexts_fails (chunks : list jsstring) :
  embedding_fails embeddings_create chunks ->
  exists e, embedTexts embeddings_create chunks = Some (Throw e).
Proof.
  intros (i & chunk & e & Hi & He). unfold embedTexts, map_index.
  destruct (Promise_all_throws
              (map_index_from (fun t j => embeddings_create j t) chunks 0) i e) as [e' ->].
  - rewrite map_index_from_nth_error, Hi. simpl. now rewrite He.
  - eauto.
Qed.

Lemma processText_with_throws chunker embedder text source chunks e (s : Server) :
  chunker text = Some chunks ->
  embedder chunks = Some (Throw e) ->
  processText_with Date_now chunker embedder text source s = Some (Throw e, s).
Proof.
  intros Hc He. unfold processText_with, bind, await.
  rewrite Hc. simpl. now rewrite He.
Qed.

(** The other branch, for comparison: when every request is answered,
    [processText] appends one chunk per window, persists the whole store and
    returns the number of chunks. *)
Lemma processText_stores (rev : revision) (text source : jsstring) (s : Server)
    (embeddings : list (list float)) :
  Promise_all (requests_from embeddings_create (chunks_of rev text) 0) = Return embeddings ->
  let processed :=
    map_index (fun chunk i =>
                 {| id := chunk_id Date_now source i;
                    text := chunk;
                    embedding := nth i embeddings [] |}) (chunks_of rev text) in
  processText_of rev embeddings_create Date_now text source s
  = Some (Return (Z.of_nat (length (chunks_of rev text))),
          {| CHUNKS := CHUNKS s ++ processed;
             DATA_FILE := Some (CHUNKS s ++ processed) |})
  /\ length embeddings = length (chunks_of rev text).
Proof.
  intros Hall processed. split.
  - destruct rev; simpl in *; unfold processText, processText_earlier, processText_with.
    + unfold bind at 1. unfold await at 1.
      rewrite chunkText_run_enough by lia. simpl option_map. cbv iota beta.
      unfold bind at 1. unfold await at 1.
      rewrite embedTextsBatch_sequential by lia. unfold embedTexts, map_index.
      unfold requests_from in Hall. rewrite Hall. cbv iota beta.
      unfold bind, push_chunks, saveChunks, ret. simpl CHUNKS. simpl DATA_FILE.
      rewrite map_index_from_length. reflexivity.
    + unfold bind at 1. unfold await at 1.
      rewrite chunkText_run_enough by lia. simpl option_map. cbv iota beta.
      unfold bind at 1. unfold await at 1.
      unfold embedTexts, map_index.
      unfold requests_from in Hall. rewrite Hall. cbv iota beta.
      unfold bind, push_chunks, saveChunks, ret. simpl CHUNKS. simpl DATA_FILE.
      rewrite map_index_from_length. reflexivity.
  - apply Promise_all_length in Hall. rewrite Hall. apply map_index_from_length.
Qed.

(** C3. For every text, source and state of the server, in either
    revision: when a request of the embedding step is rejected,
    [processText] throws, and the state it leaves is the state it was
    called in; the chunk store and the persisted snapshot are the same. *)
Theorem processText_embedding_failure (rev : revision) (text source : jsstring) (s : Server) :
  embedding_fails embeddings_create (chunks_of rev text) ->
  exists e,
    processText_of rev embeddings_create Date_now text source s = Some (Throw e, s).
Proof.
  intros Hfail. destruct (embedTexts_fails _ Hfail) as [e He]. exists e.
  destruct rev; simpl in *.
  - apply processText_with_throws with (chunks := windows text 1500 300).
    + apply chunkText_run_enough. lia.
    + now rewrite embedTextsBatch_sequential by lia.
  - apply processText_with_throws with (chunks := windows text 500 100).
    + apply chunkText_run_enough. lia.
    + exact He.
Qed.
End IngestionFacts.

(** ** Validation of blank text in the upload handlers *)

Section BlankText.
Lemma trimStart_blank (s : jsstring) :
  trimStart s = [] <-> forallb is_whitespace s = true.
Proof.
  induction s as [|c s IH]; simpl; [easy|].
  destruct (is_whitespace c); simpl; [exact IH|easy].
Qed.

Lemma trimStart_head (s r : jsstring) (c : code_unit) :
  trimStart s = c :: r -> is_whitespace c = false.
Proof.
  induction s as [|d s IH]; simpl; [discriminate|].
  destruct (is_whitespace d) eqn:Hd; trivial. now intros [= <- _].
Qed.

Lemma trimStart_keeps_last (s : jsstring) (c : code_unit) :
  is_whitespace c = false -> trimStart (s ++ [c]) <> [].
Proof.
  intros Hc. induction s as [|d s IH]; simpl.
  - now rewrite Hc.
  - now destruct (is_whitespace d).
Qed.

(** A text is empty after trimming exactly when it holds white space
    only. *)
Lemma trim_blank (s : jsstring) :
  trim s = [] <-> forallb is_whitespace s = true.
Proof.
  rewrite <- trimStart_blank. unfold trim. split.
  - intros Ht. destruct (trimStart s) as [|c r] eqn:E; trivial.
    apply (f_equal (@rev code_unit)) in Ht. rewrite rev_involutive in Ht.
    simpl in Ht. exfalso.
    apply (trimStart_keeps_last (rev r) c); [eapply trimStart_head; eauto|exact Ht].
  - now intros ->.
Qed.

Lemma collapse_blank (s : jsstring) :
  forallb is_whitespace s = true ->
  collapse_whitespace true s = []
  /\ (collapse_whitespace false s = [] \/ collapse_whitespace false s = [32%N]).
Proof.
  induction s as [|c s IH]; simpl; [auto|].
  destruct (is_whitespace c); simpl; [|discriminate].
  intros Hs. destruct (IH Hs) as [-> _]. auto.
Qed.

Lemma trim_collapse_blank (s : jsstring) :
  trim s = [] -> trim (collapse_whitespace false s) = [].
Proof.
  rewrite trim_blank. intros Hs.
  destruct (collapse_blank s Hs) as [_ [-> | ->]]; reflexivity.
Qed.

(** C8, as the code has it. The check for blank text stands in the
    handlers: for every text that is empty after trimming, [/upload-file]
    and [/upload-website] answer 400 without calling [processText], for
    every extension, URL and state of the server, and leave the state as
    it was. *)
Theorem upload_rejects_blank_text (text : jsstring) :
  trim text = [] ->
  forall (embeddings_create : nat -> jsstring -> completion (list float))
         (Date_now : nat -> Z) (ext url : jsstring) (s : Server),
    upload_file embeddings_create Date_now
      (Some {| upload_ext := ext; upload_extracted := Return text |}) s
    = Some (Return {| status := 400;
                      body := ErrorBody (if supported ext
                                         then of_string "No text extracted"
                                         else of_string "Unsupported file type") |}, s)
    /\ upload_website embeddings_create Date_now url (Return text) s
       = Some (Return {| status := 400;
                         body := ErrorBody (if truthy url
                                            then of_string "No content found on website"
                                            else of_string "No URL provided") |}, s).
Proof.
  intros Hblank create now ext url s. split.
  - unfold upload_file, try_catch. simpl.
    destruct (supported ext); [|reflexivity].
    unfold bind, await, ret. now rewrite Hblank.
  - unfold upload_website, try_catch.
    destruct (truthy url); simpl; [|reflexivity].
    unfold bind, await, ret. now rewrite trim_collapse_blank.
Qed.
End BlankText.

(** ** Lengths of the ranking *)

Section RankingLengths.
Lemma insert_length (x : Scored) (l : list Scored) :
  length (insert x l) = S (length l).
Proof.
  induction l as [|y l IH]; simpl; trivial.
  destruct (0 <? SortCompare x y)%float; simpl; auto.
Qed.

Lemma sort_length (l : list Scored) : length (sort l) = length l.
Proof.
  induction l as [|x l IH]; simpl; trivial. now rewrite insert_length, IH.
Qed.

Lemma slice_prefix {A : Type} (l : list A) (K : Z) :
  0 <= K -> slice l 0 K = firstn (Z.to_nat K) l.
Proof. intros HK. now rewrite <- (Z.add_0_l K), slice_window by lia. Qed.

Lemma rankTop_length (K : Z) (qEmbed : list float) (store : list Chunk) :
  0 <= K ->
  Z.of_nat (length (rankTop K qEmbed store)) = Z.min K (Z.of_nat (length store)).
Proof.
  intros HK. unfold rankTop.
  rewrite slice_prefix, length_firstn, sort_length, length_map by trivial. lia.
Qed.

End RankingLengths.

(** ** The order of binary64 numbers *)

Section Binary64.

Lemma digits2_pos_bounds (m : positive) :
  2 ^ (Zpos (digits2_pos m) - 1) <= Zpos m < 2 ^ Zpos (digits2_pos m).
Proof.
  induction m as [m IH|m IH|]; simpl digits2_pos; [| |simpl; lia];
    rewrite Pos2Z.inj_succ;
    replace (Z.succ (Zpos (digits2_pos m)) - 1)
      with (Z.succ (Zpos (digits2_pos m) - 1)) by lia;
    rewrite !Z.pow_succ_r by lia;
    revert IH;
    generalize (2 ^ (Zpos (digits2_pos m) - 1)) (2 ^ Zpos (digits2_pos m));
    lia.
Qed.

(** What [valid_binary] says of a finite number. *)
Lemma bounded_spec (m : positive) (e : Z) :
  bounded prec emax m e = true ->
  emin <= e <= emax - prec
  /\ Zpos (digits2_pos m) <= prec
  /\ (emin < e -> Zpos (digits2_pos m) = prec).
Proof.
  unfold bounded, canonical_mantissa, SpecFloat.fexp.
  intros [Hc He]%andb_prop. apply Z.eqb_eq in Hc. apply Z.leb_le in He. lia.
Qed.

Lemma pow2_pos (n : Z) : 0 <= n -> 0 < 2 ^ n.
Proof. intros. apply Z.pow_pos_nonneg; lia. Qed.

Lemma pow2_split (a b : Z) : 0 <= a -> 0 <= b -> 2 ^ (a + b) = 2 ^ a * 2 ^ b.
Proof. intros. now apply Z.pow_add_r. Qed.

(** The key of a finite number lies strictly between 0 and the key of
    infinity. *)
Lemma finite_key_bounds (m : positive) (e : Z) :
  bounded prec emax m e = true ->
  0 < Zpos m * 2 ^ (e - emin) < 2 ^ (emax - emin).
Proof.
  intros (He & Hd & _)%bounded_spec.
  pose proof (digits2_pos_bounds m) as [_ Hm].
  assert (Hp : 0 < 2 ^ (e - emin)) by (apply pow2_pos; lia).
  split; [lia|].
  assert (Hm' : Zpos m < 2 ^ prec).
  { eapply Z.lt_le_trans; [exact Hm|]. apply Z.pow_le_mono_r; lia. }
  apply Z.lt_le_trans with (2 ^ prec * 2 ^ (e - emin)); [nia|].
  rewrite <- pow2_split by (unfold prec in *; lia).
  apply Z.pow_le_mono_r; lia.
Qed.

(** Among valid numbers of the same sign the exponent decides first. *)
Lemma finite_compare_key (m1 m2 : positive) (e1 e2 : Z) :
  bounded prec emax m1 e1 = true ->
  bounded prec emax m2 e2 = true ->
  match e1 ?= e2 with
  | Lt => Lt
  | Gt => Gt
  | Eq => Pos.compare_cont Eq m1 m2
  end = (Zpos m1 * 2 ^ (e1 - emin) ?= Zpos m2 * 2 ^ (e2 - emin)).
Proof.
  intros (He1 & Hd1 & Hn1)%bounded_spec (He2 & Hd2 & Hn2)%bounded_spec.
  pose proof (digits2_pos_bounds m1) as [Hlo1 Hhi1].
  pose proof (digits2_pos_bounds m2) as [Hlo2 Hhi2].
  assert (Hstep : forall (ma mb : positive) (ea eb : Z),
             emin <= ea -> ea < eb ->
             Zpos (digits2_pos ma) <= prec -> Zpos (digits2_pos mb) = prec ->
             Zpos ma * 2 ^ (ea - emin) < Zpos mb * 2 ^ (eb - emin)).
  { intros ma mb ea eb Hea Hlt Hda Hdb.
    pose proof (digits2_pos_bounds ma) as [_ Hhia].
    pose proof (digits2_pos_bounds mb) as [Hlob _]. rewrite Hdb in Hlob.
    assert (Hma : Zpos ma < 2 ^ prec).
    { eapply Z.lt_le_trans; [exact Hhia|]. apply Z.pow_le_mono_r; lia. }
    assert (Hpa : 0 < 2 ^ (ea - emin)) by (apply pow2_pos; lia).
    assert (Hpb : 2 * 2 ^ (ea - emin) <= 2 ^ (eb - emin)).
    { rewrite <- Z.pow_succ_r by lia. apply Z.pow_le_mono_r; lia. }
    assert (Hpp : 2 ^ prec = 2 * 2 ^ (prec - 1)).
    { rewrite <- Z.pow_succ_r by (unfold prec; lia). reflexivity. }
    nia. }
  destruct (Z.compare_spec e1 e2) as [->|Hlt|Hgt].
  - change (Pos.compare_cont Eq m1 m2) with (Zpos m1 ?= Zpos m2).
    apply Zmult_compare_compat_r. apply Z.lt_gt, pow2_pos. lia.
  - symmetry. apply Z.compare_lt_iff. apply Hstep; lia.
  - symmetry. apply Z.compare_gt_iff. apply Hstep; lia.
Qed.
Lemma infinity_key_pos : 0 < 2 ^ (emax - emin).
Proof. apply pow2_pos. unfold emax, SpecFloat.emin, prec. lia. Qed.

(** [SFcompare] on valid numbers other than NaN is the comparison of
    their keys. *)
Lemma SFcompare_key (x y : spec_float) :
  valid_binary x = true -> valid_binary y = true ->
  x <> S754_nan -> y <> S754_nan ->
  SFcompare x y = Some (key x ?= key y).
Proof.
  pose proof infinity_key_pos as Hinf.
  destruct x as [sx|sx| |sx mx ex], y as [sy|sy| |sy my ey];
    try congruence; intros Hx Hy _ _;
    cbv [valid_binary SpecFloat.valid_binary] in Hx, Hy;
    try (pose proof (finite_key_bounds _ _ Hx) as Hkx);
    try (pose proof (finite_key_bounds _ _ Hy) as Hky);
    cbv [SFcompare key cond_Zopp];
    try (destruct sx); try (destruct sy); try decide_compare.
  - f_equal. rewrite Z.compare_opp, (Z.compare_antisym (Zpos mx * _)).
    rewrite <- (finite_compare_key mx my ex ey) by trivial.
    now destruct (ex ?= ey).
  - f_equal. now apply finite_compare_key.
Qed.

(** *** Subtraction keeps the sign of the exact difference *)

Lemma shr_1_m (mrs : shr_record) :
  0 <= shr_m mrs -> shr_m (shr_1 mrs) = shr_m mrs / 2.
Proof.
  destruct mrs as [m r s]. simpl shr_m. intros Hm.
  rewrite <- Z.div2_div.
  destruct m as [|[p|p|]|p]; try reflexivity; lia.
Qed.

Lemma iter_shr_1_m (n : positive) (mrs : shr_record) :
  0 <= shr_m mrs ->
  shr_m (SpecFloat.iter_pos shr_1 n mrs) = shr_m mrs / 2 ^ Zpos n.
Proof.
  revert mrs. induction n as [n IH|n IH|]; intros mrs Hm; simpl SpecFloat.iter_pos.
  - assert (H1 : 0 <= shr_m (shr_1 mrs))
      by (rewrite shr_1_m by trivial; apply Z.div_pos; lia).
    assert (H2 : 0 <= shr_m (SpecFloat.iter_pos shr_1 n (shr_1 mrs)))
      by (rewrite IH by trivial; apply Z.div_pos; [lia|apply pow2_pos; lia]).
    rewrite IH, IH, shr_1_m by trivial.
    pose proof (pow2_pos (Zpos n) ltac:(lia)) as Hp.
    rewrite !Z.div_div by lia.
    f_equal. rewrite (Pos2Z.inj_xI n).
    replace (2 * Zpos n + 1) with (Z.succ (Zpos n + Zpos n)) by lia.
    rewrite Z.pow_succ_r, pow2_split by lia. ring.
  - assert (H2 : 0 <= shr_m (SpecFloat.iter_pos shr_1 n mrs))
      by (rewrite IH by trivial; apply Z.div_pos; [lia|apply pow2_pos; lia]).
    rewrite IH, IH by trivial.
    pose proof (pow2_pos (Zpos n) ltac:(lia)) as Hp.
    rewrite !Z.div_div by lia.
    f_equal. rewrite (Pos2Z.inj_xO n).
    replace (2 * Zpos n) with (Zpos n + Zpos n) by lia.
    rewrite pow2_split by lia. ring.
  - now rewrite shr_1_m.
Qed.

(** Shifting a positive mantissa to its format exponent leaves it
    positive: at most the digits beyond the precision are dropped. *)
Lemma shr_fexp_pos (m : positive) (e : Z) (l : location) :
  emin <= e ->
  0 < shr_m (fst (shr_fexp prec emax (Zpos m) e l))
  /\ emin <= snd (shr_fexp prec emax (Zpos m) e l).
Proof.
  intros He. unfold shr_fexp, shr, SpecFloat.fexp. simpl Zdigits2.
  assert (Hrec : shr_m (shr_record_of_loc (Zpos m) l) = Zpos m)
    by (now destruct l as [|[]]).
  destruct (Z.max (Zpos (digits2_pos m) + e - prec) emin - e) as [|n|n] eqn:Hn;
    simpl fst; simpl snd; try (rewrite Hrec; lia).
  rewrite iter_shr_1_m by (rewrite Hrec; lia). rewrite Hrec.
  split; [|lia].
  pose proof (digits2_pos_bounds m) as [Hlo _].
  apply Z.div_str_pos. split; [apply pow2_pos; lia|].
  eapply Z.le_trans; [|exact Hlo].
  apply Z.pow_le_mono_r; unfold prec in *; lia.
Qed.

Lemma round_nearest_even_pos (m : Z) (l : location) :
  0 < m -> 0 < round_nearest_even m l.
Proof.
  intros Hm. destruct l as [|[]]; simpl; trivial; try lia.
  destruct (Z.even m); lia.
Qed.

(** Rounding a non-zero value gives a finite number or an infinity of its
    sign: no difference of two numbers rounds to zero. *)
Lemma binary_round_aux_sign (s : bool) (m : positive) (e : Z) (l : location) :
  emin <= e ->
  (exists m' e', binary_round_aux prec emax s (Zpos m) e l = S754_finite s m' e')
  \/ binary_round_aux prec emax s (Zpos m) e l = S754_infinity s.
Proof.
  intros He. unfold binary_round_aux.
  pose proof (shr_fexp_pos m e l He) as [Hm1 He1].
  destruct (shr_fexp prec emax (Zpos m) e l) as [mrs1 e1]. simpl in Hm1, He1.
  pose proof (round_nearest_even_pos (shr_m mrs1) (loc_of_shr_record mrs1) Hm1) as Hm2.
  destruct (round_nearest_even (shr_m mrs1) (loc_of_shr_record mrs1)) as [|m2|m2];
    try lia.
  pose proof (shr_fexp_pos m2 e1 loc_Exact He1) as [Hm3 _].
  destruct (shr_fexp prec emax (Zpos m2) e1 loc_Exact) as [mrs2 e2]. simpl in Hm3.
  destruct (shr_m mrs2) as [|m3|m3]; try lia.
  destruct (e2 <=? emax - prec); eauto.
Qed.

Lemma shl_align_value (m : positive) (e e' : Z) :
  e' <= e ->
  Zpos (fst (shl_align m e e')) = Zpos m * 2 ^ (e - e')
  /\ snd (shl_align m e e') = e'.
Proof.
  intros He. unfold shl_align.
  destruct (e' - e) as [|d|d] eqn:Hd; simpl fst; simpl snd; try lia.
  - replace (e - e') with 0 by lia. split; lia.
  - replace (e - e') with (Zpos d) by lia. split; [|lia].
    clear. induction d as [|d IH] using Pos.peano_ind.
    + simpl. lia.
    + rewrite Pos.iter_succ, (Pos2Z.inj_xO (Pos.iter _ _ _)), IH, Pos2Z.inj_succ,
        Z.pow_succ_r by lia.
      ring.
Qed.

Lemma binary_round_sign (s : bool) (m : positive) (e : Z) :
  emin <= e ->
  (exists m' e', binary_round prec emax s m e = S754_finite s m' e')
  \/ binary_round prec emax s m e = S754_infinity s.
Proof.
  intros He. unfold binary_round.
  destruct (Z_le_gt_dec (SpecFloat.fexp prec emax (Zpos (digits2_pos m) + e)) e) as [Hle|Hgt].
  - pose proof (shl_align_value m e _ Hle) as [_ Hs].
    destruct (shl_align m e _) as [mz ez]. simpl in Hs. subst ez.
    apply binary_round_aux_sign. unfold SpecFloat.fexp. lia.
  - unfold shl_align.
    destruct (SpecFloat.fexp prec emax (Zpos (digits2_pos m) + e) - e) eqn:Hd; try lia;
      now apply binary_round_aux_sign.
Qed.
(** [0 < y - x] holds exactly when [x] lies below [y]: the difference of
    two valid numbers has the sign of their exact difference. *)
Lemma SFsub_sign (x y : spec_float) :
  valid_binary x = true -> valid_binary y = true ->
  x <> S754_nan -> y <> S754_nan ->
  SFltb (S754_zero false) (SFsub prec emax y x) = (key x <? key y).
Proof.
  pose proof infinity_key_pos as Hinf.
  destruct x as [sx|sx| |sx mx ex], y as [sy|sy| |sy my ey];
    try congruence; intros Hx Hy _ _;
    cbv [valid_binary SpecFloat.valid_binary] in Hx, Hy;
    try (pose proof (finite_key_bounds _ _ Hx) as Hkx);
    try (pose proof (finite_key_bounds _ _ Hy) as Hky);
    try (cbv [SFsub SFltb SFcompare key cond_Zopp negb];
         try (destruct sx); try (destruct sy); decide_ltb).
  apply bounded_spec in Hx as (Hex & _), Hy as (Hey & _).
  cbv [SFsub key].
  set (ez := Z.min ey ex).
  pose proof (shl_align_value my ey ez ltac:(lia)) as [-> _].
  pose proof (shl_align_value mx ex ez ltac:(lia)) as [-> _].
  assert (HP : 0 < 2 ^ (ez - emin)) by (apply pow2_pos; lia).
  replace (ey - emin) with ((ey - ez) + (ez - emin)) in * by lia.
  replace (ex - emin) with ((ex - ez) + (ez - emin)) in * by lia.
  rewrite !pow2_split in * by lia.
  rewrite !Z.mul_assoc in Hkx, Hky. rewrite !Z.mul_assoc.
  revert Hkx Hky HP.
  generalize (2 ^ (ez - emin)) (Zpos my * 2 ^ (ey - ez)) (Zpos mx * 2 ^ (ex - ez)).
  intros P My Mx Hkx Hky HP.
  destruct (cond_Zopp sy My - cond_Zopp sx Mx) as [|d|d] eqn:Hd; unfold binary_normalize.
  - change (SFltb (S754_zero false) (S754_zero false)) with false.
    symmetry. apply Z.ltb_ge. destruct sx, sy; simpl in *; nia.
  - destruct (binary_round_sign false d ez ltac:(lia)) as [(m' & e' & ->) | ->];
      change (true = (cond_Zopp sx (Mx * P) <? cond_Zopp sy (My * P)));
      symmetry; apply Z.ltb_lt; destruct sx, sy; simpl in *; nia.
  - destruct (binary_round_sign true d ez ltac:(lia)) as [(m' & e' & ->) | ->];
      change (false = (cond_Zopp sx (Mx * P) <? cond_Zopp sy (My * P)));
      symmetry; apply Z.ltb_ge; destruct sx, sy; simpl in *; nia.
Qed.
End Binary64.

Section FloatOrder.
Local Open Scope float_scope.

Lemma not_nan_spec (x : float) : is_nan x = false <-> Prim2SF x <> S754_nan.
Proof.
  rewrite <- is_nan_spec. destruct (is_nan x); split; congruence.
Qed.

Lemma ltb_key (x y : float) :
  is_nan x = false -> is_nan y = false ->
  (x <? y) = (float_key x <? float_key y)%Z.
Proof.
  intros Hx%not_nan_spec Hy%not_nan_spec.
  rewrite ltb_spec. unfold SFltb, float_key, Z.ltb.
  now rewrite SFcompare_key by auto using Prim2SF_valid.
Qed.

Lemma leb_key (x y : float) :
  is_nan x = false -> is_nan y = false ->
  (x <=? y) = (float_key x <=? float_key y)%Z.
Proof.
  intros Hx%not_nan_spec Hy%not_nan_spec.
  rewrite leb_spec. unfold SFleb, float_key, Z.leb.
  rewrite SFcompare_key by auto using Prim2SF_valid.
  now destruct (key (Prim2SF x) ?= key (Prim2SF y))%Z.
Qed.

Lemma eqb_key (x y : float) :
  is_nan x = false -> is_nan y = false ->
  (x =? y) = (float_key x =? float_key y)%Z.
Proof.
  intros Hx%not_nan_spec Hy%not_nan_spec.
  rewrite FloatAxioms.eqb_spec, Z.eqb_compare. unfold SFeqb, float_key.
  now rewrite SFcompare_key by auto using Prim2SF_valid.
Qed.

Lemma eqb_not_nan (x y : float) :
  (x =? y) = true -> is_nan x = false /\ is_nan y = false.
Proof.
  rewrite FloatAxioms.eqb_spec, !not_nan_spec. unfold SFeqb.
  destruct (Prim2SF x), (Prim2SF y); simpl; try discriminate; intros _; split; congruence.
Qed.

(** The test of the comparator, for all numbers: [b - a > 0] exactly when
    [a < b]; with a NaN on either side both are false. *)
Lemma sub_pos_ltb (x y : float) : (0 <? y - x) = (x <? y).
Proof.
  rewrite !ltb_spec, sub_spec.
  change (Prim2SF 0) with (S754_zero false).
  pose proof (Prim2SF_valid x) as Hvx. pose proof (Prim2SF_valid y) as Hvy.
  destruct (Prim2SF x) as [sx|sx| |sx mx ex] eqn:Ex;
    [| |now destruct (Prim2SF y)|];
    (destruct (Prim2SF y) as [sy|sy| |sy my ey] eqn:Ey; [| |reflexivity|]);
    rewrite SFsub_sign by (trivial; congruence);
    unfold SFltb; rewrite SFcompare_key by (trivial; congruence);
    reflexivity.
Qed.
End FloatOrder.

(** ** Ranking *)

Section RankingFacts.
Local Open Scope float_scope.

(** The test [insert] makes is [score x < score y], for all scores. *)
Lemma insert_test (x y : Scored) :
  (0 <? SortCompare x y) = (score x <? score y).
Proof.
  unfold SortCompare, comparefn. rewrite <- (sub_pos_ltb (score x) (score y)).
  destruct (is_nan (score y - score x)) eqn:E; trivial.
  apply is_nan_spec in E. rewrite (ltb_spec 0 (score y - score x)), E. reflexivity.
Qed.

Lemma insert_perm (x : Scored) (l : list Scored) : Permutation (insert x l) (x :: l).
Proof.
  induction l as [|y l IH]; simpl; [reflexivity|].
  destruct (0 <? SortCompare x y).
  - rewrite IH. apply perm_swap.
  - reflexivity.
Qed.

Lemma sort_perm (l : list Scored) : Permutation (sort l) l.
Proof.
  induction l as [|x l IH]; simpl; [reflexivity|].
  rewrite insert_perm. now constructor.
Qed.

Lemma score_ge_of_not_lt (x y : Scored) :
  is_nan (score x) = false -> is_nan (score y) = false ->
  (score x <? score y) = false -> score_ge x y.
Proof.
  intros Hx Hy. unfold score_ge. rewrite ltb_key, leb_key by trivial.
  intros H%Z.ltb_ge. now apply Z.leb_le.
Qed.

Lemma score_ge_of_lt (x y : Scored) :
  is_nan (score x) = false -> is_nan (score y) = false ->
  (score x <? score y) = true -> score_ge y x.
Proof.
  intros Hx Hy. unfold score_ge. rewrite ltb_key, leb_key by trivial.
  intros H%Z.ltb_lt. apply Z.leb_le. lia.
Qed.

Lemma score_ge_trans (x y z : Scored) :
  is_nan (score x) = false -> is_nan (score y) = false -> is_nan (score z) = false ->
  score_ge x y -> score_ge y z -> score_ge x z.
Proof.
  intros Hx Hy Hz. unfold score_ge. rewrite !leb_key by trivial.
  intros H1%Z.leb_le H2%Z.leb_le. apply Z.leb_le. lia.
Qed.

Lemma insert_descending (x : Scored) (l : list Scored) :
  is_nan (score x) = false -> no_nan_scores l ->
  StronglySorted score_ge l -> StronglySorted score_ge (insert x l).
Proof.
  intros Hx. induction l as [|y l IH]; intros Hl Hs; simpl.
  - repeat constructor.
  - apply Forall_cons_iff in Hl as [Hy Hl].
    apply StronglySorted_inv in Hs as [Hs Hyl].
    rewrite insert_test. destruct (score x <? score y) eqn:Hlt.
    + constructor; [now apply IH|].
      eapply Permutation_Forall; [symmetry; apply insert_perm|].
      constructor; trivial. now apply score_ge_of_lt.
    + assert (Hxy : score_ge x y) by now apply score_ge_of_not_lt.
      constructor; [now constructor|].
      constructor; trivial.
      rewrite List.Forall_forall in *. intros z Hz.
      apply (score_ge_trans x y z); auto.
  Qed.

Lemma no_nan_scores_perm (l l' : list Scored) :
  Permutation l l' -> no_nan_scores l -> no_nan_scores l'.
Proof. intros Hp. now apply Permutation_Forall. Qed.

Lemma sort_descending (l : list Scored) :
  no_nan_scores l -> StronglySorted score_ge (sort l).
Proof.
  induction l as [|x l IH]; intros Hl; simpl; [constructor|].
  apply Forall_cons_iff in Hl as [Hx Hl].
  apply insert_descending; auto.
  eapply no_nan_scores_perm; [symmetry; apply sort_perm|trivial].
Qed.

(** [insert] moves [x] only behind elements of a different score. *)
Lemma insert_stable (v : float) (x : Scored) (l : list Scored) :
  List.filter (fun a => score a =? v) (insert x l)
  = List.filter (fun a => score a =? v) (x :: l).
Proof.
  induction l as [|y l IH]; [reflexivity|].
  simpl insert. rewrite insert_test. destruct (score x <? score y) eqn:Hlt; trivial.
  simpl List.filter in *. rewrite IH.
  destruct (score x =? v) eqn:Hxv, (score y =? v) eqn:Hyv; trivial.
  exfalso.
  apply eqb_not_nan in Hxv as Hnx. apply eqb_not_nan in Hyv as Hny.
  destruct Hnx as [Hnx Hnv], Hny as [Hny _].
  rewrite eqb_key in Hxv, Hyv by trivial. rewrite ltb_key in Hlt by trivial.
  apply Z.eqb_eq in Hxv, Hyv. apply Z.ltb_lt in Hlt. lia.
Qed.

Lemma sort_stable (v : float) (l : list Scored) :
  List.filter (fun a => score a =? v) (sort l)
  = List.filter (fun a => score a =? v) l.
Proof.
  induction l as [|x l IH]; [reflexivity|].
  simpl sort. rewrite insert_stable. simpl. now rewrite IH.
Qed.

Lemma eqb_refl_not_nan (x : float) : is_nan x = false -> (x =? x) = true.
Proof. intros Hx. rewrite eqb_key by trivial. apply Z.eqb_refl. Qed.

Lemma score_ge_key (a b : Scored) :
  is_nan (score a) = false -> is_nan (score b) = false ->
  score_ge a b <-> (float_key (score b) <= float_key (score a))%Z.
Proof.
  intros Ha Hb. unfold score_ge. rewrite leb_key by trivial. apply Z.leb_le.
Qed.

Lemma head_in_filter (x : Scored) (l l' : list Scored) :
  is_nan (score x) = false ->
  List.filter (fun a => score a =? score x) (x :: l)
  = List.filter (fun a => score a =? score x) l' ->
  In x l'.
Proof.
  intros Hx Hf. simpl in Hf. rewrite eqb_refl_not_nan in Hf by trivial.
  assert (Hin : In x (List.filter (fun a => score a =? score x) l'))
    by (rewrite <- Hf; now left).
  now apply filter_In in Hin.
Qed.

(** Two descending arrangements that keep the chunks of each score in the
    same order are equal. *)
Lemma stable_descending_unique (l1 l2 : list Scored) :
  no_nan_scores l1 -> no_nan_scores l2 ->
  StronglySorted score_ge l1 -> StronglySorted score_ge l2 ->
  (forall v, List.filter (fun a => score a =? v) l1
             = List.filter (fun a => score a =? v) l2) ->
  l1 = l2.
Proof.
  revert l2. induction l1 as [|x l1 IH]; intros [|y l2] Hn1 Hn2 Hs1 Hs2 Hf; trivial.
  - apply Forall_cons_iff in Hn2 as [Hy _].
    destruct (head_in_filter y l2 [] Hy); symmetry; apply Hf.
  - apply Forall_cons_iff in Hn1 as [Hx _].
    destruct (head_in_filter x l1 [] Hx); apply Hf.
  - apply Forall_cons_iff in Hn1 as [Hx Hn1]. apply Forall_cons_iff in Hn2 as [Hy Hn2].
    apply StronglySorted_inv in Hs1 as [Hs1 Hx1]. apply StronglySorted_inv in Hs2 as [Hs2 Hy2].
    rewrite List.Forall_forall in Hx1, Hy2.
    assert (Hyx : (float_key (score y) <= float_key (score x))%Z).
    { assert (Hin : In y (x :: l1))
        by (apply head_in_filter with (l := l2); [trivial|symmetry; apply Hf]).
      destruct Hin as [<-|Hin]; [lia|apply score_ge_key; auto]. }
    assert (Hxy : (float_key (score x) <= float_key (score y))%Z).
    { assert (Hin : In x (y :: l2))
        by (apply head_in_filter with (l := l1); [trivial|apply Hf]).
      destruct Hin as [<-|Hin]; [lia|apply score_ge_key; auto]. }
    assert (Heq : (score y =? score x) = true)
      by (rewrite eqb_key by trivial; apply Z.eqb_eq; lia).
    pose proof (Hf (score x)) as Hhead. simpl in Hhead.
    rewrite eqb_refl_not_nan, Heq in Hhead by trivial.
    injection Hhead as <- _.
    f_equal. apply IH; trivial.
    intros v. specialize (Hf v). simpl in Hf.
    destruct (score x =? v); [now injection Hf|exact Hf].
Qed.

(** The model of [Array.prototype.sort] does not depend on the algorithm:
    on scores without NaN every stable sort by descending score returns
    [sort l]. *)
Lemma sort_unique (l l' : list Scored) :
  no_nan_scores l ->
  Permutation l' l ->
  StronglySorted score_ge l' ->
  (forall v, List.filter (fun a => score a =? v) l'
             = List.filter (fun a => score a =? v) l) ->
  l' = sort l.
Proof.
  intros Hn Hp Hs Hf. apply stable_descending_unique; trivial.
  - eapply no_nan_scores_perm; [symmetry; exact Hp|trivial].
  - eapply no_nan_scores_perm; [symmetry; apply sort_perm|trivial].
  - now apply sort_descending.
  - intros v. now rewrite sort_stable.
Qed.

Lemma StronglySorted_split {A : Type} (R : A -> A -> Prop) (l1 l2 : list A) :
  StronglySorted R (l1 ++ l2) ->
  StronglySorted R l1 /\ (forall a b, In a l1 -> In b l2 -> R a b).
Proof.
  induction l1 as [|x l1 IH]; simpl; intros Hs.
  - split; [constructor|intros a b []].
  - apply StronglySorted_inv in Hs as [Hs Hx].
    destruct (IH Hs) as [Hs1 Hcross].
    apply Forall_app in Hx as [Hx1 Hx2]. split; [now constructor|].
    intros a b [<-|Ha] Hb; [|now apply Hcross].
    rewrite List.Forall_forall in Hx2. now apply Hx2.
Qed.

(** C2, as the code has it. For every query vector, every [K >= 0] and
    every store none of whose scores is NaN, the ranking returns
    [min K (size of the store)] pairs of a chunk and its score: the first
    [K] of the whole store sorted by descending score, chunks of equal
    score in the order of the store; what is returned is in descending
    order, and nothing left out scores higher than anything returned. *)
Theorem rankTop_top_K (K : Z) (qEmbed : list float) (store : list Chunk) :
  0 <= K ->
  no_nan_scores (map (scored qEmbed) store) ->
  let all := map (scored qEmbed) store in
  let top := rankTop K qEmbed store in
  exists sorted rest : list Scored,
    sorted = top ++ rest
    /\ Z.of_nat (length top) = Z.min K (Z.of_nat (length store))
    /\ Permutation sorted all
    /\ StronglySorted score_ge sorted
    /\ (forall v, List.filter (fun a => score a =? v) sorted
                  = List.filter (fun a => score a =? v) all)
    /\ StronglySorted score_ge top
    /\ (forall a b, In a top -> In b rest -> score_ge a b)
    /\ (Z.of_nat (length store) <= K -> top = sorted).
Proof.
  intros HK Hnan all top.
  exists (sort all), (skipn (Z.to_nat K) (sort all)).
  assert (Htop : top = firstn (Z.to_nat K) (sort all))
    by (unfold top, rankTop; now rewrite slice_prefix).
  assert (Hsorted : StronglySorted score_ge (sort all)) by now apply sort_descending.
  assert (Happ : sort all = top ++ skipn (Z.to_nat K) (sort all))
    by (rewrite Htop; symmetry; apply firstn_skipn).
  split; [exact Happ|].
  split; [unfold top; now apply rankTop_length|].
  split; [apply sort_perm|].
  split; [exact Hsorted|].
  split; [intros v; apply sort_stable|].
  rewrite Happ in Hsorted. apply StronglySorted_split in Hsorted as [Hs1 Hcross].
  split; [exact Hs1|]. split; [exact Hcross|].
  intros Hall. rewrite Htop. apply firstn_all2.
  unfold all. rewrite sort_length, length_map. lia.
Qed.
End RankingFacts.

(** ** The answer path *)

Section AskFacts.
End AskFacts.

(** ** The claims on concrete inputs *)

(** C1 at a text of 1200 code units, size 500 and overlap 100. *)
Lemma chunkText_windows_cover_witness :
  0 <= 100 < 500
  /\ exists chunks : list jsstring,
       chunkText sample_text 500 100 = Some chunks
       /\ forall j : nat, (j < length sample_text)%nat ->
            exists (k : nat) c, nth_error chunks k = Some c
              /\ Z.of_nat k * (500 - 100) <= Z.of_nat j < Z.of_nat k * (500 - 100) + 500
              /\ nth_error c (j - Z.to_nat (Z.of_nat k * (500 - 100))) = nth_error sample_text j.
Proof.
  split; [lia|].
  destruct (chunkText_windows_cover sample_text 500 100 ltac:(lia))
    as (chunks & _ & Hrun & _ & _ & _ & _ & Hcover).
  exists chunks. split; [exact Hrun|exact Hcover].
Defined.

(** 1200 code units, size 500, overlap 100: three chunks of 500, 500 and 400
    code units (scenario 1 of the specification). *)
Example chunkText_scenario :
  option_map (map (@length code_unit)) (chunkText sample_text 500 100)
  = Some [500; 500; 400]%nat.
Proof. vm_compute. reflexivity. Qed.

(** C7, counterexample: one code unit, size 1, overlap 1. *)
Lemma chunkText_hangs :
  ~ exists (fuel : nat) (chunks : list jsstring),
      chunkText_run fuel [97%N] 1 1 = Some chunks.
Proof.
  intros (fuel & chunks & Hrun). unfold chunkText_run in Hrun.
  rewrite chunkText_loop_diverges in Hrun; [discriminate|lia|simpl; lia].
Qed.

(** C6, counterexample: the zero vector against [(1, 0)] scores NaN, which
    is not 0; the function has no other way out. *)
Lemma cosineSimilarity_zero_vector_sample :
  is_nan (cosineSimilarity [0; 0]%float [1; 0]%float) = true
  /\ (cosineSimilarity [0; 0]%float [1; 0]%float =? 0)%float = false.
Proof. split; vm_compute; reflexivity. Qed.

(** C6 at the zero vector and [(1, 0)]. *)
Lemma cosineSimilarity_zero_vector_nan_witness :
  (all_zero [0; 0]%float = true \/ all_zero [1; 0]%float = true)
  /\ is_nan (cosineSimilarity [0; 0]%float [1; 0]%float) = true.
Proof.
  split; [left; reflexivity|].
  apply cosineSimilarity_zero_vector_nan. left. reflexivity.
Defined.


(** C2, counterexample: with scores 0, NaN and 1 the comparator answers NaN
    for the pairs that involve the second chunk, the order of the store is
    kept, and the chunk ranked first has score 0 while the third chunk has
    score 1. *)
Lemma rankTop_nan_misorders :
  map (fun r => id (chunk r)) (rankTop 3 [1; 0]%float store_with_zero_vector)
  = [of_string "a"; of_string "b"; of_string "c"]
  /\ exists a c,
       rankTop 1 [1; 0]%float store_with_zero_vector = [a]
       /\ In c (map (scored [1; 0]%float) store_with_zero_vector)
       /\ (score a <? score c)%float = true.
Proof.
  split; [vm_compute; reflexivity|].
  exists (scored [1; 0]%float (chunk_of "a" [0; 1]%float)),
         (scored [1; 0]%float (chunk_of "c" [1; 0]%float)).
  split; [vm_compute; reflexivity|].
  split; [simpl; auto|vm_compute; reflexivity].
Qed.

(** C2 at the store of two chunks with [K = 5]: no score is NaN. *)
Lemma rankTop_top_K_witness :
  0 <= 5
  /\ no_nan_scores (map (scored [1; 0]%float) store_two)
  /\ exists sorted rest : list Scored,
       sorted = rankTop 5 [1; 0]%float store_two ++ rest
       /\ Permutation sorted (map (scored [1; 0]%float) store_two)
       /\ StronglySorted score_ge sorted.
Proof.
  assert (Hnan : no_nan_scores (map (scored [1; 0]%float) store_two))
    by (repeat constructor).
  split; [lia|]. split; [exact Hnan|].
  destruct (rankTop_top_K 5 [1; 0]%float store_two ltac:(lia) Hnan)
    as (sorted & rest & Happ & _ & Hperm & Hsorted & _).
  exists sorted, rest. auto.
Defined.

(** The query [(1, 0)] against the chunks [(1, 0)] and [(0, 1)]: the first
    with score 1, then the second with score 0 (scenario 3 of the
    specification). *)
Example rank_scenario :
  map (fun r => (id (chunk r), score r)) (ranked [1; 0]%float store_two)
  = [(of_string "first", 1%float); (of_string "second", 0%float)].
Proof. vm_compute. reflexivity. Qed.

(** C3 at a provider that rejects every request: [processText] throws and
    the empty store stays empty and unpersisted. *)
Lemma processText_embedding_failure_witness :
  embedding_fails provider_down (chunks_of Current (of_string "hello"))
  /\ exists e,
       processText provider_down clock_zero (of_string "hello") (of_string "TXT") empty_server
       = Some (Throw e, empty_server).
Proof.
  assert (Hfail : embedding_fails provider_down (chunks_of Current (of_string "hello"))).
  { exists 0%nat, (of_string "hello"), (of_string "429 Too Many Requests").
    split; reflexivity. }
  split; [exact Hfail|].
  exact (processText_embedding_failure provider_down clock_zero Current
           (of_string "hello") (of_string "TXT") empty_server Hfail).
Defined.

(** C8, counterexample: [processText] called with one space, as the crawl
    calls it for a page whose title is one space, throws nothing, stores a
    chunk and persists it. *)
Lemma processText_accepts_blank_text :
  trim [32%N] = []
  /\ extract_text blank_title_page = [32%N]
  /\ truthy (extract_text blank_title_page) = true
  /\ processText provider_up clock_zero [32%N] (of_string "http://s/") empty_server
     = Some (Return 1,
             {| CHUNKS := [{| id := of_string "http://s/_0_0"; text := [32%N];
                              embedding := [1; 0]%float |}];
                DATA_FILE := Some [{| id := of_string "http://s/_0_0"; text := [32%N];
                                      embedding := [1; 0]%float |}] |}).
Proof. repeat split; vm_compute; reflexivity. Qed.

(** C8 at an uploaded text file that holds two spaces. *)
Lemma upload_rejects_blank_text_witness :
  trim (of_string "  ") = []
  /\ upload_file provider_up clock_zero
       (Some {| upload_ext := of_string "txt"; upload_extracted := Return (of_string "  ") |})
       empty_server
     = Some (Return {| status := 400; body := ErrorBody (of_string "No text extracted") |},
             empty_server).
Proof.
  split; [reflexivity|].
  exact (proj1 (upload_rejects_blank_text (of_string "  ") eq_refl
                  provider_up clock_zero (of_string "txt") [] empty_server)).
Defined.


(** * Further properties of the code *)

(** ** Chunker: what consecutive chunks share *)

Section ChunkerOverlap.
Context {U : Type}.
Implicit Types (t : list U) (size overlap : Z).

Lemma firstn_plus {A : Type} (a b : nat) (l : list A) :
  firstn (a + b) l = firstn a l ++ firstn b (skipn a l).
Proof.
  revert l. induction a as [|a IH]; intros [|x l]; simpl; trivial.
  - now rewrite firstn_nil.
  - now rewrite IH.
Qed.

Lemma windows_heads t (s size n : nat) :
  (s <= size)%nat ->
  concat (map (fun k => firstn s (firstn size (skipn (k * s) t))) (seq 0 n))
  = firstn (n * s) t.
Proof.
  intros Hs. induction n as [|n IH]; [reflexivity|].
  rewrite seq_S, map_app, concat_app, IH. simpl.
  rewrite app_nil_r, firstn_firstn, Nat.min_l by trivial.
  rewrite (Nat.add_comm s), firstn_plus. reflexivity.
Qed.

(** X1. The code units of a chunk after its first [size - overlap] are the
    first [overlap] code units of the next chunk. *)
Theorem chunkText_overlap t size overlap (chunks : list (list U)) (k : nat) (c c' : list U) :
  0 <= overlap < size ->
  chunkText t size overlap = Some chunks ->
  nth_error chunks k = Some c ->
  nth_error chunks (S k) = Some c' ->
  skipn (Z.to_nat (size - overlap)) c = firstn (Z.to_nat overlap) c'.
Proof.
  intros H Hrun Hc Hc'.
  rewrite chunkText_run_enough in Hrun by lia. injection Hrun as <-.
  assert (Hk' : (S k < window_count (Z.of_nat (length t)) (size - overlap))%nat).
  { rewrite <- (windows_length t size overlap). apply nth_error_Some. congruence. }
  rewrite windows_nth_error in Hc, Hc' by lia.
  injection Hc as <-. injection Hc' as <-.
  rewrite !window_substring by trivial.
  set (s := Z.to_nat (size - overlap)).
  replace (Z.to_nat (Z.of_nat k * (size - overlap))) with (k * s)%nat by (unfold s; nia).
  replace (Z.to_nat (Z.of_nat (S k) * (size - overlap))) with (s + k * s)%nat
    by (unfold s; nia).
  replace (Z.to_nat size) with (s + Z.to_nat overlap)%nat by (unfold s; lia).
  rewrite <- firstn_skipn_comm, skipn_skipn.
  rewrite firstn_firstn. f_equal. lia.
Qed.

(** X2. The text is the concatenation of the first [size - overlap] code
    units of its chunks: chunking loses nothing and the chunks come in the
    order of the text. *)
Theorem chunkText_reassembles t size overlap (chunks : list (list U)) :
  0 <= overlap < size ->
  chunkText t size overlap = Some chunks ->
  concat (map (firstn (Z.to_nat (size - overlap))) chunks) = t.
Proof.
  intros H Hrun.
  rewrite chunkText_run_enough in Hrun by lia. injection Hrun as <-.
  unfold windows. rewrite map_map.
  set (s := Z.to_nat (size - overlap)).
  set (n := window_count (Z.of_nat (length t)) (size - overlap)).
  rewrite (map_ext_in _ (fun k => firstn s (firstn (Z.to_nat size) (skipn (k * s) t)))).
  - rewrite windows_heads by (unfold s; lia).
    apply firstn_all2.
    assert (Hn : ~ (n < window_count (Z.of_nat (length t)) (size - overlap))%nat)
      by (unfold n; lia).
    rewrite window_count_lt in Hn by lia. unfold s. nia.
  - intros k _. rewrite window_substring by trivial. do 3 f_equal. unfold s. nia.
Qed.
End ChunkerOverlap.

(** ** Cosine similarity: dimensions and symmetry *)

Section CosineMore.
Local Open Scope float_scope.

Lemma add_nan_l (x y : float) : is_nan x = true -> is_nan (x + y) = true.
Proof.
  rewrite !is_nan_spec, add_spec. intros ->. reflexivity.
Qed.

Lemma add_nan_r (x y : float) : is_nan y = true -> is_nan (x + y) = true.
Proof.
  rewrite !is_nan_spec, add_spec. intros ->. now destruct (Prim2SF x) as [| | |[]].
Qed.

Lemma mul_nan_r (x y : float) : is_nan y = true -> is_nan (x * y) = true.
Proof.
  rewrite !is_nan_spec, mul_spec. intros ->. now destruct (Prim2SF x).
Qed.

Lemma div_nan_l (x y : float) : is_nan x = true -> is_nan (x / y) = true.
Proof.
  rewrite !is_nan_spec, div_spec. intros ->. reflexivity.
Qed.

Lemma dot_product_from_nan (b : list float) :
  forall (a : list float) (i : nat) (acc : float),
    is_nan acc = true \/ (a <> [] /\ (length b <= i)%nat) \/ (length b - i < length a)%nat ->
    is_nan (reduce_from (fun sum val i => num_add sum (num_mul val (element b i))) a i acc)
    = true.
Proof.
  induction a as [|x a IH]; intros i acc Hc.
  - simpl. destruct Hc as [Hc|[[Hc _]|Hc]]; trivial; [congruence|simpl in Hc; lia].
  - simpl. apply IH.
    destruct Hc as [Hc|[[_ Hc]|Hc]].
    + left. now apply add_nan_l.
    + left. apply add_nan_r, mul_nan_r. unfold element.
      now rewrite nth_overflow.
    + destruct (Nat.le_gt_cases (length b) i) as [Hle|Hgt].
      * left. apply add_nan_r, mul_nan_r. unfold element. now rewrite nth_overflow.
      * right. right. simpl in Hc. lia.
Qed.

(** X3. When the first vector has more components than the second, the
    result of [cosineSimilarity] is NaN: the components the second vector
    lacks are read as [undefined]. *)
Theorem cosineSimilarity_shorter_nan (a b : list float) :
  (length b < length a)%nat ->
  is_nan (cosineSimilarity a b) = true.
Proof.
  intros Hlen. unfold cosineSimilarity. simpl. apply div_nan_l.
  unfold dot_product, reduce. apply dot_product_from_nan. right. right. lia.
Qed.

Lemma SFmul_comm (x y : spec_float) : SF64mul x y = SF64mul y x.
Proof.
  unfold SF64mul. destruct x as [sx|sx| |sx mx ex], y as [sy|sy| |sy my ey]; simpl; trivial;
    try (now rewrite xorb_comm).
  now rewrite xorb_comm, Pos.mul_comm, Z.add_comm.
Qed.

Lemma mul_comm (x y : float) : x * y = y * x.
Proof. apply Prim2SF_inj. rewrite !mul_spec. apply SFmul_comm. Qed.

Lemma dot_product_from_combine (b : list float) :
  forall (a : list float) (i : nat) (acc : float),
    (i + length a <= length b)%nat ->
    reduce_from (fun sum val i => num_add sum (num_mul val (element b i))) a i acc
    = fold_left (fun sum p => sum + fst p * snd p) (combine a (skipn i b)) acc.
Proof.
  induction a as [|x a IH]; intros i acc Hlen; [reflexivity|].
  simpl in Hlen. simpl reduce_from. rewrite IH by lia.
  assert (Hs : skipn i b = element b i :: skipn (S i) b).
  { unfold element. clear -Hlen. revert i Hlen.
    induction b as [|y b IHb]; intros i Hlen; simpl in Hlen; [lia|].
    destruct i as [|i]; [reflexivity|]. simpl. apply IHb. lia. }
  rewrite Hs. reflexivity.
Qed.

Lemma fold_combine_comm (a b : list float) (acc : float) :
  fold_left (fun sum p => sum + fst p * snd p) (combine a b) acc
  = fold_left (fun sum p => sum + fst p * snd p) (combine b a) acc.
Proof.
  revert b acc. induction a as [|x a IH]; intros [|y b] acc; simpl; trivial.
  now rewrite IH, mul_comm.
Qed.

(** X4. On vectors of the same dimension [cosineSimilarity] is symmetric,
    bit for bit: the binary64 product is commutative and the two sums add
    the same products in the same order. *)
Theorem cosineSimilarity_symmetric (a b : list float) :
  length a = length b ->
  cosineSimilarity a b = cosineSimilarity b a.
Proof.
  intros Hlen. unfold cosineSimilarity, dot_product, reduce. simpl.
  rewrite !dot_product_from_combine by lia.
  change (skipn 0 b) with b. change (skipn 0 a) with a.
  now rewrite fold_combine_comm, mul_comm.
Qed.
End CosineMore.

(** ** Ranking and the sorting algorithm of the engine *)

Section RankingMore.
(** X5. The ranking does not depend on the sorting algorithm of the
    engine: where no score is NaN, the first five of any arrangement of the
    scored chunks that is in descending order and keeps chunks of equal
    score in the order of the store are what [/ask] ranks. *)
Theorem ranked_any_stable_sort (qEmbed : list float) (store : list Chunk)
    (sorted : list Scored) :
  no_nan_scores (map (scored qEmbed) store) ->
  Permutation sorted (map (scored qEmbed) store) ->
  StronglySorted score_ge sorted ->
  (forall v, List.filter (fun a => score a =? v)%float sorted
             = List.filter (fun a => score a =? v)%float (map (scored qEmbed) store)) ->
  slice sorted 0 5 = ranked qEmbed store.
Proof.
  intros Hn Hp Hs Hf. unfold ranked, rankTop.
  now rewrite (sort_unique _ _ Hn Hp Hs Hf).
Qed.
End RankingMore.

(** ** Embedding helper: batches *)

Section EmbeddingFacts.
Variable embeddings_create : nat -> jsstring -> completion (list float).

Lemma Promise_all_returns {A : Type} (l : list (completion A)) (vs : list A) :
  Promise_all l = Return vs <-> l = map Return vs.
Proof.
  revert vs. induction l as [|[a|e] l IH]; intros vs; simpl.
  - split; [intros [= <-]; reflexivity|]. destruct vs; [reflexivity|discriminate].
  - destruct (Promise_all l) as [r|e'] eqn:E.
    + split.
      * intros [= <-]. simpl. f_equal. now apply IH.
      * destruct vs as [|v vs]; [discriminate|]. simpl. intros [= -> Hl].
        f_equal. f_equal. apply IH in Hl. congruence.
    + split; [discriminate|].
      destruct vs as [|v vs]; [discriminate|]. simpl. intros [= -> Hl].
      apply IH in Hl. discriminate.
  - split; [discriminate|]. destruct vs; discriminate.
Qed.

Lemma Promise_all_rejects {A : Type} (l : list (completion A)) :
  (exists e, Promise_all l = Throw e) <-> exists i e, nth_error l i = Some (Throw e).
Proof.
  induction l as [|[a|e] l IH]; simpl.
  - split; [intros [e [=]]|intros ([|i] & e & [=])].
  - destruct (Promise_all l) as [r|e'] eqn:E.
    + split; [intros [e [=]]|]. intros ([|i] & e & Hi); [discriminate|].
      simpl in Hi. destruct (proj2 IH) as [e0 [=]]. eauto.
    + split; [|eauto]. intros _. destruct (proj1 IH) as (i & e & Hi); [eauto|].
      exists (S i), e. exact Hi.
  - split; [|eauto]. intros _. exists 0%nat, e. reflexivity.
Qed.

Lemma requests_nth_error (texts : list jsstring) (i : nat) :
  nth_error (map_index (fun t j => embeddings_create j t) texts) i
  = option_map (embeddings_create i) (nth_error texts i).
Proof.
  unfold map_index. rewrite map_index_from_nth_error.
  destruct (nth_error texts i); reflexivity.
Qed.

Lemma requests_reject_iff (texts : list jsstring) :
  (exists i e, nth_error (map_index (fun t j => embeddings_create j t) texts) i
               = Some (Throw e))
  <-> embedding_fails embeddings_create texts.
Proof.
  unfold embedding_fails. split.
  - intros (i & e & Hi). rewrite requests_nth_error in Hi.
    destruct (nth_error texts i) as [t|] eqn:Ht; [|discriminate].
    simpl in Hi. injection Hi as Hi. eauto.
  - intros (i & t & e & Ht & He). exists i, e.
    rewrite requests_nth_error, Ht. simpl. now rewrite He.
Qed.

Lemma Promise_all_throws_one {A : Type} (l : list (completion A)) (e : error) :
  Promise_all l = Throw e -> exists i, nth_error l i = Some (Throw e).
Proof.
  induction l as [|[a|e'] l IH]; simpl; [discriminate| |].
  - destruct (Promise_all l) as [r|e'']; [discriminate|].
    intros [= ->]. destruct (IH eq_refl) as [i Hi]. now exists (S i).
  - intros [= ->]. now exists 0%nat.
Qed.

(** X6. For every positive batch size [embedTextsBatch] returns vectors
    exactly when the sequential [embedTexts] of the earlier revision does,
    and the same vectors: those of all requests, one for each text and in
    the order of the texts.  It throws exactly when [embedTexts] throws,
    which is when some request is rejected, and what it throws is the error
    of a rejected request; where several requests are rejected, which of
    their errors is thrown is left open.  The batches only group the
    requests. *)
Theorem embedTextsBatch_in_order (texts : list jsstring) (batchSize : Z) :
  0 < batchSize ->
  (forall vs,
      embedTextsBatch embeddings_create texts batchSize = Some (Return vs)
      <-> embedTexts embeddings_create texts = Some (Return vs))
  /\ (forall vs,
        embedTextsBatch embeddings_create texts batchSize = Some (Return vs)
        <-> map_index (fun t i => embeddings_create i t) texts = map Return vs)
  /\ ((exists e, embedTextsBatch embeddings_create texts batchSize = Some (Throw e))
      <-> (exists e, embedTexts embeddings_create texts = Some (Throw e)))
  /\ ((exists e, embedTextsBatch embeddings_create texts batchSize = Some (Throw e))
      <-> embedding_fails embeddings_create texts)
  /\ (forall e,
        embedTextsBatch embeddings_create texts batchSize = Some (Throw e) ->
        exists i t, nth_error texts i = Some t /\ embeddings_create i t = Throw e).
Proof.
  intros Hb. rewrite embedTextsBatch_sequential by trivial. unfold embedTexts.
  split; [tauto|]. split; [|split; [tauto|split]].
  - intros vs. rewrite <- Promise_all_returns. split; congruence.
  - rewrite <- requests_reject_iff, <- Promise_all_rejects.
    split; intros [e He]; exists e; congruence.
  - intros e [= He]. apply Promise_all_throws_one in He as [i Hi].
    rewrite requests_nth_error in Hi.
    destruct (nth_error texts i) as [t|] eqn:Ht; [|discriminate].
    simpl in Hi. injection Hi as Hi. now exists i, t.
Qed.

(** With a batch size that is not positive the index never passes the
    length of a non-empty list. *)
Lemma embedTextsBatch_loop_no_return (texts : list jsstring) (batchSize : Z) :
  batchSize <= 0 ->
  forall fuel i embeddings vs,
    i < Z.of_nat (length texts) ->
    embedTextsBatch_loop embeddings_create fuel texts batchSize i embeddings
    <> Some (Return vs).
Proof.
  intros Hb. induction fuel as [|fuel IH]; intros i embeddings vs Hi; [discriminate|].
  simpl. destruct (Z.ltb_spec i (Z.of_nat (length texts))); [|lia].
  destruct (Promise_all _); [|discriminate]. apply IH. lia.
Qed.

Lemma embedTextsBatch_loop_fuel (texts : list jsstring) (batchSize : Z) :
  forall fuel fuel' i embeddings r,
    (fuel <= fuel')%nat ->
    embedTextsBatch_loop embeddings_create fuel texts batchSize i embeddings = Some r ->
    embedTextsBatch_loop embeddings_create fuel' texts batchSize i embeddings = Some r.
Proof.
  induction fuel as [|fuel IH]; intros [|fuel'] i embeddings r Hle; try discriminate; [lia|].
  simpl. destruct (i <? Z.of_nat (length texts)); trivial.
  destruct (Promise_all _); trivial. apply IH. lia.
Qed.

Lemma Promise_all_cases {A : Type} (l : list (completion A)) :
  (exists vs, Promise_all l = Return vs) \/ (exists e, Promise_all l = Throw e).
Proof. destruct (Promise_all l); eauto. Qed.

(** X7. [embedTextsBatch] returns vectors exactly when no request is
    rejected and the list of texts is empty or the batch size is positive:
    called with a batch size of 0 or below on a non-empty list, the loop
    does not end unless a request is rejected. *)
Theorem embedTextsBatch_returns_iff (texts : list jsstring) (batchSize : Z) :
  (exists fuel vs,
      embedTextsBatch_loop embeddings_create fuel texts batchSize 0 [] = Some (Return vs))
  <-> (texts = [] \/ 0 < batchSize) /\ ~ embedding_fails embeddings_create texts.
Proof.
  split.
  - intros (fuel & vs & Hrun).
    destruct texts as [|t texts].
    { split; [now left|]. intros (i & c & e & Hi & _). now destruct i. }
    destruct (Z_lt_ge_dec 0 batchSize) as [Hb|Hle].
    + split; [now right|]. intros Hfail.
      apply embedTextsBatch_loop_fuel
        with (fuel' := Nat.max fuel (S (length (t :: texts)))) in Hrun; [|lia].
      rewrite embedTextsBatch_loop_sequential in Hrun by lia.
      apply requests_reject_iff, Promise_all_rejects in Hfail as [e He].
      change (skipn (Z.to_nat 0) (t :: texts)) with (t :: texts) in Hrun.
      unfold requests_from in Hrun. unfold map_index in He.
      change (Z.to_nat 0) with 0%nat in Hrun. rewrite He in Hrun. discriminate.
    + exfalso. revert Hrun. apply embedTextsBatch_loop_no_return; simpl; lia.
  - intros [[-> | Hb] Hok].
    + exists 1%nat, []. reflexivity.
    + destruct (Promise_all_cases (map_index (fun t j => embeddings_create j t) texts))
        as [[vs Hvs]|Hthrow].
      * exists (S (length texts)), vs.
        change (embedTextsBatch embeddings_create texts batchSize = Some (Return vs)).
        rewrite embedTextsBatch_sequential by trivial. unfold embedTexts. now rewrite Hvs.
      * apply Promise_all_rejects, requests_reject_iff in Hthrow. contradiction.
Qed.
End EmbeddingFacts.

(** ** Ingestion: what [processText] stores *)

Section IngestionMore.
Variable embeddings_create : nat -> jsstring -> completion (list float).
Variable Date_now : nat -> Z.

Lemma of_string_inj (s1 s2 : string) : of_string s1 = of_string s2 -> s1 = s2.
Proof.
  unfold of_string. intros H.
  rewrite <- (string_of_list_ascii_of_string s1), <- (string_of_list_ascii_of_string s2).
  f_equal. revert H. generalize (list_ascii_of_string s1) (list_ascii_of_string s2).
  induction l as [|a l IH]; intros [|b l']; simpl; try discriminate; trivial.
  intros [= Hab Hl]. f_equal; [|now apply IH].
  now rewrite <- (ascii_N_embedding a), <- (ascii_N_embedding b), Hab.
Qed.

Lemma Number_toString_inj (n m : Z) :
  Number_toString n = Number_toString m -> n = m.
Proof.
  unfold Number_toString. intros H%of_string_inj.
  apply DecimalZ.to_int_inj.
  assert (Hnil : forall z, Z.to_int z <> Decimal.Pos Decimal.Nil
                           /\ Z.to_int z <> Decimal.Neg Decimal.Nil).
  { intros [|p|p]; simpl; split; try discriminate;
      intros [= Hp]; now apply (DecimalPos.Unsigned.to_uint_nonnil p). }
  assert (Some (Z.to_int n) = Some (Z.to_int m)) as [= ->]; trivial.
  rewrite <- (NilZero.isi (Z.to_int n)), <- (NilZero.isi (Z.to_int m)), H;
    trivial; apply Hnil.
Qed.

Lemma uint_no_underscore (d : Decimal.uint) :
  ~ In 95%N (of_string (NilEmpty.string_of_uint d)).
Proof.
  induction d as [|d IH|d IH|d IH|d IH|d IH|d IH|d IH|d IH|d IH|d IH];
    [intros []|..]; intros [H|H]; solve [discriminate H | exact (IH H)].
Qed.

Lemma Number_toString_no_underscore (n : Z) : ~ In 95%N (Number_toString n).
Proof.
  unfold Number_toString, NilZero.string_of_int, NilZero.string_of_uint.
  assert (Hz : forall d, ~ In 95%N (of_string match d with
                                               | Decimal.Nil => "0"%string
                                               | _ => NilEmpty.string_of_uint d
                                               end)).
  { intros d. destruct d; try apply uint_no_underscore.
    intros [H|[]]. discriminate H. }
  destruct (Z.to_int n) as [d|d]; [apply Hz|].
  intros [H|H]; [discriminate H|exact (Hz d H)].
Qed.

Lemma split_at_underscore (a a' b b' : jsstring) :
  ~ In 95%N a -> ~ In 95%N a' ->
  a ++ 95%N :: b = a' ++ 95%N :: b' -> a = a' /\ b = b'.
Proof.
  revert a'. induction a as [|c a IH]; intros [|c' a'] Ha Ha'; simpl.
  - now intros [= ->].
  - intros [= <- _]. exfalso. apply Ha'. now left.
  - intros [= -> _]. exfalso. apply Ha. now left.
  - intros [= -> H]. apply IH in H as [-> ->]; auto.
    + intros Hin. apply Ha. now right.
    + intros Hin. apply Ha'. now right.
Qed.

Lemma chunk_id_inj (source : jsstring) (i j : nat) :
  chunk_id Date_now source i = chunk_id Date_now source j -> i = j.
Proof.
  unfold chunk_id. intros H. apply app_inv_head in H.
  change (of_string "_") with [95%N] in H. simpl in H. injection H as H.
  apply split_at_underscore in H as [_ H]; try apply Number_toString_no_underscore.
  apply Number_toString_inj in H. lia.
Qed.

Lemma chunk_ids_NoDup {A : Type} (source : jsstring) (l : list A) (k : nat) :
  NoDup (map_index_from (fun _ i => chunk_id Date_now source i) l k).
Proof.
  apply NoDup_ListNoDup, NoDup_nth_error. intros i j Hi Hij.
  rewrite !map_index_from_nth_error in Hij. rewrite map_index_from_length in Hi.
  destruct (nth_error l i) eqn:Ei; [|apply nth_error_None in Ei; lia].
  destruct (nth_error l j) eqn:Ej; [|discriminate].
  simpl in Hij. injection Hij as Hij. apply chunk_id_inj in Hij. lia.
Qed.

Lemma map_index_from_self {A : Type} (l : list A) (i : nat) :
  map_index_from (fun x _ => x) l i = l.
Proof. revert i. induction l as [|x l IH]; intros i; simpl; trivial. now rewrite IH. Qed.

Lemma map_map_index_from {A B C : Type} (g : B -> C) (f : A -> nat -> B) (l : list A) (k : nat) :
  map g (map_index_from f l k) = map_index_from (fun x i => g (f x i)) l k.
Proof. revert k. induction l as [|x l IH]; intros k; simpl; trivial. now rewrite IH. Qed.

(** Either way out of [processText]: it throws in the state it was called
    in, or every request was answered and the chunks are stored. *)
Lemma processText_of_outcome (rev : revision) (input source : jsstring) (s : Server) :
  (exists e,
      processText_of rev embeddings_create Date_now input source s = Some (Throw e, s)
      /\ embedding_fails embeddings_create (chunks_of rev input))
  \/ (exists vs,
        let processed :=
          map_index (fun chunk i =>
                       {| id := chunk_id Date_now source i;
                          text := chunk;
                          embedding := nth i vs [] |}) (chunks_of rev input) in
        Promise_all (requests_from embeddings_create (chunks_of rev input) 0) = Return vs
        /\ processText_of rev embeddings_create Date_now input source s
        = Some (Return (Z.of_nat (length (chunks_of rev input))),
                {| CHUNKS := CHUNKS s ++ processed;
                   DATA_FILE := Some (CHUNKS s ++ processed) |})).
Proof.
  destruct (Promise_all_cases (requests_from embeddings_create (chunks_of rev input) 0))
    as [[vs Hvs]|[e He]].
  - right. exists vs. split; [exact Hvs|].
    now destruct (processText_stores embeddings_create Date_now rev input source s vs Hvs).
  - left. exists e. unfold requests_from in He.
    split;
      [|apply requests_reject_iff, Promise_all_rejects; exists e; exact He].
    destruct rev; simpl in *.
    + apply processText_with_throws with (chunks := windows input 1500 300);
        [apply chunkText_run_enough; lia|].
      rewrite embedTextsBatch_sequential by lia. unfold embedTexts, map_index.
      now rewrite He.
    + apply processText_with_throws with (chunks := windows input 500 100);
        [apply chunkText_run_enough; lia|].
      unfold embedTexts, map_index. now rewrite He.
Qed.

(** X8. When [processText] returns, it returns the number of windows of
    the text; the store holds the chunks it held, followed by one chunk per
    window, in order: the chunk at position [i] has the [i]-th window as
    its text, the vector the provider returned for that window as its
    embedding, and the identifier built from the source, the clock and
    [i]; the file holds the whole store. *)
Theorem processText_appends (rev : revision) (input source : jsstring)
    (s s' : Server) (n : Z) :
  processText_of rev embeddings_create Date_now input source s = Some (Return n, s') ->
  exists processed : list Chunk,
    s' = {| CHUNKS := CHUNKS s ++ processed; DATA_FILE := Some (CHUNKS s ++ processed) |}
    /\ n = Z.of_nat (length processed)
    /\ length processed = length (chunks_of rev input)
    /\ forall i c, nth_error processed i = Some c ->
         nth_error (chunks_of rev input) i = Some (text c)
         /\ embeddings_create i (text c) = Return (embedding c)
         /\ id c = chunk_id Date_now source i.
Proof.
  intros Hrun.
  destruct (processText_of_outcome rev input source s) as [[e [He _]]|(vs & Hvs & Hret)].
  - rewrite He in Hrun. discriminate.
  - rewrite Hret in Hrun. injection Hrun as <- <-.
    eexists. split; [reflexivity|]. unfold map_index.
    rewrite map_index_from_length. split; [reflexivity|]. split; [reflexivity|].
    intros i c Hi. rewrite map_index_from_nth_error in Hi.
    destruct (nth_error (chunks_of rev input) i) as [t|] eqn:Ht; [|discriminate].
    simpl in Hi. injection Hi as <-. simpl.
    split; [reflexivity|]. split; [|reflexivity].
    apply Promise_all_returns in Hvs. unfold requests_from in Hvs.
    apply (f_equal (fun l => nth_error l i)) in Hvs.
    rewrite map_index_from_nth_error, Ht, nth_error_map in Hvs. simpl in Hvs.
    destruct (nth_error vs i) as [v|] eqn:Hv; [|discriminate].
    injection Hvs as ->. f_equal. symmetry. now apply nth_error_nth.
Qed.

(** X9. The chunks one call of [processText] stores have pairwise
    distinct identifiers, whatever the clock shows: the position of the
    chunk is the last component of its identifier. *)
Theorem processText_ids_distinct (rev : revision) (input source : jsstring)
    (s s' : Server) (n : Z) :
  processText_of rev embeddings_create Date_now input source s = Some (Return n, s') ->
  exists processed : list Chunk,
    CHUNKS s' = CHUNKS s ++ processed
    /\ n = Z.of_nat (length processed)
    /\ NoDup (map id processed).
Proof.
  intros Hrun.
  destruct (processText_of_outcome rev input source s) as [[e [He _]]|(vs & _ & Hvs)].
  - rewrite He in Hrun. discriminate.
  - rewrite Hvs in Hrun. injection Hrun as <- <-.
    eexists. split; [reflexivity|]. unfold map_index. split.
    + now rewrite map_index_from_length.
    + rewrite map_map_index_from. simpl. apply chunk_ids_NoDup.
Qed.
End IngestionMore.

(** ** The handlers [/upload-file], [/upload-website] and [/ask] *)

Section HandlerFacts.
Variable embeddings_create : nat -> jsstring -> completion (list float).
Variable Date_now : nat -> Z.
Variable chat_create : jsstring -> completion jsstring.

(** Either way out of [processText] of server.js. *)
Lemma processText_outcome (input source : jsstring) (s : Server) :
  (exists e,
      processText embeddings_create Date_now input source s = Some (Throw e, s)
      /\ embedding_fails embeddings_create (windows input 1500 300))
  \/ (exists new : list Chunk,
        processText embeddings_create Date_now input source s
        = Some (Return (Z.of_nat (length new)),
                {| CHUNKS := CHUNKS s ++ new; DATA_FILE := Some (CHUNKS s ++ new) |})
        /\ length new = length (windows input 1500 300)
        /\ map text new = windows input 1500 300).
Proof.
  destruct (processText_of_outcome embeddings_create Date_now Current input source s)
    as [He|(vs & _ & Hvs)]; [now left|right].
  simpl in Hvs.
  match type of Hvs with context [CHUNKS s ++ ?p] => exists p end.
  unfold map_index. split; [|split].
  - rewrite Hvs. unfold map_index. rewrite map_index_from_length. reflexivity.
  - apply map_index_from_length.
  - rewrite map_map_index_from. apply map_index_from_self.
Qed.

Lemma windows_nonempty (text : jsstring) (size overlap : Z) :
  0 < size - overlap -> text <> [] -> windows text size overlap <> [].
Proof.
  intros Hd Ht Hw. apply (f_equal (@length _)) in Hw.
  rewrite windows_length in Hw. simpl in Hw.
  assert (Hpos : (0 < window_count (Z.of_nat (length text)) (size - overlap))%nat).
  { apply window_count_lt; try lia. destruct text; [congruence|simpl; lia]. }
  lia.
Qed.

Lemma truthy_trim_nonempty (text : jsstring) : truthy (trim text) = true -> text <> [].
Proof. intros Ht ->. discriminate. Qed.

(** X10. What an answer of [/upload-file] tells.  An answer 200 is given
    only for a supported extension and an extracted text that is not
    blank; the store has then grown by the chunks of that text, at least
    one, the number reported is their number, and the file holds the whole
    store.  An answer 400 is given only for a request without a file, an
    extension that is not supported or an extracted text that is blank,
    and the state of the server is then the one before the request.
    Nothing is said of an answer 500, which is also what a failure after
    the ingestion leads to. *)
Theorem upload_file_outcome (file : option Upload) (s s' : Server) (resp : Response) :
  upload_file embeddings_create Date_now file s = Some (Return resp, s') ->
  (status resp = 200 ->
   exists f input new,
     file = Some f /\ supported (upload_ext f) = true
     /\ upload_extracted f = Return input /\ trim input <> []
     /\ new <> []
     /\ map text new = windows input 1500 300
     /\ body resp = FileIndexed (Z.of_nat (length new)) (upload_ext f)
     /\ CHUNKS s' = CHUNKS s ++ new
     /\ DATA_FILE s' = Some (CHUNKS s'))
  /\ (status resp = 400 ->
      s' = s
      /\ (file = None
          \/ exists f,
               file = Some f
               /\ (supported (upload_ext f) = false
                   \/ exists input, upload_extracted f = Return input /\ trim input = []))).
Proof.
  unfold upload_file, try_catch.
  destruct file as [f|];
    [|intros [= <- <-]; split; intros H; [discriminate H|auto]].
  destruct (supported (upload_ext f)) eqn:Hsup;
    [|intros [= <- <-]; split; intros H; [discriminate H|]; split; [reflexivity|];
      right; exists f; auto].
  unfold bind at 1. unfold await at 1.
  destruct (upload_extracted f) as [input|e] eqn:Hext;
    [|intros [= <- <-]; split; intros H; discriminate H].
  destruct (truthy (trim input)) eqn:Htext; cbn [negb]; cbv beta iota.
  - unfold bind; cbv beta.
    destruct (processText_outcome input (toUpperCase (upload_ext f)) s)
      as [[e [-> _]]|(new & -> & Hlen & Htexts)];
      intros [= <- <-]; split; intros H; try discriminate H.
    exists f, input, new. simpl. repeat split; trivial.
    + intros Hb. now rewrite Hb in Htext.
    + intros ->. apply (windows_nonempty input 1500 300);
        [lia| |now destruct (windows input 1500 300)].
      now apply truthy_trim_nonempty.
  - intros [= <- <-]; split; intros H; [discriminate H|]. split; [reflexivity|].
    right. exists f. split; [reflexivity|]. right. exists input. split; [exact Hext|].
    now destruct (trim input).
Qed.

(** X11. What an answer of [/upload-website] tells.  An answer 200 is given
    only for a non-empty URL whose page was fetched and has a body text
    that is not blank; the store has then grown by the chunks of that text
    with its runs of white space collapsed and its ends trimmed, at least
    one, the number reported is their number, and the file holds the whole
    store.  An answer 400 is given only for an empty URL or a fetched page
    whose body text is blank, and the state of the server is then the one
    before the request.  Nothing is said of an answer 500. *)
Theorem upload_website_outcome (url : jsstring) (fetched : completion jsstring)
    (s s' : Server) (resp : Response) :
  upload_website embeddings_create Date_now url fetched s = Some (Return resp, s') ->
  (status resp = 200 ->
   exists data new,
     url <> [] /\ fetched = Return data
     /\ trim data <> []
     /\ new <> []
     /\ map text new = windows (trim (collapse_whitespace false data)) 1500 300
     /\ body resp = WebsiteIndexed (Z.of_nat (length new)) url
     /\ CHUNKS s' = CHUNKS s ++ new
     /\ DATA_FILE s' = Some (CHUNKS s'))
  /\ (status resp = 400 ->
      s' = s
      /\ (url = []
          \/ exists data,
               fetched = Return data /\ trim (collapse_whitespace false data) = [])).
Proof.
  unfold upload_website, try_catch.
  destruct (truthy url) eqn:Hurl; cbn [negb]; cbv beta iota;
    [|intros [= <- <-]; split; intros H; [discriminate H|]; split; [reflexivity|];
      left; now destruct url].
  unfold bind at 1. unfold await at 1.
  destruct fetched as [data|e];
    [|intros [= <- <-]; split; intros H; discriminate H].
  destruct (truthy (trim (collapse_whitespace false data))) eqn:Htext;
    cbn [negb]; cbv beta iota.
  - unfold bind; cbv beta.
    destruct (processText_outcome (trim (collapse_whitespace false data))
                (of_string "website") s)
      as [[e [-> _]]|(new & -> & Hlen & Htexts)];
      intros [= <- <-]; split; intros H; try discriminate H.
    exists data, new. simpl. repeat split; trivial.
    + intros ->. discriminate.
    + intros Hb. apply trim_collapse_blank in Hb. now rewrite Hb in Htext.
    + intros ->.
      apply (windows_nonempty (trim (collapse_whitespace false data)) 1500 300);
        [lia| |now destruct (windows _ 1500 300)].
      intros Hb. now rewrite Hb in Htext.
  - intros [= <- <-]; split; intros H; [discriminate H|]. split; [reflexivity|].
    right. exists data. split; [reflexivity|].
    now destruct (trim (collapse_whitespace false data)).
Qed.

(** X12. What an answer of [/ask] tells.  Whatever the answer, the state of
    the server is the one before the request.  The answer is 400 exactly
    when the question is empty or nothing is indexed.  An answer 200 is
    given only when the embedding request for the question was answered,
    and it cites [min 5 (number of stored chunks)] identifiers, each the
    identifier of a stored chunk. *)
Theorem ask_outcome (question : jsstring) (s s' : Server) (resp : Response) :
  ask embeddings_create chat_create question s = Some (Return resp, s') ->
  s' = s
  /\ (status resp = 400 <-> question = [] \/ CHUNKS s = [])
  /\ (status resp = 200 ->
      exists qEmbed answer sources,
        embeddings_create 0%nat question = Return qEmbed
        /\ body resp = Answered answer sources
        /\ Z.of_nat (length sources) = Z.min 5 (Z.of_nat (length (CHUNKS s)))
        /\ forall i, In i sources -> In i (map id (CHUNKS s))).
Proof.
  unfold ask, try_catch.
  destruct question as [|c q].
  { intros [= <- <-]. split; [reflexivity|]. split; [split; auto|]. intros H; discriminate H. }
  change (negb (truthy (c :: q))) with false. cbv beta iota.
  destruct (CHUNKS s) as [|c0 store] eqn:Hstore.
  { intros [= <- <-]. split; [reflexivity|]. split; [split; auto|]. intros H; discriminate H. }
  change (Z.of_nat (length (c0 :: store)) =? 0) with false. cbv beta iota.
  assert (Hno : ~ (c :: q = [] \/ c0 :: store = [])) by (intros [H|H]; discriminate H).
  unfold bind, await, ret.
  destruct (embeddings_create 0%nat (c :: q)) as [qEmbed|e] eqn:Hq;
    [destruct (chat_create _) as [answer|e] eqn:Hchat|];
    intros [= <- <-]; (split; [reflexivity|]);
    (split; [split; [intros H; discriminate H|intros H; now apply Hno in H]|]);
    intros H; try discriminate H.
  exists qEmbed, answer. eexists. split; [reflexivity|]. split; [reflexivity|].
  rewrite <- Hstore. split.
  - rewrite length_map. unfold ranked. now apply rankTop_length.
  - intros i Hi. apply in_map_iff in Hi as (r & <- & Hr).
    unfold ranked, rankTop in Hr. rewrite slice_prefix in Hr by lia.
    assert (Hs : In r (sort (map (scored qEmbed) (CHUNKS s))))
      by (rewrite <- (firstn_skipn (Z.to_nat 5) (sort _)); apply in_or_app; now left).
    apply (Permutation_in _ (sort_perm _)) in Hs. rename Hs into Hr'. clear Hr.
    rename Hr' into Hr.
    apply in_map_iff in Hr as (ch & <- & Hch). simpl. now apply in_map.
Qed.
End HandlerFacts.

(** ** The text taken from a page *)

Section Normalisation.
Lemma collapse_single_spaced (b : bool) (s : jsstring) :
  single_spaced b (collapse_whitespace b s) = true.
Proof.
  revert b. induction s as [|c s IH]; intros b; simpl; trivial.
  destruct (is_whitespace c) eqn:Hc.
  - destruct b; [apply IH|]. simpl. apply IH.
  - simpl. rewrite Hc. apply IH.
Qed.

Lemma single_spaced_weaken (b : bool) (s : jsstring) :
  single_spaced b s = true -> single_spaced false s = true.
Proof.
  destruct s as [|c s]; simpl; trivial.
  destruct (is_whitespace c); trivial.
  intros [[-> _]%andb_prop ->]%andb_prop. reflexivity.
Qed.

Lemma single_spaced_app (b : bool) (s1 s2 : jsstring) :
  single_spaced b (s1 ++ s2) = true -> single_spaced b s1 = true.
Proof.
  revert b. induction s1 as [|c s1 IH]; intros b; simpl; trivial.
  destruct (is_whitespace c).
  - intros [-> H]%andb_prop. simpl. eauto.
  - apply IH.
Qed.

Lemma trimStart_split (s : jsstring) :
  exists pre, s = pre ++ trimStart s /\ forallb is_whitespace pre = true.
Proof.
  induction s as [|c s (pre & Hs & Hpre)]; simpl.
  - now exists [].
  - destruct (is_whitespace c) eqn:Hc.
    + exists (c :: pre). simpl. rewrite Hc, Hpre. split; [now f_equal|reflexivity].
    + now exists [].
Qed.

Lemma single_spaced_trimStart (b : bool) (s : jsstring) :
  single_spaced b s = true -> single_spaced false (trimStart s) = true.
Proof.
  revert b. induction s as [|c s IH]; intros b; simpl; trivial.
  destruct (is_whitespace c) eqn:Hc.
  - intros [_ H]%andb_prop. eauto.
  - intros H. simpl. now rewrite Hc.
Qed.

(** [trim s] is [trimStart s] without the white space at its end. *)
Lemma trim_split (s : jsstring) :
  exists post, trimStart s = trim s ++ post /\ forallb is_whitespace post = true.
Proof.
  unfold trim. destruct (trimStart_split (rev (trimStart s))) as (pre & Hs & Hpre).
  exists (rev pre). split.
  - rewrite <- rev_app_distr, <- Hs. now rewrite rev_involutive.
  - rewrite forallb_forall in *. intros c Hc. apply Hpre. now apply in_rev.
Qed.

Lemma trim_head (s r : jsstring) (c : code_unit) :
  trim s = c :: r -> is_whitespace c = false.
Proof.
  intros Ht. destruct (trim_split s) as (post & Hs & _).
  rewrite Ht in Hs. simpl in Hs. eapply trimStart_head; eauto.
Qed.

Lemma trim_last (s r : jsstring) (c : code_unit) :
  trim s = r ++ [c] -> is_whitespace c = false.
Proof.
  unfold trim. intros Ht.
  apply (f_equal (@rev code_unit)) in Ht.
  rewrite rev_involutive, rev_app_distr in Ht. simpl in Ht.
  eapply trimStart_head; eauto.
Qed.

Lemma visible_app (s1 s2 : jsstring) : visible (s1 ++ s2) = visible s1 ++ visible s2.
Proof. apply List.filter_app. Qed.

Lemma visible_blank (s : jsstring) : forallb is_whitespace s = true -> visible s = [].
Proof.
  induction s as [|c s IH]; simpl; trivial.
  intros [-> H]%andb_prop. simpl. auto.
Qed.

Lemma visible_trimStart (s : jsstring) : visible (trimStart s) = visible s.
Proof.
  destruct (trimStart_split s) as (pre & Hs & Hpre).
  rewrite Hs at 2. now rewrite visible_app, (visible_blank pre).
Qed.

Lemma visible_trim (s : jsstring) : visible (trim s) = visible s.
Proof.
  destruct (trim_split s) as (post & Hs & Hpost).
  rewrite <- (visible_trimStart s), Hs, visible_app, (visible_blank post) by trivial.
  now rewrite app_nil_r.
Qed.

Lemma visible_collapse (b : bool) (s : jsstring) :
  visible (collapse_whitespace b s) = visible s.
Proof.
  revert b. induction s as [|c s IH]; intros b; simpl; trivial.
  destruct (is_whitespace c) eqn:Hc; simpl.
  - destruct b; simpl; apply IH.
  - rewrite Hc. simpl. now rewrite IH.
Qed.

Lemma collapse_fixed (b : bool) (s : jsstring) :
  single_spaced b s = true -> collapse_whitespace b s = s.
Proof.
  revert b. induction s as [|c s IH]; intros b; simpl; trivial.
  destruct (is_whitespace c).
  - intros [[->%N.eqb_eq Hb]%andb_prop Hs]%andb_prop.
    destruct b; [discriminate|]. now rewrite IH.
  - intros Hs. now rewrite IH.
Qed.

Lemma trimStart_fixed (s : jsstring) :
  (forall c r, s = c :: r -> is_whitespace c = false) -> trimStart s = s.
Proof.
  destruct s as [|c s]; simpl; trivial.
  intros H. now rewrite (H c s eq_refl).
Qed.

Lemma trim_fixed (s : jsstring) :
  (forall c r, s = c :: r -> is_whitespace c = false) ->
  (forall c r, s = r ++ [c] -> is_whitespace c = false) ->
  trim s = s.
Proof.
  intros Hhead Hlast. unfold trim. rewrite (trimStart_fixed s) by trivial.
  rewrite trimStart_fixed; [apply rev_involutive|].
  intros c r Hr. apply (Hlast c (rev r)).
  rewrite <- (rev_involutive s), Hr. reflexivity.
Qed.

(** X13. The text [/upload-website] and the crawl take from the body of a
    page, [text.replace(/\s+/g, " ").trim()]: its code units that are not
    white space are those of the body, in order; its white space is single
    spaces, none next to another; it neither starts nor ends with white
    space; and normalising it again changes nothing. *)
Theorem normalised_body_text (s : jsstring) :
  let r := trim (collapse_whitespace false s) in
  visible r = visible s
  /\ single_spaced false r = true
  /\ (forall c l, r = c :: l -> is_whitespace c = false)
  /\ (forall c l, r = l ++ [c] -> is_whitespace c = false)
  /\ trim (collapse_whitespace false r) = r.
Proof.
  intros r.
  assert (Hss : single_spaced false r = true).
  { destruct (trim_split (collapse_whitespace false s)) as (post & Hs & _).
    pose proof (collapse_single_spaced false s) as Hc.
    apply single_spaced_trimStart in Hc. rewrite Hs in Hc.
    now apply single_spaced_app in Hc. }
  assert (Hhead : forall c l, r = c :: l -> is_whitespace c = false)
    by (intros c l; apply trim_head).
  assert (Hlast : forall c l, r = l ++ [c] -> is_whitespace c = false)
    by (intros c l; apply trim_last).
  split; [|split; [|split; [|split]]]; trivial.
  - unfold r. now rewrite visible_trim, visible_collapse.
  - rewrite collapse_fixed by trivial. now apply trim_fixed.
Qed.
End Normalisation.

Section ExtractText.
Lemma join_nonempty (sep p : jsstring) (rest : list jsstring) :
  p <> [] -> join sep (p :: rest) <> [].
Proof.
  intros Hp. destruct rest; simpl; trivial.
  destruct p; [congruence|discriminate].
Qed.

Lemma filter_truthy_nil (l : list jsstring) :
  List.filter truthy l = [] <-> Forall (fun s => s = []) l.
Proof.
  induction l as [|s l IH]; simpl; [split; auto|].
  destruct s as [|ch s]; simpl.
  - rewrite IH. split; [now constructor|now intros H; inversion H].
  - split; [discriminate|]. intros H. inversion H. discriminate.
Qed.

Lemma filter_truthy_head (l : list jsstring) (p : jsstring) (rest : list jsstring) :
  List.filter truthy l = p :: rest -> p <> [].
Proof.
  intros Hf.
  assert (Hin : In p (List.filter truthy l)) by (rewrite Hf; now left).
  apply filter_In in Hin as [_ Ht]. now destruct p.
Qed.

Lemma collapse_blank_inv (b : bool) (s : jsstring) :
  forallb is_whitespace (collapse_whitespace b s) = true -> forallb is_whitespace s = true.
Proof.
  revert b. induction s as [|c s IH]; intros b; simpl; trivial.
  destruct (is_whitespace c) eqn:Hc; simpl.
  - destruct b; simpl; apply IH.
  - now rewrite Hc.
Qed.

(** X14. The text of a page is empty, and the crawl then records nothing
    for it, exactly when the title is empty, the headings joined by line
    feeds are empty and the body holds white space only. *)
Theorem extract_text_empty_iff (d : Document) :
  extract_text d = []
  <-> doc_title d = []
      /\ join [10%N] (doc_headings d) = []
      /\ forallb is_whitespace (doc_body d) = true.
Proof.
  unfold extract_text. split.
  - intros He.
    destruct (List.filter truthy _) as [|p rest] eqn:Hf.
    + apply filter_truthy_nil in Hf.
      inversion Hf as [|? ? Ht Hf1]; subst. inversion Hf1 as [|? ? Hh Hf2]; subst.
      inversion Hf2 as [|? ? Hb _]; subst.
      repeat split; trivial.
      rewrite trim_blank in Hb. now apply collapse_blank_inv in Hb.
    + exfalso. apply filter_truthy_head in Hf as Hp.
      now apply (join_nonempty [10; 10]%N p rest).
  - intros (-> & -> & Hb).
    apply trim_blank, trim_collapse_blank in Hb. rewrite Hb. reflexivity.
Qed.
End ExtractText.

(** ** The records of a crawl *)

Section CrawlerPages.
Variable resolve : jsstring -> jsstring -> jsstring.
Variable site : jsstring -> completion Document.
Variable baseUrl : jsstring.
Variable maxPages : Z.

Lemma crawl_enter_pages_ok (url : jsstring) (c : Crawl) :
  requests_ok baseUrl c -> pages_ok site c -> pages_ok site (crawl_enter maxPages url c).
Proof.
  intros (_ & Hvis & _) (Hnd & Hreq & Hrec). unfold crawl_enter.
  destruct (bool_decide (url ∈ visited c)) eqn:Hin; simpl; [now repeat split|].
  destruct (maxPages <=? Z.of_nat (length (pages c))); [now repeat split|].
  apply bool_decide_eq_false in Hin.
  assert (Hnew : ~ In url (map page_url (pages c) ++ inflight c)).
  { intros Hu. apply Hin, Hvis, Hreq, Hu. }
  repeat split; simpl; trivial.
  - rewrite app_assoc, <- Permutation_cons_append.
    apply NoDup_cons. split; trivial. now rewrite list_elem_of_In.
  - intros u Hu. rewrite app_assoc in Hu.
    apply in_app_or in Hu as [Hu | [<- | []]]; apply in_or_app; [left; auto|right; simpl; auto].
Qed.

Lemma follow_links_pages_ok (links : list jsstring) (c : Crawl) :
  requests_ok baseUrl c -> pages_ok site c ->
  pages_ok site (fold_left (follow_link resolve baseUrl maxPages) links c).
Proof.
  revert c. induction links as [|l links IH]; intros c Hc Hp; simpl; trivial.
  apply IH; [now apply follow_link_ok|].
  unfold follow_link. destruct (link_target resolve baseUrl l); trivial.
  now apply crawl_enter_pages_ok.
Qed.

Lemma crawl_resume_pages_ok (url : jsstring) (c : Crawl) :
  requests_ok baseUrl c -> pages_ok site c ->
  In url (requested c) -> ~ In url (map page_url (pages c) ++ inflight c) ->
  pages_ok site (crawl_resume resolve site baseUrl maxPages url c).
Proof.
  intros Hc (Hnd & Hreq & Hrec) Hurl Hnew. unfold crawl_resume.
  destruct (site url) as [d|e] eqn:Hsite; [|now repeat split].
  apply follow_links_pages_ok.
  - destruct (truthy (extract_text d)); trivial.
  - destruct (truthy (extract_text d)) eqn:Ht; [|now repeat split].
    repeat split; simpl.
    + rewrite map_app, <- app_assoc. simpl. rewrite <- Permutation_middle.
      apply NoDup_cons. split; trivial. now rewrite list_elem_of_In.
    + intros u Hu. rewrite map_app, <- app_assoc in Hu. simpl in Hu.
      apply in_app_or in Hu as [Hu | [<- | Hu]]; trivial; apply Hreq, in_or_app; auto.
    + apply Forall_app. split; trivial. constructor; [|constructor]. simpl. split.
      * intros He. now rewrite He in Ht.
      * now exists d.
Qed.

Lemma remove_at_perm {A : Type} (k : nat) (l : list A) (x : A) :
  nth_error l k = Some x -> Permutation l (x :: remove_at k l).
Proof.
  intros Hk. unfold remove_at.
  rewrite <- (firstn_skipn k l) at 1.
  assert (Hs : skipn k l = x :: skipn (S k) l).
  { revert l Hk. induction k as [|k IH]; intros [|y l] Hk; simpl in *; try discriminate.
    - now injection Hk as ->.
    - now apply IH. }
  rewrite Hs. symmetry. apply Permutation_middle.
Qed.

Lemma answer_pages_ok (k : nat) (c c' : Crawl) :
  answer resolve site baseUrl maxPages k c = Some c' ->
  requests_ok baseUrl c -> pages_ok site c -> pages_ok site c'.
Proof.
  unfold answer. destruct (nth_error (inflight c) k) as [u|] eqn:Hk; [|discriminate].
  intros [= <-] Hc (Hnd & Hreq & Hrec).
  assert (Hperm : Permutation (map page_url (pages c) ++ inflight c)
                    (u :: (map page_url (pages c) ++ remove_at k (inflight c)))).
  { etransitivity; [|apply Permutation_sym, Permutation_middle].
    apply Permutation_app_head. now apply remove_at_perm. }
  rewrite Hperm in Hnd.
  apply NoDup_cons in Hnd as [Hnew Hnd']. rewrite list_elem_of_In in Hnew.
  apply crawl_resume_pages_ok; simpl; trivial.
  - repeat split; simpl; trivial.
    intros v Hv. apply Hreq. apply (Permutation_in _ (Permutation_sym Hperm)). now right.
  - apply Hreq. apply (Permutation_in _ (Permutation_sym Hperm)). now left.
Qed.

Lemma run_pages_ok (schedule : list nat) (c c' : Crawl) :
  run resolve site baseUrl maxPages schedule c = Some c' ->
  requests_ok baseUrl c -> pages_ok site c -> pages_ok site c'.
Proof.
  revert c. induction schedule as [|k rest IH]; intros c; simpl.
  - now intros [= <-].
  - destruct (answer _ _ _ _ k c) as [c1|] eqn:Ha; [|discriminate].
    intros Hrun Hc Hp. eapply IH; eauto using answer_ok, answer_pages_ok.
Qed.

Lemma crawl_start_pages_ok (visited0 : gset jsstring) :
  pages_ok site (crawl_start baseUrl maxPages visited0).
Proof.
  unfold crawl_start, crawl_enter. simpl.
  destruct (bool_decide (baseUrl ∈ visited0) || (maxPages <=? Z.of_nat 0));
    repeat split; simpl; auto; try apply NoDup_nil_2; try apply NoDup_singleton.
Qed.

Lemma crawlWebsite_pages_ok (visited0 : gset jsstring) :
  pages_ok site (crawlWebsite resolve site baseUrl maxPages visited0).
Proof.
  unfold crawlWebsite.
  destruct (answer _ _ _ _ 0%nat _) as [c|] eqn:Ha.
  - eapply answer_pages_ok; eauto using crawl_start_ok, crawl_start_pages_ok.
  - apply crawl_start_pages_ok.
Qed.

(** X15. In every state a crawl can reach, no URL has two records, no
    recorded URL is still in flight, and the records and the requests in
    flight together are no more than the requests made; every record is for
    a URL that was requested and starts with [baseUrl], and holds the text
    extracted from the document served for that URL, which is not empty. *)
Theorem crawl_pages_sound (visited0 : gset jsstring) (schedule : list nat) (c : Crawl) :
  crawl_later resolve site baseUrl maxPages visited0 schedule = Some c ->
  NoDup (map page_url (pages c))
  /\ (length (pages c) + length (inflight c) <= length (requested c))%nat
  /\ Forall (fun p => In (page_url p) (requested c)
                      /\ ~ In (page_url p) (inflight c)
                      /\ startsWith (page_url p) baseUrl = true
                      /\ page_text p <> []
                      /\ exists d, site (page_url p) = Return d
                                   /\ page_text p = extract_text d)
            (pages c).
Proof.
  intros Hrun.
  assert (Hc : requests_ok baseUrl c) by (eapply crawl_later_ok; eauto).
  assert (Hp : pages_ok site c)
    by (eapply run_pages_ok; eauto using crawlWebsite_ok, crawlWebsite_pages_ok).
  destruct Hc as (_ & _ & Hscope). destruct Hp as (Hnd & Hreq & Hrec).
  split; [|split].
  - now apply NoDup_app in Hnd as [Hnd _].
  - rewrite <- (length_map page_url), <- length_app.
    apply NoDup_ListNoDup in Hnd. now apply NoDup_incl_length.
  - rewrite List.Forall_forall in *. intros p Hp.
    assert (Hu : In (page_url p) (map page_url (pages c))) by now apply in_map.
    destruct (Hrec p Hp) as [Htext Hdoc].
    repeat split; trivial.
    + apply Hreq, in_or_app. now left.
    + intros Hin. apply NoDup_app in Hnd as (_ & Hdis & _).
      apply (Hdis (page_url p)); now apply list_elem_of_In.
    + apply Hscope, Hreq, in_or_app. now left.
Qed.

Lemma before_hash_app (l frag : jsstring) :
  before_hash (l ++ 35%N :: frag) = before_hash l.
Proof.
  induction l as [|c l IH]; simpl; [reflexivity|].
  destruct (c =? 35)%N; [reflexivity|now rewrite IH].
Qed.

(** X16. A fragment does not change where a link leads: a non-empty
    [href] followed by [#] and anything is passed to [crawl] as the [href]
    alone is. *)
Theorem link_target_ignores_fragment (link frag : jsstring) :
  link <> [] ->
  link_target resolve baseUrl (link ++ 35%N :: frag) = link_target resolve baseUrl link.
Proof.
  intros Hl. unfold link_target. rewrite before_hash_app.
  destruct link as [|c link]; [congruence|reflexivity].
Qed.
End CrawlerPages.

(** ** The links a crawl follows *)

Section CrawlerLinks.
Variable resolve : jsstring -> jsstring -> jsstring.
Variable site : jsstring -> completion Document.
Variable baseUrl : jsstring.
Variable maxPages : Z.
Variable visited0 : gset jsstring.

(** What the calls of [crawl] for the links of a page add. *)
Lemma follow_links_effect (links : list jsstring) :
  forall c : Crawl,
  exists new : list jsstring,
    requested (fold_left (follow_link resolve baseUrl maxPages) links c) = requested c ++ new
    /\ inflight (fold_left (follow_link resolve baseUrl maxPages) links c) = inflight c ++ new
    /\ (forall r, (r ∈ visited (fold_left (follow_link resolve baseUrl maxPages) links c))
                  <-> (r ∈ visited c) \/ In r new)
    /\ (forall r, In r new ->
          (r ∉ visited c)
          /\ exists l, In l links /\ link_target resolve baseUrl l = Some r)
    /\ (Z.of_nat (length (pages c)) < maxPages ->
        forall l r, In l links -> link_target resolve baseUrl l = Some r ->
                    r ∈ visited (fold_left (follow_link resolve baseUrl maxPages) links c)).
Proof.
  induction links as [|l links IH]; intros c; simpl.
  - exists []. rewrite !app_nil_r.
    split; [reflexivity|]. split; [reflexivity|]. split; [|split].
    + intros r. simpl. tauto.
    + intros r [].
    + intros _ l r [].
  - destruct (IH (follow_link resolve baseUrl maxPages c l))
      as (new & Hreq & Hfl & Hvis & Hnew & Hcov).
    unfold follow_link in *.
    destruct (link_target resolve baseUrl l) as [t|] eqn:Ht.
    + unfold crawl_enter in *.
      destruct (bool_decide (t ∈ visited c)) eqn:Hin; simpl in *.
      * apply bool_decide_eq_true in Hin.
        exists new. split; [exact Hreq|]. split; [exact Hfl|]. split; [exact Hvis|].
        split.
        -- intros r Hr. destruct (Hnew r Hr) as (Hnv & l' & Hl' & Hlt). eauto.
        -- intros Hroom l' r [<-|Hl'] Hlt.
           ++ rewrite Ht in Hlt. injection Hlt as <-. apply Hvis. now left.
           ++ eapply Hcov; eauto.
      * apply bool_decide_eq_false in Hin.
        destruct (maxPages <=? Z.of_nat (length (pages c))) eqn:Hfull; simpl in *.
        -- exists new. split; [exact Hreq|]. split; [exact Hfl|]. split; [exact Hvis|].
           split.
           ++ intros r Hr. destruct (Hnew r Hr) as (Hnv & l' & Hl' & Hlt). eauto.
           ++ intros Hroom. apply Z.leb_le in Hfull. lia.
        -- exists (t :: new). rewrite Hreq, Hfl, <- !app_assoc. simpl.
           split; [reflexivity|]. split; [reflexivity|]. split; [|split].
           ++ intros r. rewrite Hvis, elem_of_union, elem_of_singleton.
              intuition congruence.
           ++ intros r [<-|Hr]; [split; eauto|].
              destruct (Hnew r Hr) as (Hnv & l' & Hl' & Hlt). split; [|eauto].
              intros Hc. apply Hnv, elem_of_union. now left.
           ++ intros Hroom l' r [<-|Hl'] Hlt.
              ** rewrite Ht in Hlt. injection Hlt as <-. apply Hvis. left.
                 apply elem_of_union. right. now apply elem_of_singleton.
              ** eapply Hcov; eauto.
    + exists new. split; [exact Hreq|]. split; [exact Hfl|]. split; [exact Hvis|].
      split.
      * intros r Hr. destruct (Hnew r Hr) as (Hnv & l' & Hl' & Hlt). eauto.
      * intros Hroom l' r [<-|Hl'] Hlt; [congruence|]. eapply Hcov; eauto.
Qed.

Lemma in_remove_at {A : Type} (k : nat) (l : list A) (x u : A) :
  nth_error l k = Some x -> In u l <-> u = x \/ In u (remove_at k l).
Proof.
  intros Hk. apply remove_at_perm in Hk. split.
  - intros Hu. apply (Permutation_in _ Hk) in Hu. destruct Hu; auto.
  - intros Hu. apply (Permutation_in _ (Permutation_sym Hk)). destruct Hu; [left|right]; auto.
Qed.

Lemma answer_links_ok (k : nat) (c c' : Crawl) :
  answer resolve site baseUrl maxPages k c = Some c' ->
  requests_ok baseUrl c -> pages_ok site c ->
  links_ok resolve site baseUrl maxPages visited0 c ->
  links_ok resolve site baseUrl maxPages visited0 c'.
Proof.
  unfold answer. destruct (nth_error (inflight c) k) as [u|] eqn:Hk; [|discriminate].
  intros [= <-] (_ & Hvisited & _) (Hnd & Hreq & _) (Hmark & Hreach & Hrec & Hcov).
  assert (Hu : In u (requested c)).
  { apply Hreq, in_or_app. right. apply (in_remove_at k _ u u Hk). now left. }
  assert (Hrest : ~ In u (remove_at k (inflight c))).
  { apply NoDup_app in Hnd as (_ & _ & Hnd).
    rewrite (remove_at_perm k _ u Hk) in Hnd. apply NoDup_cons in Hnd as [Hnu _].
    now rewrite list_elem_of_In in Hnu. }
  assert (Hleft : forall v, In v (requested c) -> ~ In v (remove_at k (inflight c)) ->
                            (In v (requested c) /\ ~ In v (inflight c)) \/ v = u).
  { intros v Hv Hnv. destruct (decide (v = u)) as [->|Hne]; [now right|left].
    split; trivial. rewrite (in_remove_at k _ u v Hk). tauto. }
  unfold crawl_resume. destruct (site u) as [d|e] eqn:Hsite.
  - set (c1 := if truthy (extract_text d) then _ else _).
    assert (Hc1 : visited c1 = visited c /\ requested c1 = requested c
                  /\ inflight c1 = remove_at k (inflight c)
                  /\ (exists more, pages c1 = pages c ++ more)
                  /\ (extract_text d <> [] -> In u (map page_url (pages c1)))).
    { unfold c1. destruct (truthy (extract_text d)) eqn:Ht; simpl.
      - repeat split; eauto. intros _. rewrite map_app. apply in_or_app. right. now left.
      - repeat split; [exists []; now rewrite app_nil_r|].
        intros Hne. destruct (extract_text d); [congruence|discriminate]. }
    destruct Hc1 as (Hv1 & Hr1 & Hi1 & [more Hp1] & Hpush).
    destruct (follow_links_effect (doc_hrefs d) c1) as (new & Hreq' & Hfl' & Hvis' & Hnew & Hcov').
    pose proof (follow_links_pages resolve baseUrl maxPages (doc_hrefs d) c1) as Hpages'.
    set (c' := fold_left (follow_link resolve baseUrl maxPages) (doc_hrefs d) c1) in *.
    rewrite Hr1 in Hreq'. rewrite Hi1 in Hfl'. rewrite Hv1 in Hnew.
    assert (Hfresh : forall v, In v (requested c) -> ~ In v new).
    { intros v Hv Hn. apply Hnew in Hn as [Hn _]. apply Hn, Hvisited, Hv. }
    assert (Hans : forall v, answered c' v <-> answered c v \/ v = u).
    { intros v. unfold answered. rewrite Hreq', Hfl'. split.
      - intros [Hv Hnv]. apply in_app_or in Hv as [Hv|Hv].
        + apply Hleft; trivial. intros Hin. apply Hnv, in_or_app. now left.
        + exfalso. apply Hnv, in_or_app. now right.
      - intros [[Hv Hnv]| ->].
        + split; [apply in_or_app; now left|].
          intros [Hin|Hin]%in_app_or; [|now apply (Hfresh v)].
          apply Hnv. apply (in_remove_at k _ u v Hk). now right.
        + split; [apply in_or_app; now left|].
          intros [Hin|Hin]%in_app_or; [now apply Hrest|now apply (Hfresh u)]. }
    split; [|split; [|split]].
    + intros r Hr. apply Hvis' in Hr. rewrite Hv1 in Hr. rewrite Hreq'.
      destruct Hr as [Hr|Hr]; [|right; apply in_or_app; now right].
      destruct (Hmark r Hr); [now left|right; apply in_or_app; now left].
    + rewrite Hreq'. apply Forall_app. split; trivial.
      apply List.Forall_forall. intros r Hr. apply Hnew in Hr as (_ & l & Hl & Hlt).
      rewrite List.Forall_forall in Hreach.
      eapply reachable_link; eauto.
    + intros v d' Hv Hd Htext. rewrite Hpages'. apply Hans in Hv as [Hv| ->].
      * rewrite Hp1, map_app. apply in_or_app. left. eauto.
      * rewrite Hsite in Hd. injection Hd as <-. auto.
    + intros Hroom r (v & d' & l & Hv & Hd & Hl & Hlt).
      rewrite Hpages' in Hroom. apply Hans in Hv as [Hv| ->].
      * apply Hvis'. left. rewrite Hv1. apply Hcov.
        -- rewrite Hp1, length_app in Hroom. lia.
        -- now exists v, d', l.
      * rewrite Hsite in Hd. injection Hd as <-. eapply Hcov'; eauto.
  - simpl. split; [|split; [|split]]; simpl; trivial.
    + intros v d' [Hv Hnv] Hd Htext. destruct (Hleft v Hv Hnv) as [Hans| ->].
      * eauto.
      * congruence.
    + intros Hroom r (v & d' & l & [Hv Hnv] & Hd & Hl & Hlt). simpl in *.
      destruct (Hleft v Hv Hnv) as [Hans| ->]; [|congruence].
      apply Hcov; trivial. now exists v, d', l.
Qed.

Lemma run_links_ok (schedule : list nat) (c c' : Crawl) :
  run resolve site baseUrl maxPages schedule c = Some c' ->
  requests_ok baseUrl c -> pages_ok site c ->
  links_ok resolve site baseUrl maxPages visited0 c ->
  links_ok resolve site baseUrl maxPages visited0 c'.
Proof.
  revert c. induction schedule as [|k rest IH]; intros c; simpl.
  - now intros [= <-].
  - destruct (answer _ _ _ _ k c) as [c1|] eqn:Ha; [|discriminate].
    intros Hrun Hc Hp Hl. eapply IH; eauto using answer_ok, answer_pages_ok, answer_links_ok.
Qed.

Lemma crawl_start_links_ok :
  links_ok resolve site baseUrl maxPages visited0 (crawl_start baseUrl maxPages visited0).
Proof.
  unfold crawl_start, crawl_enter. simpl.
  destruct (bool_decide (baseUrl ∈ visited0) || (maxPages <=? Z.of_nat 0)); simpl.
  - split; [auto|]. split; [constructor|]. split.
    + intros u d [[] _].
    + intros _ r (u & d & l & [[] _] & _).
  - split; [|split; [|split]]; simpl.
    + intros r [Hr| ->%elem_of_singleton]%elem_of_union; auto.
    + repeat constructor.
    + intros u d [Hu Hnu]. contradiction.
    + intros _ r (u & d & l & [Hu Hnu] & _). contradiction.
Qed.

Lemma crawl_later_links_ok (schedule : list nat) (c : Crawl) :
  crawl_later resolve site baseUrl maxPages visited0 schedule = Some c ->
  links_ok resolve site baseUrl maxPages visited0 c.
Proof.
  unfold crawl_later, crawlWebsite.
  destruct (answer _ _ _ _ 0%nat _) as [c1|] eqn:Ha; intros Hrun.
  - eapply run_links_ok; eauto.
    + eapply answer_ok; eauto using crawl_start_ok.
    + eapply answer_pages_ok; eauto using crawl_start_ok, crawl_start_pages_ok.
    + eapply answer_links_ok; eauto using crawl_start_ok, crawl_start_pages_ok,
        crawl_start_links_ok.
  - eapply run_links_ok; eauto using crawl_start_ok, crawl_start_pages_ok,
      crawl_start_links_ok.
Qed.

Lemma crawl_later_pages_ok (schedule : list nat) (c : Crawl) :
  crawl_later resolve site baseUrl maxPages visited0 schedule = Some c ->
  pages_ok site c.
Proof.
  intros Hrun. eapply run_pages_ok; eauto using crawlWebsite_ok, crawlWebsite_pages_ok.
Qed.

Lemma answer_requested_grow (k : nat) (c c' : Crawl) :
  answer resolve site baseUrl maxPages k c = Some c' ->
  exists more, requested c' = requested c ++ more.
Proof.
  unfold answer. destruct (nth_error (inflight c) k) as [u|]; [|discriminate].
  intros [= <-]. unfold crawl_resume.
  destruct (site u) as [d|e]; [|exists []; simpl; now rewrite app_nil_r].
  match goal with |- context [fold_left _ _ ?c1] =>
    destruct (follow_links_effect (doc_hrefs d) c1) as (new & Hreq & _)
  end.
  exists new. rewrite Hreq. now destruct (truthy (extract_text d)).
Qed.

Lemma run_requested_grow (schedule : list nat) (c c' : Crawl) :
  run resolve site baseUrl maxPages schedule c = Some c' ->
  exists more, requested c' = requested c ++ more.
Proof.
  revert c. induction schedule as [|k rest IH]; intros c; simpl.
  - intros [= <-]. exists []. now rewrite app_nil_r.
  - destruct (answer _ _ _ _ k c) as [c1|] eqn:Ha; [|discriminate].
    intros Hrun. apply answer_requested_grow in Ha as [m1 H1].
    apply IH in Hrun as [m2 H2]. exists (m1 ++ m2). now rewrite H2, H1, app_assoc.
Qed.

(** The first request of a crawl is the one for the base URL. *)
Lemma crawl_later_requests_base (schedule : list nat) (c : Crawl) :
  crawl_later resolve site baseUrl maxPages visited0 schedule = Some c ->
  baseUrl ∉ visited0 -> 0 < maxPages ->
  exists more, requested c = baseUrl :: more.
Proof.
  unfold crawl_later, crawlWebsite. intros Hrun Hfresh Hmax.
  assert (Hstart : requested (crawl_start baseUrl maxPages visited0) = [baseUrl]).
  { unfold crawl_start, crawl_enter. simpl.
    rewrite (proj2 (bool_decide_eq_false _) Hfresh).
    destruct (Z.leb_spec maxPages (Z.of_nat 0)); [simpl in *; lia|reflexivity]. }
  destruct (answer _ _ _ _ 0%nat _) as [c1|] eqn:Ha.
  - apply answer_requested_grow in Ha as [m1 H1].
    apply run_requested_grow in Hrun as [m2 H2].
    exists (m1 ++ m2). now rewrite H2, H1, Hstart.
  - apply run_requested_grow in Hrun as [m2 H2]. exists m2. now rewrite H2, Hstart.
Qed.

(** X17. A crawl requests nothing it was not led to: in every state it can
    reach, every URL requested is the base URL or is what a link on a page
    served for a requested URL leads to, through a chain of such links from
    the base URL. *)
Theorem crawl_requests_reachable (schedule : list nat) (c : Crawl) :
  crawl_later resolve site baseUrl maxPages visited0 schedule = Some c ->
  Forall (reachable resolve site baseUrl) (requested c).
Proof. intros Hrun. now apply crawl_later_links_ok in Hrun as (_ & Hreach & _). Qed.
End CrawlerLinks.

Section CrawlerComplete.
Variable resolve : jsstring -> jsstring -> jsstring.
Variable site : jsstring -> completion Document.
Variable baseUrl : jsstring.
Variable maxPages : Z.

(** Below the bound a crawl whose [resolve] returns on every link misses
    nothing. *)
Lemma crawl_complete_total (schedule : list nat) (c : Crawl) :
  crawl_later resolve site baseUrl maxPages ∅ schedule = Some c ->
  inflight c = [] ->
  Z.of_nat (length (pages c)) < maxPages ->
  NoDup (requested c)
  /\ (forall r, In r (requested c) <-> reachable resolve site baseUrl r)
  /\ (forall u, In u (map page_url (pages c))
                <-> reachable resolve site baseUrl u
                    /\ exists d, site u = Return d /\ extract_text d <> []).
Proof.
  intros Hrun Hrest Hroom.
  pose proof (crawl_later_links_ok _ _ _ _ _ _ _ Hrun) as (Hmark & Hreach & Hrec & Hcov).
  pose proof (crawl_later_ok _ _ _ _ _ _ _ Hrun) as (Hnd & Hvisited & _).
  rewrite List.Forall_forall in Hreach.
  assert (Hall : forall r, reachable resolve site baseUrl r -> In r (requested c)).
  { intros r Hr. induction Hr as [|u d l r Hu IH Hd Hl Hlt].
    - destruct (crawl_later_requests_base _ _ _ _ _ _ _ Hrun) as [more Hmore];
        [apply not_elem_of_empty|lia|].
      rewrite Hmore. now left.
    - destruct (Hmark r) as [Hin|Hin]; trivial; [|now apply elem_of_empty in Hin].
      apply Hcov; trivial. exists u, d, l. repeat split; trivial.
      rewrite Hrest. intros []. }
  split; [exact Hnd|]. split.
  - intros r. split; auto.
  - intros u. split.
    + intros Hu. apply in_map_iff in Hu as (p & <- & Hp).
      pose proof (crawl_later_pages_ok _ _ _ _ _ _ _ Hrun) as (_ & Hreq & Hpages).
      rewrite List.Forall_forall in Hpages.
      destruct (Hpages p Hp) as (Htext & d & Hd & Hpd). split.
      * apply Hreach, Hreq, in_or_app. left. now apply in_map.
      * exists d. split; [exact Hd|congruence].
    + intros (Hu & d & Hd & Htext). apply (Hrec u d); trivial.
      split; [auto|]. rewrite Hrest. intros [].
Qed.
End CrawlerComplete.

Section CrawlerThrows.
Variable resolve : jsstring -> jsstring -> completion jsstring.
Variable site : jsstring -> completion Document.
Variable baseUrl : jsstring.
Variable maxPages : Z.

Lemma follow_links_each_total (links : list jsstring) (c : Crawl) :
  follow_links_each resolve baseUrl maxPages links c
  = fold_left (follow_link (returned resolve) baseUrl maxPages)
      (links_reached resolve baseUrl links) c.
Proof.
  revert c. induction links as [|link rest IH]; intros c; [reflexivity|].
  assert (Hstep : forall r, resolve baseUrl (before_hash link) = Return r -> link <> [] ->
            follow_link (returned resolve) baseUrl maxPages c link
            = if startsWith r baseUrl then crawl_enter maxPages r c else c).
  { intros r Hr Hl. unfold follow_link, link_target, returned. rewrite Hr.
    destruct link; [congruence|]. simpl. now destruct (startsWith r baseUrl). }
  destruct link as [|ch link]; [simpl; apply IH|].
  assert (Hl : ch :: link <> []) by discriminate.
  assert (Ht : truthy (ch :: link) = true) by reflexivity.
  revert Hstep Hl Ht. generalize (ch :: link). intros l Hstep Hl Ht.
  cbn [follow_links_each links_reached]. rewrite Ht. cbn [negb]. cbv beta iota.
  destruct (resolve baseUrl (before_hash l)) as [r|e] eqn:Hr; [|reflexivity].
  cbn [fold_left]. rewrite (Hstep r) by trivial. apply IH.
Qed.

Lemma crawl_resume_each_total (url : jsstring) (c : Crawl) :
  crawl_resume_each resolve site baseUrl maxPages url c
  = crawl_resume (returned resolve) (site_reached resolve baseUrl site) baseUrl maxPages url c.
Proof.
  unfold crawl_resume_each, crawl_resume, site_reached.
  destruct (site url) as [d|e]; [|reflexivity].
  cbv zeta. rewrite follow_links_each_total. reflexivity.
Qed.

Lemma answer_each_total (k : nat) (c : Crawl) :
  answer_each resolve site baseUrl maxPages k c
  = answer (returned resolve) (site_reached resolve baseUrl site) baseUrl maxPages k c.
Proof.
  unfold answer_each, answer. destruct (nth_error (inflight c) k); [|reflexivity].
  now rewrite crawl_resume_each_total.
Qed.

Lemma run_each_total (schedule : list nat) (c : Crawl) :
  run_each resolve site baseUrl maxPages schedule c
  = run (returned resolve) (site_reached resolve baseUrl site) baseUrl maxPages schedule c.
Proof.
  revert c. induction schedule as [|k rest IH]; intros c; simpl; [reflexivity|].
  rewrite answer_each_total.
  destruct (answer _ _ _ _ k c); [apply IH|reflexivity].
Qed.

Lemma crawl_later_each_total (visited0 : gset jsstring) (schedule : list nat) :
  crawl_later_each resolve site baseUrl maxPages visited0 schedule
  = crawl_later (returned resolve) (site_reached resolve baseUrl site) baseUrl maxPages
      visited0 schedule.
Proof.
  unfold crawl_later_each, crawl_later, crawlWebsite_each, crawlWebsite.
  now rewrite run_each_total, answer_each_total.
Qed.

Lemma links_reached_in (links : list jsstring) (l : jsstring) :
  In l (links_reached resolve baseUrl links)
  <-> exists before after,
        links = before ++ l :: after
        /\ Forall (link_passes resolve baseUrl) before
        /\ link_passes resolve baseUrl l.
Proof.
  induction links as [|link rest IH]; simpl.
  - split; [intros []|]. intros (before & after & H & _). now destruct before.
  - assert (Hcons : link_passes resolve baseUrl link ->
              (link = l \/ In l (links_reached resolve baseUrl rest))
              <-> exists before after,
                    link :: rest = before ++ l :: after
                    /\ Forall (link_passes resolve baseUrl) before
                    /\ link_passes resolve baseUrl l).
    { intros Hpass. split.
      - intros [<-|Hin].
        + exists [], rest. auto.
        + apply IH in Hin as (before & after & -> & Hb & Hl).
          exists (link :: before), after. auto.
      - intros (before & after & Heq & Hb & Hl). destruct before as [|b before].
        + injection Heq as -> ->. now left.
        + injection Heq as <- ->. right. apply IH.
          exists before, after. inversion Hb. auto. }
    destruct link as [|ch link]; [simpl; apply Hcons; now left|].
    assert (Ht : truthy (ch :: link) = true) by reflexivity.
    assert (Hne : ch :: link <> []) by discriminate.
    revert Hcons Ht Hne. generalize (ch :: link). intros link' Hcons Ht Hne.
    rewrite Ht. cbn [negb]. cbv beta iota.
    + destruct (resolve baseUrl (before_hash link')) as [r|e] eqn:Hr; simpl.
      * apply Hcons. right. now exists r.
      * split; [intros []|]. intros (before & after & Heq & Hb & Hl).
        assert (Hno : ~ link_passes resolve baseUrl link').
        { intros [H|[r H]]; [now apply Hne|congruence]. }
        destruct before as [|b before].
        -- injection Heq as <- _. now apply Hno.
        -- injection Heq as <- _. inversion Hb. now apply Hno.
Qed.

Lemma reachable_each_total (r : jsstring) :
  reachable_each resolve site baseUrl r
  <-> reachable (returned resolve) (site_reached resolve baseUrl site) baseUrl r.
Proof.
  split; intros Hr.
  - induction Hr as [|u d before after l r Hu IH Hd Hlinks Hb Hl Hres Hscope];
      [constructor|].
    apply (reachable_link _ _ _ u
             {| doc_title := doc_title d; doc_headings := doc_headings d;
                doc_body := doc_body d;
                doc_hrefs := links_reached resolve baseUrl (doc_hrefs d) |} l r);
      trivial.
    + unfold site_reached. now rewrite Hd.
    + simpl. apply links_reached_in. exists before, after.
      repeat split; trivial. right. now exists r.
    + unfold link_target, returned. rewrite Hres, Hscope.
      now destruct l.
  - induction Hr as [|u d' l r Hu IH Hd Hin Ht]; [constructor|].
    unfold site_reached in Hd. destruct (site u) as [d|e] eqn:Hsite; [|discriminate Hd].
    injection Hd as <-. simpl in Hin.
    apply links_reached_in in Hin as (before & after & Hlinks & Hb & Hl).
    unfold link_target, returned in Ht.
    assert (Hne : l <> []) by (intros ->; discriminate Ht).
    replace (truthy l) with true in Ht by (now destruct l).
    cbn [negb] in Ht. cbv beta iota zeta in Ht.
    destruct Hl as [Hl|[r0 Hr0]]; [now apply Hne in Hl|].
    rewrite Hr0 in Ht.
    destruct (startsWith r0 baseUrl) eqn:Hscope; [|discriminate Ht].
    injection Ht as <-.
    now apply (reachable_each_link _ _ _ u d before after l r0).
Qed.

(** X18. A crawl started with a fresh set that has come to rest (no
    request is in flight) with fewer than [maxPages] records has requested
    exactly the URLs that can be come to from the base URL, each once, and
    holds a record for exactly those of them whose page was served and has
    a text.  A link counts on its page only if [url.resolve] threw on no
    link before it there: what follows the first link it throws on is never
    requested. *)
Theorem crawl_complete_below_bound (schedule : list nat) (c : Crawl) :
  crawl_later_each resolve site baseUrl maxPages ∅ schedule = Some c ->
  inflight c = [] ->
  Z.of_nat (length (pages c)) < maxPages ->
  NoDup (requested c)
  /\ (forall r, In r (requested c) <-> reachable_each resolve site baseUrl r)
  /\ (forall u, In u (map page_url (pages c))
                <-> reachable_each resolve site baseUrl u
                    /\ exists d, site u = Return d /\ extract_text d <> []).
Proof.
  intros Hrun Hrest Hroom. rewrite crawl_later_each_total in Hrun.
  destruct (crawl_complete_total _ _ _ _ _ _ Hrun Hrest Hroom) as (Hnd & Hreq & Hpages).
  split; [exact Hnd|]. split.
  - intros r. now rewrite Hreq, reachable_each_total.
  - intros u. rewrite Hpages, reachable_each_total. unfold site_reached.
    split; intros (Hu & d & Hd & Htext); (split; [exact Hu|]).
    + destruct (site u) as [d0|e]; [|discriminate Hd]. injection Hd as <-.
      now exists d0.
    + rewrite Hd. eexists. split; [reflexivity|exact Htext].
Qed.
End CrawlerThrows.

(** ** The handler [/upload-full-website] *)

Section FullWebsiteFacts.
Variable resolve : jsstring -> jsstring -> jsstring.
Variable site : jsstring -> completion Document.
Variable embeddings_for : nat -> nat -> jsstring -> completion (list float).
Variable Date_now_for : nat -> nat -> Z.
Variable arrivals : nat -> list nat.
Variable baseUrl : jsstring.
Variable maxPages : Z.

Lemma run_app (sch1 sch2 : list nat) (c : Crawl) :
  run resolve site baseUrl maxPages (sch1 ++ sch2) c
  = match run resolve site baseUrl maxPages sch1 c with
    | Some c' => run resolve site baseUrl maxPages sch2 c'
    | None => None
    end.
Proof.
  revert c. induction sch1 as [|k sch1 IH]; intros c; simpl; trivial.
  destruct (answer _ _ _ _ k c); trivial.
Qed.

Lemma deliver_run (schedule : list nat) (c : Crawl) :
  exists schedule',
    run resolve site baseUrl maxPages schedule' c
    = Some (deliver resolve site baseUrl maxPages schedule c).
Proof.
  revert c. induction schedule as [|k rest IH]; intros c; simpl.
  - now exists [].
  - unfold deliver. simpl.
    destruct (answer resolve site baseUrl maxPages k c) as [c1|] eqn:Ha.
    + destruct (IH c1) as [sch Hsch]. exists (k :: sch). simpl. now rewrite Ha.
    + apply IH.
Qed.

Lemma answer_pages_grow (k : nat) (c c' : Crawl) :
  answer resolve site baseUrl maxPages k c = Some c' ->
  exists more, pages c' = pages c ++ more.
Proof.
  unfold answer. destruct (nth_error (inflight c) k) as [u|]; [|discriminate].
  intros [= <-]. unfold crawl_resume.
  destruct (site u) as [d|e]; [|exists []; simpl; now rewrite app_nil_r].
  rewrite follow_links_pages.
  destruct (truthy (extract_text d)); simpl; eauto.
  exists []. now rewrite app_nil_r.
Qed.

Lemma run_pages_grow (schedule : list nat) (c c' : Crawl) :
  run resolve site baseUrl maxPages schedule c = Some c' ->
  exists more, pages c' = pages c ++ more.
Proof.
  revert c. induction schedule as [|k rest IH]; intros c; simpl.
  - intros [= <-]. exists []. now rewrite app_nil_r.
  - destruct (answer _ _ _ _ k c) as [c1|] eqn:Ha; [|discriminate].
    intros Hrun. apply answer_pages_grow in Ha as [m1 H1].
    apply IH in Hrun as [m2 H2]. exists (m1 ++ m2). now rewrite H2, H1, app_assoc.
Qed.

Lemma deliver_pages_grow (schedule : list nat) (c : Crawl) :
  exists more, pages (deliver resolve site baseUrl maxPages schedule c) = pages c ++ more.
Proof.
  destruct (deliver_run schedule c) as [sch Hsch]. eapply run_pages_grow; eauto.
Qed.

(** Once the array holds [maxPages] records no request is made any more. *)
Lemma follow_links_saturated (links : list jsstring) (c : Crawl) :
  maxPages <= Z.of_nat (length (pages c)) ->
  fold_left (follow_link resolve baseUrl maxPages) links c = c.
Proof.
  intros Hfull. induction links as [|l links IH]; simpl; trivial.
  assert (Hl : follow_link resolve baseUrl maxPages c l = c).
  { unfold follow_link. destruct (link_target resolve baseUrl l); trivial.
    unfold crawl_enter. apply Z.leb_le in Hfull. rewrite Hfull.
    now rewrite orb_true_r. }
  now rewrite Hl.
Qed.

Lemma remove_at_length {A : Type} (k : nat) (l : list A) (x : A) :
  nth_error l k = Some x -> length l = S (length (remove_at k l)).
Proof.
  intros Hk. apply remove_at_perm in Hk. now apply Permutation_length in Hk.
Qed.

Lemma answer_saturated (k : nat) (c c' : Crawl) :
  maxPages <= Z.of_nat (length (pages c)) ->
  answer resolve site baseUrl maxPages k c = Some c' ->
  (length (pages c') + length (inflight c') <= length (pages c) + length (inflight c))%nat.
Proof.
  intros Hfull. unfold answer.
  destruct (nth_error (inflight c) k) as [u|] eqn:Hk; [|discriminate].
  intros [= <-]. apply remove_at_length in Hk. unfold crawl_resume.
  destruct (site u) as [d|e]; [|simpl; lia].
  rewrite follow_links_saturated.
  - destruct (truthy (extract_text d)); simpl; rewrite ?length_app; simpl; lia.
  - destruct (truthy (extract_text d)); simpl; rewrite ?length_app; simpl; lia.
Qed.

Lemma deliver_saturated (schedule : list nat) (c : Crawl) :
  maxPages <= Z.of_nat (length (pages c)) ->
  (length (pages (deliver resolve site baseUrl maxPages schedule c))
   + length (inflight (deliver resolve site baseUrl maxPages schedule c))
   <= length (pages c) + length (inflight c))%nat.
Proof.
  revert c. induction schedule as [|k rest IH]; intros c Hfull; [simpl; lia|].
  unfold deliver. simpl.
  destruct (answer resolve site baseUrl maxPages k c) as [c1|] eqn:Ha; [|now apply IH].
  pose proof (answer_saturated k c c1 Hfull Ha) as H1.
  destruct (answer_pages_grow k c c1 Ha) as [more Hmore].
  assert (Hfull1 : maxPages <= Z.of_nat (length (pages c1)))
    by (rewrite Hmore, length_app; lia).
  specialize (IH c1 Hfull1). unfold deliver in IH. lia.
Qed.
End FullWebsiteFacts.

Section FullWebsiteHandler.
Variable resolve : jsstring -> jsstring -> jsstring.
Variable site : jsstring -> completion Document.
Variable embeddings_for : nat -> nat -> jsstring -> completion (list float).
Variable Date_now_for : nat -> nat -> Z.
Variable arrivals : nat -> list nat.
Variable baseUrl : jsstring.


Lemma nth_error_lt {A : Type} (l : list A) (k : nat) (x : A) :
  nth_error l k = Some x -> (k < length l)%nat.
Proof. intros H. apply nth_error_Some. congruence. Qed.

Lemma index_pages_saturated_returns (n : nat) :
  forall (k : nat) (total : Z) (c : Crawl) (s : Server),
    100 <= Z.of_nat (length (pages c)) ->
    (length (pages c) + length (inflight c) - k <= n)%nat ->
    exists fuel r, index_pages resolve site embeddings_for Date_now_for arrivals fuel baseUrl k total c s = Some r.
Proof.
  induction n as [|n IH]; intros k total c s Hfull Hn.
  - exists 1%nat. simpl.
    destruct (nth_error (pages c) k) as [page|] eqn:Hk; [|eexists; reflexivity].
    apply nth_error_lt in Hk. lia.
  - destruct (nth_error (pages c) k) as [page|] eqn:Hk;
      [|exists 1%nat; simpl; rewrite Hk; eexists; reflexivity].
    apply nth_error_lt in Hk as Hlt.
    destruct (processText_outcome (embeddings_for k) (Date_now_for k)
                (page_text page) (page_url page) s) as [[e [He _]]|(new & Hnew & _)].
    + exists 1%nat. simpl. rewrite Hk. unfold bind. rewrite He. eexists; reflexivity.
    + pose proof (deliver_saturated resolve site baseUrl 100 (arrivals k) c Hfull) as Hsat.
      destruct (deliver_pages_grow resolve site baseUrl 100 (arrivals k) c) as [more Hmore].
      destruct (IH (S k) (total + Z.of_nat (length new)) (deliver resolve site baseUrl 100 (arrivals k) c)
                  {| CHUNKS := CHUNKS s ++ new; DATA_FILE := Some (CHUNKS s ++ new) |})
        as (fuel & r & Hr).
      * rewrite Hmore, length_app. lia.
      * lia.
      * exists (S fuel), r. simpl. rewrite Hk. unfold bind. now rewrite Hnew.
Qed.

Lemma index_pages_returns (n : nat) :
  forall (k : nat) (total : Z) (c : Crawl) (s : Server),
    (100 - k <= n)%nat ->
    exists fuel r, index_pages resolve site embeddings_for Date_now_for arrivals fuel baseUrl k total c s = Some r.
Proof.
  induction n as [|n IH]; intros k total c s Hn;
    (destruct (nth_error (pages c) k) as [page|] eqn:Hk;
      [|exists 1%nat; simpl; rewrite Hk; eexists; reflexivity]);
    apply nth_error_lt in Hk as Hlt;
    (destruct (processText_outcome (embeddings_for k) (Date_now_for k)
                (page_text page) (page_url page) s) as [[e [He _]]|(new & Hnew & _)];
      [exists 1%nat; simpl; rewrite Hk; unfold bind; rewrite He; eexists; reflexivity|]);
    destruct (deliver_pages_grow resolve site baseUrl 100 (arrivals k) c) as [more Hmore];
    destruct (Z_le_gt_dec 100 (Z.of_nat (length (pages (deliver resolve site baseUrl 100 (arrivals k) c)))))
      as [Hfull|Hroom].
  - destruct (index_pages_saturated_returns _ (S k) (total + Z.of_nat (length new))
                (deliver resolve site baseUrl 100 (arrivals k) c)
                {| CHUNKS := CHUNKS s ++ new; DATA_FILE := Some (CHUNKS s ++ new) |}
                Hfull (Nat.le_refl _)) as (fuel & r & Hr).
    exists (S fuel), r. simpl. rewrite Hk. unfold bind. now rewrite Hnew.
  - rewrite Hmore, length_app in Hroom. lia.
  - destruct (index_pages_saturated_returns _ (S k) (total + Z.of_nat (length new))
                (deliver resolve site baseUrl 100 (arrivals k) c)
                {| CHUNKS := CHUNKS s ++ new; DATA_FILE := Some (CHUNKS s ++ new) |}
                Hfull (Nat.le_refl _)) as (fuel & r & Hr).
    exists (S fuel), r. simpl. rewrite Hk. unfold bind. now rewrite Hnew.
  - destruct (IH (S k) (total + Z.of_nat (length new)) (deliver resolve site baseUrl 100 (arrivals k) c)
                {| CHUNKS := CHUNKS s ++ new; DATA_FILE := Some (CHUNKS s ++ new) |})
      as (fuel & r & Hr); [lia|].
    exists (S fuel), r. simpl. rewrite Hk. unfold bind. now rewrite Hnew.
Qed.

(** What a run of the loop from position [k] has done when it ends: the
    pages from [k] up to some [j] are indexed, in the order of the array,
    and the array is the one of a state the crawl can reach. *)
Lemma index_pages_spec (fuel : nat) :
  forall (k : nat) (total : Z) (c : Crawl) (s s' : Server) (r : completion (Z * Crawl)),
    (k <= length (pages c))%nat ->
    index_pages resolve site embeddings_for Date_now_for arrivals fuel baseUrl k total c s = Some (r, s') ->
    exists (schedule : list nat) (c' : Crawl) (j : nat) (new : list Chunk),
      run resolve site baseUrl 100 schedule c = Some c'
      /\ (k <= j <= length (pages c'))%nat
      /\ CHUNKS s' = CHUNKS s ++ new
      /\ map text new = page_chunks (firstn (j - k) (skipn k (pages c')))
      /\ (j = k -> s' = s)
      /\ (k < j -> DATA_FILE s' = Some (CHUNKS s'))%nat
      /\ match r with
         | Return done =>
             snd done = c' /\ j = length (pages c')
             /\ fst done = total + Z.of_nat (length new)
         | Throw _ =>
             exists page,
               nth_error (pages c') j = Some page
               /\ embedding_fails (embeddings_for j) (windows (page_text page) 1500 300)
         end.
Proof.
  induction fuel as [|fuel IH]; intros k total c s s' r Hk Hrun; [discriminate|].
  simpl in Hrun. destruct (nth_error (pages c) k) as [page|] eqn:Hpage.
  - apply nth_error_lt in Hpage as Hlt. unfold bind in Hrun.
    destruct (processText_outcome (embeddings_for k) (Date_now_for k)
                (page_text page) (page_url page) s)
      as [[e [He Hfail]]|(new & Hnew & _ & Htexts)].
    + rewrite He in Hrun. injection Hrun as <- <-.
      exists [], c, k, []. simpl. rewrite Nat.sub_diag, app_nil_r.
      repeat split; trivial; try lia. now exists page.
    + rewrite Hnew in Hrun.
      destruct (deliver_run resolve site baseUrl 100 (arrivals k) c) as [sch1 Hsch1].
      destruct (run_pages_grow _ _ _ _ _ _ _ Hsch1) as [more1 Hmore1].
      apply IH in Hrun as (sch2 & c' & j & new2 & Hsch2 & Hj & Hstore & Htexts2
                           & Hsame & Hsaved & Hr);
        [|rewrite Hmore1, length_app; lia].
      destruct (run_pages_grow _ _ _ _ _ _ _ Hsch2) as [more2 Hmore2].
      exists (sch1 ++ sch2), c', j, (new ++ new2).
      split; [rewrite run_app, Hsch1; exact Hsch2|].
      split; [lia|]. simpl in Hstore.
      split; [now rewrite Hstore, app_assoc|].
      split; [|split; [lia|split]].
      * assert (Hsk : skipn k (pages c') = page :: skipn (S k) (pages c')).
        { assert (Hnth : nth_error (pages c') k = Some page).
          { rewrite Hmore2, Hmore1, <- app_assoc. rewrite nth_error_app1; trivial. }
          clear -Hnth. revert k Hnth.
          induction (pages c') as [|p l IHl]; intros [|k] Hnth; simpl in *; try discriminate.
          - now injection Hnth as ->.
          - now apply IHl. }
        replace (j - k)%nat with (S (j - S k)) by lia.
        rewrite Hsk. simpl. unfold page_chunks in *. simpl.
        now rewrite map_app, Htexts, Htexts2.
      * intros _. destruct (Nat.eq_dec j (S k)) as [Hjk|Hjk].
        -- now rewrite (Hsame Hjk).
        -- apply Hsaved. lia.
      * destruct r as [done|e]; [|exact Hr].
        destruct Hr as (Hc & Hjl & Htot). repeat split; trivial.
        rewrite Htot, length_app. lia.
  - injection Hrun as <- <-. apply nth_error_None in Hpage.
    exists [], c, k, []. simpl. rewrite Nat.sub_diag, app_nil_r.
    repeat split; trivial; lia.
Qed.

(** X19. The loop of [/upload-full-website] over the live array of pages
    comes to an end when every call of [processText] it awaits is settled:
    from whatever position, with whatever array and however the answers of
    the crawl arrive, it is over after finitely many turns, because the
    crawl makes no request once the array holds 100 records. *)
Theorem index_pages_ends (k : nat) (total : Z) (c : Crawl) (s : Server) :
  exists (fuel : nat) (r : completion (Z * Crawl) * Server),
    index_pages resolve site embeddings_for Date_now_for arrivals fuel baseUrl k total c s
    = Some r.
Proof. apply (index_pages_returns (100 - k)). lia. Qed.

(** X20. When [/upload-full-website] answers 200, every page the array
    holds at that moment has been indexed, in the order of the array: the
    store has grown by the chunks of the texts of these pages and the file
    holds the whole store; [pagesIndexed] is the number of these pages and
    [totalChunks] the number of chunks added.  The array is the one of a
    state the crawl can reach. *)
Theorem upload_full_website_indexes_every_page (fuel : nat) (s s' : Server)
    (resp : SiteResponse) :
  upload_full_website resolve site embeddings_for Date_now_for arrivals fuel baseUrl s
  = Some (Return resp, s') ->
  site_status resp = 200 ->
  exists (schedule : list nat) (c : Crawl) (new : list Chunk),
    crawl_later resolve site baseUrl 100 ∅ schedule = Some c
    /\ pages c <> []
    /\ site_body resp
       = FullWebsiteIndexed (Z.of_nat (length (pages c))) (Z.of_nat (length new))
    /\ CHUNKS s' = CHUNKS s ++ new
    /\ DATA_FILE s' = Some (CHUNKS s')
    /\ map text new = page_chunks (pages c).
Proof.
  unfold upload_full_website, try_catch.
  destruct (negb (truthy baseUrl)); [intros [= <- <-]; discriminate|].
  cbv zeta.
  destruct (Z.of_nat (length (pages (crawlWebsite resolve site baseUrl 100 ∅))) =? 0)
    eqn:Hempty; [intros [= <- <-]; discriminate|].
  apply Z.eqb_neq in Hempty. unfold bind.
  destruct (index_pages _ _ _ _ _ fuel baseUrl 0 0 _ s) as [[r s1]|] eqn:Hloop;
    [|discriminate].
  apply index_pages_spec in Hloop
      as (schedule & c & j & new & Hrun & Hj & Hstore & Htexts & _ & Hsaved & Hr); [|lia].
  destruct r as [done|e]; [|intros [= <- <-]; discriminate].
  destruct Hr as (Hc & -> & Htotal). intros [= <- <-] _. simpl.
  destruct (run_pages_grow _ _ _ _ _ _ _ Hrun) as [more Hmore].
  assert (Hlen : (0 < length (pages c))%nat) by (rewrite Hmore, length_app; lia).
  exists schedule, c, new. rewrite Hc, Htotal.
  repeat split; trivial.
  - intros Hnil. rewrite Hnil in Hlen. simpl in Hlen. lia.
  - apply Hsaved. lia.
  - rewrite Htexts, Nat.sub_0_r. simpl. now rewrite firstn_all.
Qed.

End FullWebsiteHandler.

(** ** The further properties on concrete inputs *)

(** X1 at the text of 1200 code units: the last 100 code units of the
    first chunk are the first 100 of the second. *)
Lemma chunkText_overlap_witness :
  0 <= 100 < 500
  /\ skipn (Z.to_nat (500 - 100)) (repeat 65%N 500) = firstn (Z.to_nat 100) (repeat 65%N 500).
Proof.
  split; [lia|].
  apply (chunkText_overlap sample_text 500 100
           [repeat 65%N 500; repeat 65%N 500; repeat 65%N 400] 0);
    [lia|vm_compute; reflexivity|reflexivity|reflexivity].
Defined.

(** X2 at the same text. *)
Lemma chunkText_reassembles_witness :
  0 <= 100 < 500
  /\ concat (map (firstn (Z.to_nat (500 - 100)))
               [repeat 65%N 500; repeat 65%N 500; repeat 65%N 400]) = sample_text.
Proof.
  split; [lia|].
  apply (chunkText_reassembles sample_text 500 100); [lia|vm_compute; reflexivity].
Defined.

(** X3 at a query of two components against a vector of one. *)
Lemma cosineSimilarity_shorter_nan_witness :
  (length [1%float] < length [1; 0]%float)%nat
  /\ is_nan (cosineSimilarity [1; 0]%float [1]%float) = true.
Proof.
  split; [simpl; lia|].
  apply cosineSimilarity_shorter_nan. simpl. lia.
Defined.

(** X4 at [(1, 2)] and [(3, 4)]. *)
Lemma cosineSimilarity_symmetric_witness :
  cosineSimilarity [1; 2]%float [3; 4]%float = cosineSimilarity [3; 4]%float [1; 2]%float.
Proof. apply cosineSimilarity_symmetric. reflexivity. Defined.

(** X5 at the store of two chunks, which is in descending order as it
    stands. *)
Lemma ranked_any_stable_sort_witness :
  no_nan_scores scored_two
  /\ StronglySorted score_ge scored_two
  /\ slice scored_two 0 5 = ranked [1; 0]%float store_two.
Proof.
  assert (Hnan : no_nan_scores scored_two) by (repeat constructor).
  assert (Hsorted : StronglySorted score_ge scored_two) by (repeat constructor).
  split; [exact Hnan|]. split; [exact Hsorted|].
  apply ranked_any_stable_sort; trivial.
Defined.

(** X6 at three texts and a batch size of 2: two batches, and the vectors
    come in the order of the texts. *)
Lemma embedTextsBatch_in_order_witness :
  0 < 2
  /\ embedTextsBatch provider_by_position (map of_string ["a"; "b"; "c"]%string) 2
     = Some (Return [[1; 0]; [0; 1]; [1; 1]]%float)
  /\ embedTexts provider_by_position (map of_string ["a"; "b"; "c"]%string)
     = Some (Return [[1; 0]; [0; 1]; [1; 1]]%float).
Proof.
  split; [lia|].
  assert (Hbatch : embedTextsBatch provider_by_position
                     (map of_string ["a"; "b"; "c"]%string) 2
                   = Some (Return [[1; 0]; [0; 1]; [1; 1]]%float))
    by (vm_compute; reflexivity).
  split; [exact Hbatch|].
  exact (proj1 (proj1 (embedTextsBatch_in_order provider_by_position
                         (map of_string ["a"; "b"; "c"]%string) 2 ltac:(lia))
                  [[1; 0]; [0; 1]; [1; 1]]%float) Hbatch).
Defined.

(** X8 at a text of three chunks added to a store of two: the two stay, the
    three follow in order, each with the vector returned for its
    position. *)
Lemma processText_appends_witness :
  exists processed : list Chunk,
    processText provider_by_position clock_zero long_text (of_string "DOC") server_two
    = Some (Return 3, {| CHUNKS := store_two ++ processed;
                         DATA_FILE := Some (store_two ++ processed) |})
    /\ map (fun c => length (text c)) processed = [1500; 1300; 100]%nat
    /\ map embedding processed = [[1; 0]; [0; 1]; [1; 1]]%float
    /\ map id processed = map of_string ["DOC_0_0"; "DOC_0_1"; "DOC_0_2"]%string.
Proof.
  destruct (processText_of Current provider_by_position clock_zero long_text
              (of_string "DOC") server_two) as [[[n|e] s']|] eqn:Hrun;
    try (vm_compute in Hrun; discriminate Hrun).
  destruct (processText_appends provider_by_position clock_zero Current long_text
              (of_string "DOC") server_two s' n Hrun)
    as (processed & Hs' & Hn & Hlen & _).
  assert (Hc : option_map
                 (fun r => let new := skipn 2 (CHUNKS (snd r)) in
                           (map (fun c => length (text c)) new, map embedding new, map id new))
                 (processText_of Current provider_by_position clock_zero long_text
                    (of_string "DOC") server_two)
               = Some ([1500; 1300; 100]%nat, [[1; 0]; [0; 1]; [1; 1]]%float,
                       map of_string ["DOC_0_0"; "DOC_0_1"; "DOC_0_2"]%string))
    by (vm_compute; reflexivity).
  rewrite Hrun, Hs' in Hc. simpl in Hc. injection Hc as Hlens Hvecs Hids.
  change (skipn 0 processed) with processed in Hlens, Hvecs, Hids.
  exists processed. simpl in Hrun. rewrite Hrun, Hs'.
  assert (Hthree : n = 3).
  { rewrite Hn. apply (f_equal (@length _)) in Hlens. rewrite length_map in Hlens.
    rewrite Hlens. reflexivity. }
  rewrite Hthree. repeat split; trivial.
Defined.

(** X9 at the same call, with a clock that stands still: the three chunks
    have three different identifiers. *)
Lemma processText_ids_distinct_witness :
  exists (processed : list Chunk) (s' : Server),
    processText provider_by_position clock_zero long_text (of_string "DOC") server_two
    = Some (Return 3, s')
    /\ CHUNKS s' = store_two ++ processed
    /\ length processed = 3%nat
    /\ NoDup (map id processed).
Proof.
  destruct (processText_of Current provider_by_position clock_zero long_text
              (of_string "DOC") server_two) as [[[n|e] s']|] eqn:Hrun;
    try (vm_compute in Hrun; discriminate Hrun).
  destruct (processText_ids_distinct provider_by_position clock_zero Current long_text
              (of_string "DOC") server_two s' n Hrun)
    as (processed & Hstore & Hn & Hnd).
  assert (Hc : option_map (fun r => fst r)
                 (processText_of Current provider_by_position clock_zero long_text
                    (of_string "DOC") server_two)
               = Some (Return 3))
    by (vm_compute; reflexivity).
  rewrite Hrun in Hc. simpl in Hc. injection Hc as ->.
  exists processed, s'. simpl in Hrun. rewrite Hrun.
  repeat split; trivial. lia.
Defined.

(** X10 at a [txt] file of 2500 code units sent to the server of two
    chunks: the answer is 200 and the three chunks of the text are added. *)
Lemma upload_file_outcome_witness :
  exists (resp : Response) (s' : Server) (new : list Chunk),
    upload_file provider_by_position clock_zero
      (Some {| upload_ext := of_string "txt"; upload_extracted := Return long_text |})
      server_two
    = Some (Return resp, s')
    /\ status resp = 200
    /\ body resp = FileIndexed 3 (of_string "txt")
    /\ CHUNKS s' = store_two ++ new
    /\ map text new = windows long_text 1500 300
    /\ DATA_FILE s' = Some (CHUNKS s').
Proof.
  destruct (upload_file provider_by_position clock_zero
              (Some {| upload_ext := of_string "txt"; upload_extracted := Return long_text |})
              server_two) as [[[resp|e] s']|] eqn:Hrun;
    try (vm_compute in Hrun; discriminate Hrun).
  assert (Hst : option_map (fun r => match fst r with
                                     | Return resp => status resp
                                     | Throw _ => 0
                                     end)
                  (upload_file provider_by_position clock_zero
                     (Some {| upload_ext := of_string "txt";
                              upload_extracted := Return long_text |})
                     server_two) = Some 200)
    by (vm_compute; reflexivity).
  rewrite Hrun in Hst. injection Hst as Hst.
  destruct (proj1 (upload_file_outcome provider_by_position clock_zero _ server_two s' resp
                     Hrun) Hst)
    as (f & input & new & Hf & _ & Hext & _ & _ & Htexts & Hbody & Hstore & Hfile).
  injection Hf as <-. injection Hext as <-.
  exists resp, s', new. split; [reflexivity|]. split; [exact Hst|].
  assert (Hlen : length new = 3%nat).
  { rewrite <- (length_map text), Htexts. vm_compute. reflexivity. }
  rewrite Hlen in Hbody. repeat split; trivial.
Defined.

(** X11 at a page whose body text is [  hello   world ], sent to the server
    of two chunks: the answer is 200 and one chunk, [hello world], is
    added. *)
Lemma upload_website_outcome_witness :
  exists (resp : Response) (s' : Server) (new : list Chunk),
    upload_website provider_by_position clock_zero site_A
      (Return (of_string "  hello   world ")) server_two
    = Some (Return resp, s')
    /\ status resp = 200
    /\ body resp = WebsiteIndexed 1 site_A
    /\ CHUNKS s' = store_two ++ new
    /\ map text new = [of_string "hello world"]
    /\ DATA_FILE s' = Some (CHUNKS s').
Proof.
  destruct (upload_website provider_by_position clock_zero site_A
              (Return (of_string "  hello   world ")) server_two)
    as [[[resp|e] s']|] eqn:Hrun;
    try (vm_compute in Hrun; discriminate Hrun).
  assert (Hst : option_map (fun r => match fst r with
                                     | Return resp => status resp
                                     | Throw _ => 0
                                     end)
                  (upload_website provider_by_position clock_zero site_A
                     (Return (of_string "  hello   world ")) server_two) = Some 200)
    by (vm_compute; reflexivity).
  rewrite Hrun in Hst. injection Hst as Hst.
  destruct (proj1 (upload_website_outcome provider_by_position clock_zero site_A _
                     server_two s' resp Hrun) Hst)
    as (data & new & _ & Hdata & _ & _ & Htexts & Hbody & Hstore & Hfile).
  injection Hdata as <-.
  assert (Hone : windows (trim (collapse_whitespace false (of_string "  hello   world ")))
                   1500 300 = [of_string "hello world"]) by (vm_compute; reflexivity).
  rewrite Hone in Htexts.
  exists resp, s', new. split; [reflexivity|]. split; [exact Hst|].
  assert (Hlen : length new = 1%nat) by (now rewrite <- (length_map text), Htexts).
  rewrite Hlen in Hbody. repeat split; trivial.
Defined.

(** X12 at a question put to the server of seven chunks: the answer is 200,
    it cites five identifiers of stored chunks, and the server is as
    before. *)
Lemma ask_outcome_witness :
  exists (resp : Response) (answer : jsstring) (sources : list jsstring),
    ask provider_up (model_says "42") (of_string "why?")
      {| CHUNKS := store_seven; DATA_FILE := Some store_seven |}
    = Some (Return resp, {| CHUNKS := store_seven; DATA_FILE := Some store_seven |})
    /\ status resp = 200
    /\ body resp = Answered answer sources
    /\ length sources = 5%nat
    /\ forall i, In i sources -> In i (map id store_seven).
Proof.
  destruct (ask provider_up (model_says "42") (of_string "why?")
              {| CHUNKS := store_seven; DATA_FILE := Some store_seven |})
    as [[[resp|e] s']|] eqn:Hrun;
    try (vm_compute in Hrun; discriminate Hrun).
  assert (Hst : option_map (fun r => match fst r with
                                     | Return resp => status resp
                                     | Throw _ => 0
                                     end)
                  (ask provider_up (model_says "42") (of_string "why?")
                     {| CHUNKS := store_seven; DATA_FILE := Some store_seven |}) = Some 200)
    by (vm_compute; reflexivity).
  rewrite Hrun in Hst. injection Hst as Hst.
  destruct (ask_outcome provider_up (model_says "42") (of_string "why?") _ s' resp Hrun)
    as (Hs & _ & Hok).
  destruct (Hok Hst) as (qEmbed & answer & sources & _ & Hbody & Hlen & Hin).
  exists resp, answer, sources. rewrite <- Hs. split; [reflexivity|].
  split; [exact Hst|]. split; [exact Hbody|]. split; [|exact Hin].
  simpl in Hlen. lia.
Defined.

(** X15 at the site of three pages, each answered once. *)
Lemma crawl_pages_sound_witness :
  exists c : Crawl,
    crawl_later resolve_sample three_pages site_A 10 ∅ [1; 0]%nat = Some c
    /\ NoDup (map page_url (pages c))
    /\ (length (pages c) + length (inflight c) <= length (requested c))%nat.
Proof.
  destruct (crawl_later resolve_sample three_pages site_A 10 ∅ [1; 0]%nat) as [c|] eqn:Hrun;
    [|vm_compute in Hrun; discriminate Hrun].
  exists c. split; [reflexivity|].
  destruct (crawl_pages_sound resolve_sample three_pages site_A 10 ∅ [1; 0]%nat c Hrun)
    as (Hnd & Hlen & _).
  split; [exact Hnd|exact Hlen].
Defined.

(** X16 at the link [http://s/b#top] on the site of three pages: with the
    fragment and without it, the link leads to [http://s/b]. *)
Lemma link_target_ignores_fragment_witness :
  site_B <> []
  /\ link_target resolve_sample site_A (of_string "http://s/b#top")
     = link_target resolve_sample site_A site_B
  /\ link_target resolve_sample site_A site_B = Some site_B.
Proof.
  split; [discriminate|]. split; [|reflexivity].
  apply (link_target_ignores_fragment resolve_sample site_A site_B (of_string "top")).
  discriminate.
Defined.

(** X17 at the site of three pages. *)
Lemma crawl_requests_reachable_witness :
  exists c : Crawl,
    crawl_later resolve_sample three_pages site_A 10 ∅ [1; 0]%nat = Some c
    /\ Forall (reachable resolve_sample three_pages site_A) (requested c).
Proof.
  destruct (crawl_later resolve_sample three_pages site_A 10 ∅ [1; 0]%nat) as [c|] eqn:Hrun;
    [|vm_compute in Hrun; discriminate Hrun].
  exists c. split; [reflexivity|].
  exact (crawl_requests_reachable resolve_sample three_pages site_A 10 ∅ [1; 0]%nat c Hrun).
Defined.

(** X18 at the site of three pages with a link [url.resolve] throws on
    between the two links of the base page: the crawl comes to rest with
    two requests, and [http://s/c] is never requested. *)
Lemma crawl_complete_below_bound_witness :
  exists c : Crawl,
    crawl_later_each resolve_or_throw three_pages_malformed site_A 10 ∅ [0]%nat = Some c
    /\ inflight c = []
    /\ Z.of_nat (length (pages c)) < 10
    /\ requested c = [site_A; site_B]
    /\ (forall r, In r (requested c)
                  <-> reachable_each resolve_or_throw three_pages_malformed site_A r)
    /\ ~ reachable_each resolve_or_throw three_pages_malformed site_A site_C.
Proof.
  destruct (crawl_later_each resolve_or_throw three_pages_malformed site_A 10 ∅ [0]%nat)
    as [c|] eqn:Hrun; [|vm_compute in Hrun; discriminate Hrun].
  assert (Hc : option_map (fun c => (inflight c, length (pages c), requested c))
                 (crawl_later_each resolve_or_throw three_pages_malformed site_A 10 ∅ [0]%nat)
               = Some ([], 2%nat, [site_A; site_B]))
    by (vm_compute; reflexivity).
  rewrite Hrun in Hc. injection Hc as Hrest Hlen Hreq.
  assert (Hroom : Z.of_nat (length (pages c)) < 10) by (rewrite Hlen; lia).
  destruct (crawl_complete_below_bound resolve_or_throw three_pages_malformed site_A 10
              [0]%nat c Hrun Hrest Hroom) as (_ & Hall & _).
  exists c. split; [reflexivity|]. split; [exact Hrest|]. split; [exact Hroom|].
  split; [exact Hreq|]. split; [exact Hall|].
  intros HC. apply Hall in HC. rewrite Hreq in HC.
  destruct HC as [HC|[HC|[]]]; discriminate HC.
Defined.

(** X20 at the site of three pages, one answer of the crawl arriving
    during each [await]: the three pages are indexed. *)
Lemma upload_full_website_indexes_every_page_witness :
  exists (resp : SiteResponse) (s' : Server) (schedule : list nat) (c : Crawl),
    upload_full_website resolve_sample three_pages (fun _ => provider_up) (fun _ => clock_zero)
      (fun _ => [0%nat]) 4 site_A empty_server
    = Some (Return resp, s')
    /\ site_body resp = FullWebsiteIndexed 3 3
    /\ crawl_later resolve_sample three_pages site_A 100 ∅ schedule = Some c
    /\ map text (CHUNKS s') = page_chunks (pages c).
Proof.
  destruct (upload_full_website resolve_sample three_pages (fun _ => provider_up)
              (fun _ => clock_zero) (fun _ => [0%nat]) 4 site_A empty_server)
    as [[[resp|e] s']|] eqn:Hrun; try (vm_compute in Hrun; discriminate Hrun).
  assert (Hstatus : site_status resp = 200)
    by (vm_compute in Hrun; injection Hrun as <- _; reflexivity).
  destruct (upload_full_website_indexes_every_page resolve_sample three_pages
              (fun _ => provider_up) (fun _ => clock_zero) (fun _ => [0%nat]) site_A
              4 empty_server s' resp Hrun Hstatus)
    as (schedule & c & new & Hlater & _ & _ & Hstore & _ & Htexts).
  exists resp, s', schedule, c. split; [reflexivity|].
  split; [vm_compute in Hrun; injection Hrun as <- _; reflexivity|].
  split; [exact Hlater|]. rewrite Hstore. exact Htexts.
Defined.
